(** * Qore tar module: archive session, path safety gate and entry streams

    A shallow embedding of [QoreTarFile.cpp], [TarInputStream.cpp],
    [TarOutputStream.cpp] and the helpers of [tar-module.cpp], together with
    the properties of the design document that are checked against them.

    Conventions.
    - A [const char*] is a [string]: the bytes stored from the pointer on,
      followed by the terminating NUL, which is not part of the value.  The C
      code stops at the first NUL it meets, and so do the functions below;
      [nul_free] says that a value holds no NUL byte, so that the whole value
      is the C string.  A pointer that may be null is an [option string].
    - An [ExceptionSink] is the list of exceptions raised so far.
    - libarchive and the operating system are external collaborators.  The
      read coder is the list of members still to be delivered, the write
      coder and the disk writer are the traces of the calls made on them;
      return codes, the bytes pushed to the backing store and the answers of
      the operating system are given by an [Env].  An [archive_entry] holds
      the values handed to the setters of libarchive, as they are handed.
    - The build is part of the [Env] too: on macOS [entryNameEquals] compares
      names after normalisation, elsewhere byte by byte.
    - The input stream of a stream-backed session is the sequence of bytes it
      has still to deliver; nothing puts bytes back into it.
    - The binding layer, which converts the arguments of the script, is not
      embedded: an operation takes the values the binding layer hands over. *)

From stdpp Require Import base list strings gmap pretty.
From Stdlib Require Import ZArith Ascii Lia.

Local Open Scope Z_scope.

(** ** C strings *)

Module CStr.

Definition NUL : ascii := "000"%char.

(** [s[i]], the terminator being read at and past the end. *)
Definition char_at (s : string) (i : nat) : ascii :=
  match String.get i s with
  | Some c => c
  | None => NUL
  end.

Fixpoint nul_free (s : string) : bool :=
  match s with
  | EmptyString => true
  | String c r => negb (Ascii.eqb c NUL) && nul_free r
  end.

(** The C string that starts at [s]: the bytes before the first NUL. *)
Fixpoint c_str (s : string) : string :=
  match s with
  | EmptyString => EmptyString
  | String c r => if Ascii.eqb c NUL then EmptyString else String c (c_str r)
  end.

Definition strlen (s : string) : nat := String.length (c_str s).

(** [strcmp(s + off, t) == 0] for [off <= strlen s] and a literal [t]. *)
Definition strcmp_at (s : string) (off : nat) (t : string) : bool :=
  String.eqb (String.substring off (strlen s - off) (c_str s)) t.

End CStr.

Import CStr.

(** ** Path safety gate ([isPathSafe], QoreTarFile.cpp) *)

Definition is_sep (c : ascii) : bool :=
  Ascii.eqb c "/" || Ascii.eqb c "\".

(** [(c >= 'A' && c <= 'Z') || (c >= 'a' && c <= 'z')] *)
Definition is_drive_letter (c : ascii) : bool :=
  let n := nat_of_ascii c in
  ((nat_of_ascii "A" <=? n)%nat && (n <=? nat_of_ascii "Z")%nat)
  || ((nat_of_ascii "a" <=? n)%nat && (n <=? nat_of_ascii "z")%nat).

(** The scanning loop over [p].  [prev] is [p[-1]], absent when [p == path];
    the result is [true] when the loop hits [return false]. *)
Fixpoint has_traversal (prev : option ascii) (p : string) : bool :=
  match p with
  | EmptyString => false
  | String c rest =>
      if Ascii.eqb c NUL then false
      else if Ascii.eqb c "." && Ascii.eqb (char_at rest 0) "."
              && match prev with None => true | Some q => is_sep q end
              && (Ascii.eqb (char_at rest 1) NUL || is_sep (char_at rest 1))
      then true
      else has_traversal (Some c) rest
  end.

Definition isPathSafe (path : option string) : bool :=
  match path with
  | None => true
  | Some s =>
      if Ascii.eqb (char_at s 0) NUL then true
      else if Ascii.eqb (char_at s 0) "/" then false
      else if is_drive_letter (char_at s 0) && Ascii.eqb (char_at s 1) ":"
      then false
      else negb (has_traversal None s)
  end.

(** A [..] component: what stands before it is nothing or ends with a
    separator, what stands after it is nothing or starts with one. *)
Definition ends_component (pre : string) : Prop :=
  pre = "" \/ exists p c, pre = p +:+ String c "" /\ is_sep c = true.

Definition starts_component (post : string) : Prop :=
  post = "" \/ exists c q, post = String c q /\ is_sep c = true.

Definition ascii_letter (c : ascii) : Prop :=
  (nat_of_ascii "A" <= nat_of_ascii c <= nat_of_ascii "Z")%nat
  \/ (nat_of_ascii "a" <= nat_of_ascii c <= nat_of_ascii "z")%nat.

(** ** Constants of libarchive and of the module *)

Definition ARCHIVE_OK : Z := 0.
Definition ARCHIVE_EOF : Z := 1.
Definition ARCHIVE_FATAL : Z := -30.

(** File types of [archive_entry.h] (octal 0100000, 0120000, ...). *)
Definition AE_IFREG : Z := 32768.
Definition AE_IFLNK : Z := 40960.
Definition AE_IFSOCK : Z := 49152.
Definition AE_IFCHR : Z := 8192.
Definition AE_IFBLK : Z := 24576.
Definition AE_IFDIR : Z := 16384.
Definition AE_IFIFO : Z := 4096.

Definition ARCHIVE_EXTRACT_OWNER : Z := 1.
Definition ARCHIVE_EXTRACT_PERM : Z := 2.
Definition ARCHIVE_EXTRACT_TIME : Z := 4.
Definition ARCHIVE_EXTRACT_NO_OVERWRITE : Z := 8.

(** [ARCHIVE_FORMAT_TAR] (0x30000) and its variants. *)
Definition ARCHIVE_FORMAT_TAR : Z := 196608.
Definition ARCHIVE_FORMAT_TAR_USTAR : Z := 196609.
Definition ARCHIVE_FORMAT_TAR_PAX_INTERCHANGE : Z := 196610.
Definition ARCHIVE_FORMAT_TAR_GNUTAR : Z := 196612.

Definition TAR_BUFFER_SIZE : Z := 65536.

(** Modelled from the spec: the [TAR_CM_*], [TAR_FORMAT_*] and [TAR_MODE_*]
    constants are declared in [tar-module.h], which is not part of the
    sources at hand.  The design document lists the compression methods
    (none, gzip, bzip2, xz, zstd, lz4), the dialects (ustar, pax, GNU, V7) and
    the access modes (read, write, append); the [switch] statements of
    [tar-module.cpp] use them as distinct case labels.  The session keeps the
    method and the dialect as [int]s: [TAR_CM_OTHER n] and
    [TAR_FORMAT_OTHER n] stand for an integer [n] that is none of the
    constants, which the [default] cases of the [switch] statements take. *)
Inductive compression : Set :=
  | TAR_CM_NONE | TAR_CM_GZIP | TAR_CM_BZIP2 | TAR_CM_XZ | TAR_CM_ZSTD
  | TAR_CM_LZ4
  | TAR_CM_OTHER (code : Z).

Inductive tar_format : Set :=
  | TAR_FORMAT_USTAR | TAR_FORMAT_PAX | TAR_FORMAT_GNU | TAR_FORMAT_V7
  | TAR_FORMAT_OTHER (code : Z).

Inductive TarMode : Set := TAR_MODE_READ | TAR_MODE_WRITE | TAR_MODE_APPEND.

(** ** Exceptions *)

Record exception : Set := Exception { ex_code : string; ex_desc : string }.

Definition ExceptionSink : Set := list exception.

Definition raiseException (code desc : string) (xs : ExceptionSink)
  : ExceptionSink := xs ++ [Exception code desc].

(** [if ( *xsink )]: an exception is pending. *)
Definition pending (xs : ExceptionSink) : bool :=
  match xs with [] => false | _ :: _ => true end.

(** ** Entries *)

Abbreviation bytes := (list Byte.byte).

Record archive_entry : Set := {
  pathname : string;
  size : Z;
  filetype : Z;
  perm : Z;
  uid : Z;
  gid : Z;
  uname : option string;
  gname : option string;
  mtime : option Z;
  atime : option Z;
  ctime : option Z;
  hardlink : option string;
  symlink : option string;
  devmajor : Z;
  devminor : Z
}.

(** [archive_entry_new()]: nothing is set. *)
Definition archive_entry_new : archive_entry :=
  {| pathname := ""; size := 0; filetype := 0; perm := 0; uid := 0; gid := 0;
     uname := None; gname := None; mtime := None; atime := None;
     ctime := None; hardlink := None; symlink := None; devmajor := 0;
     devminor := 0 |}.

Definition archive_entry_mode (e : archive_entry) : Z :=
  Z.lor (filetype e) (perm e).

Definition set_pathname (v : string) (e : archive_entry) : archive_entry :=
  {| pathname := v; size := size e; filetype := filetype e; perm := perm e;
     uid := uid e; gid := gid e; uname := uname e; gname := gname e;
     mtime := mtime e; atime := atime e; ctime := ctime e;
     hardlink := hardlink e; symlink := symlink e; devmajor := devmajor e;
     devminor := devminor e |}.

Definition set_size (v : Z) (e : archive_entry) : archive_entry :=
  {| pathname := pathname e; size := v; filetype := filetype e;
     perm := perm e; uid := uid e; gid := gid e; uname := uname e;
     gname := gname e; mtime := mtime e; atime := atime e; ctime := ctime e;
     hardlink := hardlink e; symlink := symlink e; devmajor := devmajor e;
     devminor := devminor e |}.

Definition set_filetype (v : Z) (e : archive_entry) : archive_entry :=
  {| pathname := pathname e; size := size e; filetype := v; perm := perm e;
     uid := uid e; gid := gid e; uname := uname e; gname := gname e;
     mtime := mtime e; atime := atime e; ctime := ctime e;
     hardlink := hardlink e; symlink := symlink e; devmajor := devmajor e;
     devminor := devminor e |}.

Definition set_perm (v : Z) (e : archive_entry) : archive_entry :=
  {| pathname := pathname e; size := size e; filetype := filetype e;
     perm := v; uid := uid e; gid := gid e; uname := uname e;
     gname := gname e; mtime := mtime e; atime := atime e; ctime := ctime e;
     hardlink := hardlink e; symlink := symlink e; devmajor := devmajor e;
     devminor := devminor e |}.

Definition set_uid (v : Z) (e : archive_entry) : archive_entry :=
  {| pathname := pathname e; size := size e; filetype := filetype e;
     perm := perm e; uid := v; gid := gid e; uname := uname e;
     gname := gname e; mtime := mtime e; atime := atime e; ctime := ctime e;
     hardlink := hardlink e; symlink := symlink e; devmajor := devmajor e;
     devminor := devminor e |}.

Definition set_gid (v : Z) (e : archive_entry) : archive_entry :=
  {| pathname := pathname e; size := size e; filetype := filetype e;
     perm := perm e; uid := uid e; gid := v; uname := uname e;
     gname := gname e; mtime := mtime e; atime := atime e; ctime := ctime e;
     hardlink := hardlink e; symlink := symlink e; devmajor := devmajor e;
     devminor := devminor e |}.

Definition set_uname (v : string) (e : archive_entry) : archive_entry :=
  {| pathname := pathname e; size := size e; filetype := filetype e;
     perm := perm e; uid := uid e; gid := gid e; uname := Some v;
     gname := gname e; mtime := mtime e; atime := atime e; ctime := ctime e;
     hardlink := hardlink e; symlink := symlink e; devmajor := devmajor e;
     devminor := devminor e |}.

Definition set_gname (v : string) (e : archive_entry) : archive_entry :=
  {| pathname := pathname e; size := size e; filetype := filetype e;
     perm := perm e; uid := uid e; gid := gid e; uname := uname e;
     gname := Some v; mtime := mtime e; atime := atime e; ctime := ctime e;
     hardlink := hardlink e; symlink := symlink e; devmajor := devmajor e;
     devminor := devminor e |}.

Definition set_mtime (v : Z) (e : archive_entry) : archive_entry :=
  {| pathname := pathname e; size := size e; filetype := filetype e;
     perm := perm e; uid := uid e; gid := gid e; uname := uname e;
     gname := gname e; mtime := Some v; atime := atime e; ctime := ctime e;
     hardlink := hardlink e; symlink := symlink e; devmajor := devmajor e;
     devminor := devminor e |}.

Definition set_hardlink (v : string) (e : archive_entry) : archive_entry :=
  {| pathname := pathname e; size := size e; filetype := filetype e;
     perm := perm e; uid := uid e; gid := gid e; uname := uname e;
     gname := gname e; mtime := mtime e; atime := atime e; ctime := ctime e;
     hardlink := Some v; symlink := symlink e; devmajor := devmajor e;
     devminor := devminor e |}.

Definition set_symlink (v : string) (e : archive_entry) : archive_entry :=
  {| pathname := pathname e; size := size e; filetype := filetype e;
     perm := perm e; uid := uid e; gid := gid e; uname := uname e;
     gname := gname e; mtime := mtime e; atime := atime e; ctime := ctime e;
     hardlink := hardlink e; symlink := Some v; devmajor := devmajor e;
     devminor := devminor e |}.

(** One member of an archive as the read coder delivers it: the header, the
    payload as [archive_read_data] delivers it, the blocks with their offsets
    as [archive_read_data_block] delivers them (the provider cuts the payload
    as it likes and leaves out the holes of a sparse file), and whether
    reading the payload ends in an error instead of the end of the entry (a
    truncated or damaged archive). *)
Record member : Set := {
  m_entry : archive_entry;
  m_data : bytes;
  m_blocks : list (bytes * Z);
  m_damaged : bool
}.

(** The state of a read coder. *)
Record read_handle : Set := {
  rh_pending : list member;   (* headers not yet delivered *)
  rh_data : bytes;            (* payload of the current entry not yet read *)
  rh_offset : Z;              (* offset of that payload within the entry *)
  rh_damaged : bool;          (* reading past the payload is an error *)
  rh_blocks : list (bytes * Z) (* blocks of the current entry not yet read *)
}.

(** ** The environment: libarchive and the operating system

    The codec and format provider and the file system are collaborators of
    the module.  Their answers are taken from an [Env]: what opening a
    backing for reading yields, the return code of each write call given the
    calls made before, the bytes a write call pushes to the write callback,
    and the results of [stat], [fopen], [fwrite] and [time]. *)

Inductive write_event : Set :=
  | WHeader (e : archive_entry)
  | WData (b : bytes).

Inductive disk_event : Set :=
  | DOptions (flags : Z)
  | DStandardLookup
  | DHeader (e : archive_entry)
  | DBlock (b : bytes) (offset : Z)
  | DFinishEntry
  | DClose.

(** What a coder is opened on: a file, a buffer, the input stream with the
    bytes it has still to deliver, or the output stream. *)
Inductive Backing : Set :=
  | FileBacking (path : string)
  | MemoryBacking (buf : bytes)
  | InputStreamBacking (unread : bytes)
  | StreamBacking.

Record stat_t : Set := {
  st_mode : Z;
  st_size : Z;
  st_uid : Z;
  st_gid : Z;
  st_mtime : Z;
  st_atime : Z;
  st_ctime : Z
}.

Record Env : Type := {
  (** [archive_read_new()] returns a reader *)
  env_read_new : bool;
  (** [archive_read_open_memory], [archive_read_open],
      [archive_read_open_filename]: [None] when the result is not
      [ARCHIVE_OK], else the members [archive_read_next_header] will deliver
      with [ARCHIVE_OK], in order *)
  env_read_open : Backing -> option (list member);
  (** [archive_error_string] *)
  env_error_string : option string;
  (** [archive_entry_new()] returns an entry *)
  env_entry_new : bool;
  (** [time(nullptr)] *)
  env_time : Z;
  (** [archive_write_new()] returns a writer; [archive_write_set_format],
      [archive_write_add_filter_*], [archive_write_set_options] for a filter
      and a level, and [archive_write_open*] on a fresh writer *)
  env_write_new : bool;
  env_set_format : Z -> Z;
  env_add_filter : compression -> Z;
  env_set_options : string -> Z -> Z;
  env_write_open : Backing -> Z;
  (** [archive_write_header] and [archive_write_data] on a write coder, given
      the calls made on it so far *)
  env_write_header : list write_event -> archive_entry -> Z;
  env_write_data : list write_event -> bytes -> Z;
  (** the bytes a call (or, for [None], [archive_write_close]) pushes to the
      write callback of the coder *)
  env_pushed : list write_event -> option write_event -> bytes;
  (** [archive_write_disk_new()] returns a writer; its header and block calls *)
  env_disk_new : bool;
  env_disk_header : list disk_event -> archive_entry -> Z;
  env_disk_block : list disk_event -> bytes -> Z -> Z;
  (** [stat], [fopen(path, "rb")] with the content read, [fopen(path, "wb")],
      [fwrite] of a chunk to the file opened at a path *)
  env_stat : string -> option stat_t;
  env_fopen_rb : string -> option bytes;
  env_fopen_wb : string -> bool;
  env_fwrite : string -> bytes -> bool;
  (** [strerror(errno)] *)
  env_strerror : string;
  (** the build: [None] on the platforms other than macOS; on macOS the
      normalisation to NFD that [entryNameEquals] applies, which gives [None]
      for a name of which no [CFString] or no mutable copy can be made *)
  env_nfd : option (string -> option string);
  (** the number of bytes that a reader opened on an input stream holding
      [content] has pulled through [stream_read_callback] when it is freed in
      the state given, [None] standing for a reader whose open failed *)
  env_pulled : bytes -> option read_handle -> nat
}.

Definition get_archive_error (E : Env) : string :=
  match env_error_string E with
  | Some err => err
  | None => "unknown error"
  end.

(** *** The read coder *)

Definition reader_of (ms : list member) : read_handle :=
  {| rh_pending := ms; rh_data := []; rh_offset := 0; rh_damaged := false;
     rh_blocks := [] |}.

(** The reader once [archive_read_next_header] has delivered [m] and [ms] is
    still to come. *)
Definition reader_at (m : member) (ms : list member) : read_handle :=
  {| rh_pending := ms; rh_data := m_data m; rh_offset := 0;
     rh_damaged := m_damaged m; rh_blocks := m_blocks m |}.

(** [archive_read_data(a, buf, limit)]: fills the buffer up to the end of the
    entry; [0] at the end of the entry, negative on error. *)
Definition archive_read_data (rh : read_handle) (limit : Z)
  : Z * bytes * read_handle :=
  match rh_data rh with
  | [] => (if rh_damaged rh then ARCHIVE_FATAL else 0, [], rh)
  | _ :: _ =>
      let n := Z.to_nat (Z.min limit (Z.of_nat (length (rh_data rh)))) in
      (Z.of_nat n, take n (rh_data rh),
       {| rh_pending := rh_pending rh; rh_data := drop n (rh_data rh);
          rh_offset := rh_offset rh + Z.of_nat n;
          rh_damaged := rh_damaged rh; rh_blocks := rh_blocks rh |})
  end.

Definition archive_read_data_skip (rh : read_handle) : read_handle :=
  {| rh_pending := rh_pending rh; rh_data := [];
     rh_offset := rh_offset rh + Z.of_nat (length (rh_data rh));
     rh_damaged := false; rh_blocks := [] |}.

(** [archive_read_data_block(a, &buffer, &size, &offset)]: the next block of
    the entry with its offset, as the provider cuts them; [ARCHIVE_EOF] after
    the last one, or an error when the payload cannot be read to its end. *)
Definition archive_read_data_block (rh : read_handle)
  : Z * bytes * Z * read_handle :=
  match rh_blocks rh with
  | [] =>
      (if rh_damaged rh then ARCHIVE_FATAL else ARCHIVE_EOF, [], rh_offset rh,
       rh)
  | (b, o) :: rest =>
      (ARCHIVE_OK, b, o,
       {| rh_pending := rh_pending rh; rh_data := rh_data rh;
          rh_offset := o + Z.of_nat (length b);
          rh_damaged := rh_damaged rh; rh_blocks := rest |})
  end.

(** *** The write coder: the calls made on it *)

Definition archive_write_header (E : Env) (wa : list write_event)
    (e : archive_entry) : Z * list write_event * bytes :=
  (env_write_header E wa e, wa ++ [WHeader e],
   env_pushed E wa (Some (WHeader e))).

Definition archive_write_data (E : Env) (wa : list write_event) (b : bytes)
  : Z * list write_event * bytes :=
  (env_write_data E wa b, wa ++ [WData b], env_pushed E wa (Some (WData b))).

(** [archive_write_close]: the trailing bytes pushed to the write callback. *)
Definition archive_write_close (E : Env) (wa : list write_event) : bytes :=
  env_pushed E wa None.

(** ** The archive session ([QoreTarFile]) *)

Record QoreTarFile : Set := {
  filepath : string;
  mode : TarMode;
  read_archive : option read_handle;
  write_archive : option (list write_event);
  compression_method : compression;
  compression_level : Z;
  format : tar_format;
  in_memory : bool;
  closed : bool;
  memory_buffer : bytes;
  memory_pos : Z;
  input_stream : bool;    (* the pointer is not null *)
  output_stream : bool
}.

(** What lies outside the session object: the bytes a write coder pushed to
    its file or to the output stream after it was opened, the calls made on
    disk writers by [extractAll], the files created or written through
    [fopen] and [fwrite] and by opening an archive file for writing (which
    creates it empty; what the coder writes to it afterwards is in [w_out]),
    and the bytes the input stream of a stream-backed session has still to
    deliver. *)
Record World : Type := {
  w_out : bytes;
  w_disk : list disk_event;
  w_files : gmap string bytes;
  w_in : bytes
}.

Record State : Type := {
  self : QoreTarFile;
  world : World;
  xsink : ExceptionSink
}.

Definition with_read_archive (v : option read_handle) (t : QoreTarFile)
  : QoreTarFile :=
  {| filepath := filepath t; mode := mode t; read_archive := v;
     write_archive := write_archive t;
     compression_method := compression_method t;
     compression_level := compression_level t; format := format t;
     in_memory := in_memory t; closed := closed t;
     memory_buffer := memory_buffer t; memory_pos := memory_pos t;
     input_stream := input_stream t; output_stream := output_stream t |}.

Definition with_write_archive (v : option (list write_event))
    (t : QoreTarFile) : QoreTarFile :=
  {| filepath := filepath t; mode := mode t; read_archive := read_archive t;
     write_archive := v;
     compression_method := compression_method t;
     compression_level := compression_level t; format := format t;
     in_memory := in_memory t; closed := closed t;
     memory_buffer := memory_buffer t; memory_pos := memory_pos t;
     input_stream := input_stream t; output_stream := output_stream t |}.

Definition with_closed (v : bool) (t : QoreTarFile) : QoreTarFile :=
  {| filepath := filepath t; mode := mode t; read_archive := read_archive t;
     write_archive := write_archive t;
     compression_method := compression_method t;
     compression_level := compression_level t; format := format t;
     in_memory := in_memory t; closed := v;
     memory_buffer := memory_buffer t; memory_pos := memory_pos t;
     input_stream := input_stream t; output_stream := output_stream t |}.

Definition with_memory_buffer (v : bytes) (t : QoreTarFile) : QoreTarFile :=
  {| filepath := filepath t; mode := mode t; read_archive := read_archive t;
     write_archive := write_archive t;
     compression_method := compression_method t;
     compression_level := compression_level t; format := format t;
     in_memory := in_memory t; closed := closed t;
     memory_buffer := v; memory_pos := memory_pos t;
     input_stream := input_stream t; output_stream := output_stream t |}.

Definition with_memory_pos (v : Z) (t : QoreTarFile) : QoreTarFile :=
  {| filepath := filepath t; mode := mode t; read_archive := read_archive t;
     write_archive := write_archive t;
     compression_method := compression_method t;
     compression_level := compression_level t; format := format t;
     in_memory := in_memory t; closed := closed t;
     memory_buffer := memory_buffer t; memory_pos := v;
     input_stream := input_stream t; output_stream := output_stream t |}.

Definition on_self (f : QoreTarFile -> QoreTarFile) (st : State) : State :=
  {| self := f (self st); world := world st; xsink := xsink st |}.

Definition on_world (f : World -> World) (st : State) : State :=
  {| self := self st; world := f (world st); xsink := xsink st |}.

Definition raise (code desc : string) (st : State) : State :=
  {| self := self st; world := world st;
     xsink := raiseException code desc (xsink st) |}.

(** The write callbacks: [memory_write_callback] appends to the memory
    buffer; a file or an output stream receives the bytes otherwise. *)
Definition deliver (b : bytes) (st : State) : State :=
  if in_memory (self st)
  then on_self (with_memory_buffer (memory_buffer (self st) ++ b)) st
  else on_world (fun w => {| w_out := w_out w ++ b; w_disk := w_disk w;
                             w_files := w_files w; w_in := w_in w |}) st.

Definition disk_call (ev : disk_event) (st : State) : State :=
  on_world (fun w => {| w_out := w_out w; w_disk := w_disk w ++ [ev];
                        w_files := w_files w; w_in := w_in w |}) st.

(** A file is created or truncated at [path] and holds [content]. *)
Definition set_file (path : string) (content : bytes) (st : State) : State :=
  on_world (fun w => {| w_out := w_out w; w_disk := w_disk w;
                        w_files := <[path := content]> (w_files w);
                        w_in := w_in w |}) st.

(** [p && *p] for a pointer [p]. *)
Definition c_nonempty (p : option string) : bool :=
  match p with
  | None => false
  | Some s => negb (Ascii.eqb (char_at s 0) NUL)
  end.

(** [entryNameEquals]: [strcmp(archive_name, lookup_name) == 0] on the
    platforms other than macOS; on macOS the comparison of the two names
    after normalisation to NFD, with the byte comparison as the fallback when
    one of them cannot be made a [CFString]. *)
Definition entryNameEquals (E : Env) (archive_name lookup_name : string)
  : bool :=
  match env_nfd E with
  | None => String.eqb (c_str archive_name) (c_str lookup_name)
  | Some nfd =>
      match nfd (c_str archive_name), nfd (c_str lookup_name) with
      | Some a, Some l => String.eqb a l
      | _, _ => String.eqb (c_str archive_name) (c_str lookup_name)
      end
  end.

(** *** The metadata record ([createEntryInfo]) *)

Inductive QoreValue : Set :=
  | QInt (n : Z)
  | QBool (b : bool)
  | QString (s : string)
  | QDate (epoch : Z).

Definition set_key {A : Type} (k : string) (f : A -> QoreValue)
    (o : option A) (h : gmap string QoreValue) : gmap string QoreValue :=
  match o with
  | Some v => <[k := f v]> h
  | None => h
  end.

(** The [switch (filetype)] of [createEntryInfo]. *)
Definition filetype_str (ft : Z) : string :=
  if ft =? AE_IFREG then "file"
  else if ft =? AE_IFDIR then "directory"
  else if ft =? AE_IFLNK then "symlink"
  else if ft =? AE_IFCHR then "chardev"
  else if ft =? AE_IFBLK then "blockdev"
  else if ft =? AE_IFIFO then "fifo"
  else if ft =? AE_IFSOCK then "socket"
  else "unknown".

Definition createEntryInfo (entry : archive_entry) : gmap string QoreValue :=
  let info : gmap string QoreValue := ∅ in
  let info := <["name" := QString (c_str (pathname entry))]> info in
  let info := <["size" := QInt (size entry)]> info in
  let info := set_key "modified" QDate (mtime entry) info in
  let info := set_key "accessed" QDate (atime entry) info in
  let info := set_key "created" QDate (ctime entry) info in
  let info := <["mode" := QInt (archive_entry_mode entry)]> info in
  let info := <["uid" := QInt (uid entry)]> info in
  let info := <["gid" := QInt (gid entry)]> info in
  let info := set_key "uname" (fun s => QString (c_str s)) (uname entry) info in
  let info := set_key "gname" (fun s => QString (c_str s)) (gname entry) info in
  let filetype := filetype entry in
  let hardlink_target := hardlink entry in
  let type_str :=
    if c_nonempty hardlink_target then "hardlink" else filetype_str filetype in
  let info := <["type" := QString type_str]> info in
  let link :=
    match symlink entry with
    | Some l => Some l
    | None => hardlink entry
    end in
  let info := set_key "link_target" (fun s => QString (c_str s)) link info in
  let info := <["is_directory" := QBool (filetype =? AE_IFDIR)]> info in
  let info := <["is_symlink" := QBool (filetype =? AE_IFLNK)]> info in
  let info :=
    <["is_hardlink" := QBool (bool_decide (is_Some (hardlink entry)))]> info in
  if (filetype =? AE_IFCHR) || (filetype =? AE_IFBLK)
  then <["devminor" := QInt (devminor entry)]>
         (<["devmajor" := QInt (devmajor entry)]> info)
  else info.

(** *** Options, as the binding layer hands them over

    [parseAddOptions] and [parseExtractOptions] copy the keys that are present
    over the defaults; the conversion of the values is left to the binding
    layer, an option record holds the converted value of each key present. *)

Record AddOptions : Set := {
  ao_mode : option Z;
  ao_uid : option Z;
  ao_gid : option Z;
  ao_uname : option string;
  ao_gname : option string;
  ao_modified : option Z
}.

Record add_settings : Set := {
  mode_val : Z;
  uid_val : Z;
  gid_val : Z;
  uname_val : string;
  gname_val : string;
  modified_time : Z
}.

(** [0644], no owner, no time. *)
Definition add_defaults : add_settings :=
  {| mode_val := 420; uid_val := 0; gid_val := 0; uname_val := "";
     gname_val := ""; modified_time := 0 |}.

Definition parseAddOptions (opts : option AddOptions) (d : add_settings)
  : add_settings :=
  match opts with
  | None => d
  | Some o =>
      {| mode_val := default (mode_val d) (ao_mode o);
         uid_val := default (uid_val d) (ao_uid o);
         gid_val := default (gid_val d) (ao_gid o);
         uname_val := default (uname_val d) (c_str <$> ao_uname o);
         gname_val := default (gname_val d) (c_str <$> ao_gname o);
         modified_time := default (modified_time d) (ao_modified o) |}
  end.

Record ExtractOptions : Set := {
  eo_destination : option string;
  eo_preserve_permissions : option bool;
  eo_preserve_ownership : option bool;
  eo_preserve_times : option bool;
  eo_overwrite : option bool;
  eo_create_directories : option bool;
  eo_strip_count : option Z
}.

Record extract_settings : Set := {
  destination : string;
  preserve_permissions : bool;
  preserve_ownership : bool;
  preserve_times : bool;
  overwrite : bool;
  create_directories : bool;
  strip_count : Z
}.

Definition parseExtractOptions (opts : option ExtractOptions)
    (d : extract_settings) : extract_settings :=
  match opts with
  | None => d
  | Some o =>
      {| destination := default (destination d) (c_str <$> eo_destination o);
         preserve_permissions :=
           default (preserve_permissions d) (eo_preserve_permissions o);
         preserve_ownership :=
           default (preserve_ownership d) (eo_preserve_ownership o);
         preserve_times := default (preserve_times d) (eo_preserve_times o);
         overwrite := default (overwrite d) (eo_overwrite o);
         create_directories :=
           default (create_directories d) (eo_create_directories o);
         strip_count := default (strip_count d) (eo_strip_count o) |}
  end.

(** ** Entry stream adapters

    An adapter holds a pointer to the coder of the session.  The functions
    below take the coder the pointer refers to and give it back. *)

Definition byte_to_Z (b : Byte.byte) : Z := Z.of_N (Byte.to_N b).

(** [static_cast<char>(v)] for an [int] that holds a byte. *)
Definition Z_to_byte (v : Z) : Byte.byte :=
  match Byte.of_N (Z.to_N (v mod 256)) with
  | Some b => b
  | None => Byte.x00
  end.

(** *** Read adapter ([TarInputStream]) *)

Record TarInputStream : Set := {
  is_entry : archive_entry;
  entry_size : Z;
  bytes_read : Z;
  is_closed : bool;
  peek_byte : Z;
  has_peek : bool
}.

Definition TarInputStream_new (entry : archive_entry) : TarInputStream :=
  {| is_entry := entry; entry_size := size entry; bytes_read := 0;
     is_closed := false; peek_byte := -1; has_peek := false |}.

Definition is_with (br : Z) (pb : Z) (hp : bool) (s : TarInputStream)
  : TarInputStream :=
  {| is_entry := is_entry s; entry_size := entry_size s; bytes_read := br;
     is_closed := is_closed s; peek_byte := pb; has_peek := hp |}.

Record read_result : Set := {
  rr_return : Z;            (* the value returned *)
  rr_buffer : bytes;        (* what was stored at [ptr] *)
  rr_stream : TarInputStream;
  rr_coder : read_handle;
  rr_xsink : ExceptionSink
}.

(** [TarInputStream::read(ptr, limit, xsink)] *)
Definition TarInputStream_read (E : Env) (limit : Z) (s : TarInputStream)
    (a : read_handle) (xs : ExceptionSink) : read_result :=
  if is_closed s then
    {| rr_return := -1; rr_buffer := []; rr_stream := s; rr_coder := a;
       rr_xsink := raiseException "STREAM-CLOSED-ERROR" "stream is closed" xs |}
  else if entry_size s <=? bytes_read s then
    {| rr_return := 0; rr_buffer := []; rr_stream := s; rr_coder := a;
       rr_xsink := xs |}
  else
    let '(buf, total_read, s1, limit1) :=
      if has_peek s && (0 <? limit)
      then ([Z_to_byte (peek_byte s)], 1,
            is_with (bytes_read s) (peek_byte s) false s, limit - 1)
      else ([], 0, s, limit) in
    if 0 <? limit1 then
      let '(r, data, a1) := archive_read_data a limit1 in
      if r <? 0 then
        {| rr_return := -1; rr_buffer := buf; rr_stream := s1; rr_coder := a1;
           rr_xsink :=
             raiseException "TAR-READ-ERROR"
               ("failed to read data: " +:+ get_archive_error E) xs |}
      else
        {| rr_return := total_read + r; rr_buffer := buf ++ data;
           rr_stream :=
             is_with (bytes_read s1 + (total_read + r)) (peek_byte s1)
               (has_peek s1) s1;
           rr_coder := a1; rr_xsink := xs |}
    else
      {| rr_return := total_read; rr_buffer := buf;
         rr_stream :=
           is_with (bytes_read s1 + total_read) (peek_byte s1) (has_peek s1) s1;
         rr_coder := a; rr_xsink := xs |}.

Record peek_result : Set := {
  pr_return : Z;
  pr_stream : TarInputStream;
  pr_coder : read_handle;
  pr_xsink : ExceptionSink
}.

(** [TarInputStream::peek(xsink)] *)
Definition TarInputStream_peek (E : Env) (s : TarInputStream)
    (a : read_handle) (xs : ExceptionSink) : peek_result :=
  if is_closed s then
    {| pr_return := -1; pr_stream := s; pr_coder := a;
       pr_xsink := raiseException "STREAM-CLOSED-ERROR" "stream is closed" xs |}
  else if has_peek s then
    {| pr_return := peek_byte s; pr_stream := s; pr_coder := a;
       pr_xsink := xs |}
  else if entry_size s <=? bytes_read s then
    {| pr_return := -1; pr_stream := s; pr_coder := a; pr_xsink := xs |}
  else
    let '(r, data, a1) := archive_read_data a 1 in
    if r <? 0 then
      {| pr_return := -1; pr_stream := s; pr_coder := a1;
         pr_xsink :=
           raiseException "TAR-READ-ERROR"
             ("failed to peek data: " +:+ get_archive_error E) xs |}
    else if r =? 0 then
      {| pr_return := -1; pr_stream := s; pr_coder := a1; pr_xsink := xs |}
    else
      let v := match data with b :: _ => byte_to_Z b | [] => 0 end in
      {| pr_return := v; pr_stream := is_with (bytes_read s) v true s;
         pr_coder := a1; pr_xsink := xs |}.

(** *** Write adapter ([TarOutputStream]) *)

Record TarOutputStream : Set := {
  entry_name : string;
  os_mode : Z;
  buffer : bytes;
  os_closed : bool;
  header_written : bool
}.

Definition TarOutputStream_new (entry_name : string) (mode : Z)
  : TarOutputStream :=
  {| entry_name := c_str entry_name; os_mode := mode; buffer := [];
     os_closed := false; header_written := false |}.

Definition os_with (buf : bytes) (cl : bool) (s : TarOutputStream)
  : TarOutputStream :=
  {| entry_name := entry_name s; os_mode := os_mode s; buffer := buf;
     os_closed := cl; header_written := header_written s |}.

(** The state a call of the write adapter works on: the adapter, the write
    coder it points to, the bytes that coder has pushed to its write
    callback, and the exception sink. *)
Record out_state : Set := {
  o_stream : TarOutputStream;
  o_coder : list write_event;
  o_pushed : bytes;
  o_xsink : ExceptionSink
}.

(** [TarOutputStream::write(ptr, count, xsink)]; [ptr] is the memory the
    pointer refers to, of which [count] bytes are copied. *)
Definition TarOutputStream_write (ptr : bytes) (count : Z) (st : out_state)
  : out_state :=
  let s := o_stream st in
  if os_closed s then
    {| o_stream := s; o_coder := o_coder st; o_pushed := o_pushed st;
       o_xsink :=
         raiseException "STREAM-CLOSED-ERROR" "stream is closed" (o_xsink st) |}
  else if count <=? 0 then st
  else
    {| o_stream := os_with (buffer s ++ take (Z.to_nat count) ptr) (os_closed s) s;
       o_coder := o_coder st; o_pushed := o_pushed st; o_xsink := o_xsink st |}.

(** [TarOutputStream::close(xsink)] *)
Definition TarOutputStream_close (E : Env) (st : out_state) : out_state :=
  let s := o_stream st in
  if os_closed s then st
  else
    let s := os_with (buffer s) true s in
    if negb (env_entry_new E) then
      {| o_stream := s; o_coder := o_coder st; o_pushed := o_pushed st;
         o_xsink :=
           raiseException "TAR-ERROR" "failed to create archive entry"
             (o_xsink st) |}
    else
      let entry :=
        set_mtime (env_time E)
          (set_perm (os_mode s)
             (set_filetype AE_IFREG
                (set_size (Z.of_nat (length (buffer s)))
                   (set_pathname (entry_name s) archive_entry_new)))) in
      let '(r, a1, out1) := archive_write_header E (o_coder st) entry in
      if negb (r =? ARCHIVE_OK) then
        {| o_stream := s; o_coder := a1; o_pushed := o_pushed st ++ out1;
           o_xsink :=
             raiseException "TAR-ERROR"
               ("failed to write entry header: " +:+ get_archive_error E)
               (o_xsink st) |}
      else
        match buffer s with
        | [] =>
            {| o_stream := os_with [] true s; o_coder := a1;
               o_pushed := o_pushed st ++ out1; o_xsink := o_xsink st |}
        | _ :: _ =>
            let '(written, a2, out2) := archive_write_data E a1 (buffer s) in
            {| o_stream := os_with [] true s; o_coder := a2;
               o_pushed := o_pushed st ++ out1 ++ out2;
               o_xsink :=
                 if (written <? 0)
                    || negb (written =? Z.of_nat (length (buffer s)))
                 then
                   raiseException "TAR-ERROR"
                     ("failed to write entry data: " +:+ get_archive_error E)
                     (o_xsink st)
                 else o_xsink st |}
        end.

(** [~TarOutputStream()]: the exception sink is a local one. *)
Definition TarOutputStream_destroy (E : Env) (st : out_state) : out_state :=
  if os_closed (o_stream st) then st
  else
    let st' :=
      TarOutputStream_close E
        {| o_stream := o_stream st; o_coder := o_coder st;
           o_pushed := o_pushed st; o_xsink := [] |} in
    {| o_stream := o_stream st'; o_coder := o_coder st';
       o_pushed := o_pushed st'; o_xsink := o_xsink st |}.

(** ** Operations of the archive session *)

Section Session.

Context (E : Env).

(** [checkOpen(xsink, forWrite)] *)
Definition checkOpen (forWrite : bool) (st : State) : bool * State :=
  if closed (self st) then
    (false, raise "TAR-ERROR" "archive is closed" st)
  else if forWrite then
    match write_archive (self st) with
    | None => (false, raise "TAR-ERROR" "archive is not open for writing" st)
    | Some _ => (true, st)
    end
  else
    match read_archive (self st) with
    | None =>
        if negb (in_memory (self st))
        then (false, raise "TAR-ERROR" "archive is not open for reading" st)
        else (true, st)
    | Some _ => (true, st)
    end.

(** [archive_read_free] on a reader of a stream-backed session: what the
    reader has pulled through [stream_read_callback] is gone from the input
    stream, which nothing rewinds.  The bytes are taken off [w_in] here and
    not as they are pulled: nothing looks at the stream while the reader
    lives.  The readers of the other sessions pull nothing from it. *)
Definition pulled (a : option read_handle) (st : State) : State :=
  if negb (in_memory (self st)) && input_stream (self st) then
    on_world (fun w => {| w_out := w_out w; w_disk := w_disk w;
                          w_files := w_files w;
                          w_in := drop (env_pulled E (w_in w) a) (w_in w) |})
      st
  else st.

(** [archive_read_close] and [archive_read_free] on the read coder, when
    there is one. *)
Definition release_reader (st : State) : State :=
  match read_archive (self st) with
  | Some a => on_self (with_read_archive None) (pulled (Some a) st)
  | None => st
  end.

(** [openRead(xsink)] *)
Definition openRead (st : State) : State :=
  if negb (env_read_new E) then
    raise "TAR-ERROR" "failed to create archive reader"
      (on_self (with_read_archive None) st)
  else
    let open (b : Backing) :=
      match env_read_open E b with
      | Some ms => on_self (with_read_archive (Some (reader_of ms))) st
      | None =>
          raise "TAR-ERROR"
            ("failed to open archive for reading: " +:+ get_archive_error E)
            (on_self (with_read_archive None) (pulled None st))
      end in
    if in_memory (self st) then
      match memory_buffer (self st) with
      | [] => on_self (with_read_archive (Some (reader_of []))) st
      | _ :: _ => open (MemoryBacking (memory_buffer (self st)))
      end
    else if input_stream (self st)
    then open (InputStreamBacking (w_in (world st)))
    else open (FileBacking (filepath (self st))).

(** [reopenRead(xsink)] *)
Definition reopenRead (st : State) : State :=
  let st := release_reader st in
  let st := on_self (with_memory_pos 0) st in
  openRead st.

(** The members the reader of the session has still to deliver. *)
Definition members_ahead (st : State) : list member :=
  match read_archive (self st) with
  | Some a => rh_pending a
  | None => []
  end.

Definition set_reader (a : read_handle) (st : State) : State :=
  on_self (with_read_archive (Some a)) st.

(** [archive_write_close] and [archive_write_free] on the write coder. *)
Definition finalize_writer (st : State) : State :=
  match write_archive (self st) with
  | Some wa =>
      on_self (with_write_archive None) (deliver (archive_write_close E wa) st)
  | None => st
  end.

(** [close(xsink)] *)
Definition close (st : State) : State :=
  if closed (self st) then st
  else
    let st := release_reader st in
    let st := finalize_writer st in
    on_self (with_closed true) st.

(** [toData(xsink)]; the result is the content of the [BinaryNode], [None]
    for [nullptr]. *)
Definition toData (st : State) : option bytes * State :=
  if negb (in_memory (self st)) then
    (None,
     raise "TAR-ERROR" "cannot get binary data from file-based archive" st)
  else
    let st :=
      match mode (self st) with
      | TAR_MODE_WRITE => finalize_writer st
      | _ => st
      end in
    match memory_buffer (self st) with
    | [] => (Some [], st)
    | _ :: _ => (Some (memory_buffer (self st)), st)
    end.

(** [format_to_archive_format]; the [default] case of the [switch] is for
    integers that are none of the constants. *)
Definition format_to_archive_format (f : tar_format) : Z :=
  match f with
  | TAR_FORMAT_USTAR => ARCHIVE_FORMAT_TAR_USTAR
  | TAR_FORMAT_PAX => ARCHIVE_FORMAT_TAR_PAX_INTERCHANGE
  | TAR_FORMAT_GNU => ARCHIVE_FORMAT_TAR_GNUTAR
  | TAR_FORMAT_V7 => ARCHIVE_FORMAT_TAR
  | TAR_FORMAT_OTHER _ => ARCHIVE_FORMAT_TAR_PAX_INTERCHANGE
  end.

(** [setupCompressionFilter(xsink)]: one filter for the method, then the
    level, when it is between 1 and 9 and the method is not none, as an
    option of the filter, whose result is not looked at.  The [default] case
    of the first [switch], for an integer that is none of the constants,
    raises and returns. *)
Definition filter_name (c : compression) : option string :=
  match c with
  | TAR_CM_NONE => None
  | TAR_CM_GZIP => Some "gzip"
  | TAR_CM_BZIP2 => Some "bzip2"
  | TAR_CM_XZ => Some "xz"
  | TAR_CM_ZSTD => Some "zstd"
  | TAR_CM_LZ4 => Some "lz4"
  | TAR_CM_OTHER _ => None
  end.

(** The first [switch]: the return code of [archive_write_add_filter_*],
    and nothing in the [default] case. *)
Definition add_filter (method : compression) : option Z :=
  match method with
  | TAR_CM_OTHER _ => None
  | _ => Some (env_add_filter E method)
  end.

Definition setupCompressionFilter (st : State) : State :=
  let method := compression_method (self st) in
  let level := compression_level (self st) in
  match method with
  | TAR_CM_OTHER code =>
      raise "TAR-ERROR" ("invalid compression method: " +:+ pretty code) st
  | _ =>
      let r := env_add_filter E method in
      if negb (r =? ARCHIVE_OK) then
        raise "TAR-ERROR"
          ("failed to set compression filter: " +:+ get_archive_error E) st
      else if (1 <=? level) && (level <=? 9)
              && match method with TAR_CM_NONE => false | _ => true end
      then
        match filter_name method with
        | Some name =>
            let r := env_set_options E name level in
            (* not fatal: the archive is written without the level *)
            st
        | None => st
        end
      else st
  end.

(** [openWrite(xsink)]; [archive_write_open_filename] creates the file of a
    file-backed session, or truncates it, when it succeeds; given an empty
    name it opens the standard output instead, and no file. *)
Definition openWrite (st : State) : State :=
  if negb (env_write_new E) then
    raise "TAR-ERROR" "failed to create archive writer"
      (on_self (with_write_archive None) st)
  else if negb (env_set_format E (format_to_archive_format (format (self st)))
                =? ARCHIVE_OK)
  then
    raise "TAR-ERROR"
      ("failed to set archive format: " +:+ get_archive_error E)
      (on_self (with_write_archive None) st)
  else
    let st := setupCompressionFilter st in
    if pending (xsink st) then on_self (with_write_archive None) st
    else
      let r :=
        if in_memory (self st) then env_write_open E (MemoryBacking [])
        else if output_stream (self st) then env_write_open E StreamBacking
        else env_write_open E (FileBacking (filepath (self st))) in
      if negb (r =? ARCHIVE_OK) then
        raise "TAR-ERROR"
          ("failed to open archive for writing: " +:+ get_archive_error E)
          (on_self (with_write_archive None) st)
      else
        let st :=
          if in_memory (self st) || output_stream (self st)
             || String.eqb (filepath (self st)) ""
          then st
          else set_file (filepath (self st)) [] st in
        on_self (with_write_archive (Some [])) st.

(** The constructor for a new in-memory archive; an argument is negative
    ([None]) when it is not given. *)
Definition QoreTarFile_new_memory (compression_method : option compression)
    (format : option tar_format) (w : World) (xs : ExceptionSink) : State :=
  openWrite
    {| self :=
         {| filepath := ""; mode := TAR_MODE_WRITE; read_archive := None;
            write_archive := None;
            compression_method := default TAR_CM_NONE compression_method;
            compression_level := -1;
            format := default TAR_FORMAT_PAX format;
            in_memory := true; closed := false; memory_buffer := [];
            memory_pos := 0; input_stream := false; output_stream := false |};
       world := w; xsink := xs |}.

(** The constructor for an in-memory archive from binary data. *)
Definition QoreTarFile_from_data (data : option bytes) (w : World)
    (xs : ExceptionSink) : State :=
  openRead
    {| self :=
         {| filepath := ""; mode := TAR_MODE_READ; read_archive := None;
            write_archive := None; compression_method := TAR_CM_NONE;
            compression_level := -1; format := TAR_FORMAT_PAX;
            in_memory := true; closed := false;
            memory_buffer := default [] data; memory_pos := 0;
            input_stream := false; output_stream := false |};
       world := w; xsink := xs |}.

(** *** Enumeration and lookup *)

Fixpoint entries_loop (ms : list member) (xs : ExceptionSink)
    (acc : list (gmap string QoreValue))
  : option (list (gmap string QoreValue)) * read_handle :=
  match ms with
  | [] => (Some acc, reader_of [])
  | m :: ms' =>
      let info := createEntryInfo (m_entry m) in
      if pending xs then (None, reader_at m ms')
      else entries_loop ms' xs (acc ++ [info])
  end.

Definition entries (st : State)
  : option (list (gmap string QoreValue)) * State :=
  let (ok, st) := checkOpen false st in
  if negb ok then (None, st)
  else
    let st := reopenRead st in
    if pending (xsink st) then (None, st)
    else
      let (r, a) := entries_loop (members_ahead st) (xsink st) [] in
      (r, set_reader a st).

Definition count (st : State) : Z * State :=
  let (ok, st) := checkOpen false st in
  if negb ok then (-1, st)
  else
    let st := reopenRead st in
    if pending (xsink st) then (-1, st)
    else (Z.of_nat (length (members_ahead st)), set_reader (reader_of []) st).

(** The scan for the first entry named [name]: the member found and the
    members after it. *)
Fixpoint find_entry (name : string) (ms : list member)
  : option (member * list member) :=
  match ms with
  | [] => None
  | m :: ms' =>
      if entryNameEquals E (pathname (m_entry m)) name then Some (m, ms')
      else find_entry name ms'
  end.

Definition hasEntry (name : string) (st : State) : bool * State :=
  let (ok, st) := checkOpen false st in
  if negb ok then (false, st)
  else
    let st := reopenRead st in
    if pending (xsink st) then (false, st)
    else
      match find_entry name (members_ahead st) with
      | Some (m, ms') => (true, set_reader (reader_at m ms') st)
      | None => (false, set_reader (reader_of []) st)
      end.

Definition getEntry (name : string) (st : State)
  : option (gmap string QoreValue) * State :=
  let (ok, st) := checkOpen false st in
  if negb ok then (None, st)
  else
    let st := reopenRead st in
    if pending (xsink st) then (None, st)
    else
      match find_entry name (members_ahead st) with
      | Some (m, ms') =>
          (Some (createEntryInfo (m_entry m)), set_reader (reader_at m ms') st)
      | None => (None, set_reader (reader_of []) st)
      end.

(** [while ((bytes_read = archive_read_data(...)) > 0) data->append(...)]:
    the last return code, the bytes appended and the coder.  A call delivers
    at least one byte while the loop goes on, so [S (length (rh_data a))]
    rounds are enough. *)
Fixpoint read_data_loop (fuel : nat) (a : read_handle) (acc : bytes)
  : Z * bytes * read_handle :=
  let '(r, buf, a1) := archive_read_data a TAR_BUFFER_SIZE in
  if 0 <? r then
    match fuel with
    | O => (r, acc ++ buf, a1)
    | S fuel' => read_data_loop fuel' a1 (acc ++ buf)
    end
  else (r, acc, a1).

Definition read_all (a : read_handle) : Z * bytes * read_handle :=
  read_data_loop (S (length (rh_data a))) a [].

(** [read(name, xsink)] *)
Definition read (name : string) (st : State) : option bytes * State :=
  let (ok, st) := checkOpen false st in
  if negb ok then (None, st)
  else
    let st := reopenRead st in
    if pending (xsink st) then (None, st)
    else
      match find_entry name (members_ahead st) with
      | Some (m, ms') =>
          if size (m_entry m) <=? 0 then
            (Some [], set_reader (reader_at m ms') st)
          else
            let '(bytes_read, data, a) := read_all (reader_at m ms') in
            if bytes_read <? 0 then
              (None,
               raise "TAR-ERROR"
                 ("failed to read entry data: " +:+ get_archive_error E)
                 (set_reader a st))
            else (Some data, set_reader a st)
      | None =>
          (None,
           raise "TAR-ERROR" ("entry '" +:+ c_str name +:+ "' not found")
             (set_reader (reader_of []) st))
      end.

(** [readText]: the bytes of the string node; the encoding only labels
    them. *)
Definition readText (name : string) (encoding : option string) (st : State)
  : option bytes * State :=
  let (data, st) := read name st in
  if pending (xsink st) then (None, st)
  else (data, st).

(** *** Adding entries *)

(** A call on the write coder of the session, with the bytes it pushes
    delivered to the backing.  The operations call it behind
    [checkOpen(xsink, true)], where the coder exists. *)
Definition write_header_call (entry : archive_entry) (st : State)
  : Z * State :=
  match write_archive (self st) with
  | Some wa =>
      let '(r, wa1, out) := archive_write_header E wa entry in
      (r, deliver out (on_self (with_write_archive (Some wa1)) st))
  | None => (ARCHIVE_FATAL, st)
  end.

Definition write_data_call (b : bytes) (st : State) : Z * State :=
  match write_archive (self st) with
  | Some wa =>
      let '(r, wa1, out) := archive_write_data E wa b in
      (r, deliver out (on_self (with_write_archive (Some wa1)) st))
  | None => (ARCHIVE_FATAL, st)
  end.

(** [add(name, data, opts, xsink)] *)
Definition add (name : string) (data : option bytes)
    (opts : option AddOptions) (st : State) : State :=
  let (ok, st) := checkOpen true st in
  if negb ok then st
  else
    let o := parseAddOptions opts add_defaults in
    if bool_decide (is_Some opts) && pending (xsink st) then st
    else if negb (env_entry_new E) then
      raise "TAR-ERROR" "failed to create archive entry" st
    else
      let entry := set_pathname (c_str name) archive_entry_new in
      let entry :=
        set_size (Z.of_nat (length (default [] data))) entry in
      let entry := set_filetype AE_IFREG entry in
      let entry := set_perm (mode_val o) entry in
      let entry := if 0 <? uid_val o then set_uid (uid_val o) entry else entry in
      let entry := if 0 <? gid_val o then set_gid (gid_val o) entry else entry in
      let entry :=
        if String.eqb (uname_val o) "" then entry
        else set_uname (uname_val o) entry in
      let entry :=
        if String.eqb (gname_val o) "" then entry
        else set_gname (gname_val o) entry in
      let entry :=
        if 0 <? modified_time o then set_mtime (modified_time o) entry
        else set_mtime (env_time E) entry in
      let (r, st) := write_header_call entry st in
      if negb (r =? ARCHIVE_OK) then
        raise "TAR-ERROR"
          ("failed to write entry header: " +:+ get_archive_error E) st
      else
        match default [] data with
        | [] => st
        | (_ :: _) as d =>
            let (written, st) := write_data_call d st in
            if (written <? 0) || negb (written =? Z.of_nat (length d)) then
              raise "TAR-ERROR"
                ("failed to write entry data: " +:+ get_archive_error E) st
            else st
        end.

(** [addText]: [text] is the converted string, [None] when the conversion
    to UTF-8 raised [conv_error]. *)
Definition addText (name : string) (text : option bytes)
    (conv_error : exception) (opts : option AddOptions) (st : State) : State :=
  let st :=
    match text with
    | Some _ => st
    | None => raise (ex_code conv_error) (ex_desc conv_error) st
    end in
  if pending (xsink st) then st
  else add name (Some (default [] text)) opts st.

(** [archive_entry_copy_stat] *)
Definition archive_entry_copy_stat (sb : stat_t) (e : archive_entry)
  : archive_entry :=
  {| pathname := pathname e; size := st_size sb;
     filetype := Z.land (st_mode sb) 61440;
     perm := Z.land (st_mode sb) 4095;
     uid := st_uid sb; gid := st_gid sb; uname := uname e; gname := gname e;
     mtime := Some (st_mtime sb); atime := Some (st_atime sb);
     ctime := Some (st_ctime sb); hardlink := hardlink e;
     symlink := symlink e; devmajor := devmajor e; devminor := devminor e |}.

(** The [fread] and [archive_write_data] loop of [addFile] over the content
    left in the file; [false] when a write failed. *)
Fixpoint copy_file_loop (fuel : nat) (content : bytes) (st : State)
  : bool * State :=
  match content with
  | [] => (true, st)
  | _ :: _ =>
      let n := Z.to_nat TAR_BUFFER_SIZE in
      let (r, st) := write_data_call (take n content) st in
      if r <? 0 then
        (false,
         raise "TAR-ERROR"
           ("failed to write file data: " +:+ get_archive_error E) st)
      else
        match fuel with
        | O => (true, st)
        | S fuel' => copy_file_loop fuel' (drop n content) st
        end
  end.

(** [addFile(name, filepath, opts, xsink)] *)
Definition addFile (name : string) (path : string) (opts : option AddOptions)
    (st : State) : State :=
  let (ok, st) := checkOpen true st in
  if negb ok then st
  else
    match env_stat E (c_str path) with
    | None =>
        raise "TAR-ERROR"
          ("failed to stat file '" +:+ c_str path +:+ "': "
           +:+ env_strerror E) st
    | Some sb =>
        if negb (env_entry_new E) then
          raise "TAR-ERROR" "failed to create archive entry" st
        else
          let entry :=
            archive_entry_copy_stat sb
              (set_pathname (c_str name) archive_entry_new) in
          let (r, st) := write_header_call entry st in
          if negb (r =? ARCHIVE_OK) then
            raise "TAR-ERROR"
              ("failed to write entry header: " +:+ get_archive_error E) st
          else if (Z.land (st_mode sb) 61440 =? 32768) && (0 <? st_size sb)
          then
            match env_fopen_rb E (c_str path) with
            | None =>
                raise "TAR-ERROR"
                  ("failed to open file '" +:+ c_str path +:+ "': "
                   +:+ env_strerror E) st
            | Some content =>
                snd (copy_file_loop (length content) content st)
            end
          else st
    end.

(** [addDirectory(name, opts, xsink)]; the permissions are [0755]. *)
Definition addDirectory (name : string) (opts : option AddOptions)
    (st : State) : State :=
  let (ok, st) := checkOpen true st in
  if negb ok then st
  else if negb (env_entry_new E) then
    raise "TAR-ERROR" "failed to create archive entry" st
  else
    let dirname := c_str name in
    let dirname :=
      match String.length dirname with
      | O => dirname
      | S k =>
          if Ascii.eqb (char_at dirname k) "/" then dirname
          else dirname +:+ "/"
      end in
    let entry := set_pathname dirname archive_entry_new in
    let entry := set_filetype AE_IFDIR entry in
    let entry := set_perm 493 entry in
    let entry := set_mtime (env_time E) entry in
    let (r, st) := write_header_call entry st in
    if negb (r =? ARCHIVE_OK) then
      raise "TAR-ERROR"
        ("failed to write directory entry: " +:+ get_archive_error E) st
    else st.

(** [addSymlink(name, target, opts, xsink)]; the permissions are [0777]. *)
Definition addSymlink (name target : string) (opts : option AddOptions)
    (st : State) : State :=
  let (ok, st) := checkOpen true st in
  if negb ok then st
  else if negb (env_entry_new E) then
    raise "TAR-ERROR" "failed to create archive entry" st
  else
    let entry := set_pathname (c_str name) archive_entry_new in
    let entry := set_filetype AE_IFLNK entry in
    let entry := set_symlink (c_str target) entry in
    let entry := set_perm 511 entry in
    let entry := set_mtime (env_time E) entry in
    let (r, st) := write_header_call entry st in
    if negb (r =? ARCHIVE_OK) then
      raise "TAR-ERROR"
        ("failed to write symlink entry: " +:+ get_archive_error E) st
    else st.

(** [addHardlink(name, target, opts, xsink)] *)
Definition addHardlink (name target : string) (opts : option AddOptions)
    (st : State) : State :=
  let (ok, st) := checkOpen true st in
  if negb ok then st
  else if negb (env_entry_new E) then
    raise "TAR-ERROR" "failed to create archive entry" st
  else
    let entry := set_pathname (c_str name) archive_entry_new in
    let entry := set_hardlink (c_str target) entry in
    let entry := set_mtime (env_time E) entry in
    let (r, st) := write_header_call entry st in
    if negb (r =? ARCHIVE_OK) then
      raise "TAR-ERROR"
        ("failed to write hardlink entry: " +:+ get_archive_error E) st
    else st.

(** *** Extraction *)

(** The block loop of [extractAll]: blocks are read from the coder and
    written to the disk writer until a read is not [ARCHIVE_OK]; a failed
    write raises and leaves this loop only. *)
Fixpoint copy_blocks (fuel : nat) (entry_name : string) (a : read_handle)
    (st : State) : State * read_handle :=
  let '(r, buf, offset, a1) := archive_read_data_block a in
  if r =? ARCHIVE_OK then
    let rc := env_disk_block E (w_disk (world st)) buf offset in
    let st := disk_call (DBlock buf offset) st in
    if negb (rc =? ARCHIVE_OK) then
      (raise "TAR-ERROR"
         ("failed to write data for '" +:+ entry_name +:+ "': "
          +:+ get_archive_error E) st, a1)
    else
      match fuel with
      | O => (st, a1)
      | S fuel' => copy_blocks fuel' entry_name a1 st
      end
  else (st, a1).

(** The loop of [extractAll] over the headers the reader delivers.
    [entry_name] points into the entry, whose path is overwritten before the
    two TAR-ERROR messages are built; they are given the path read from the
    header here, and nothing below depends on their text. *)
Fixpoint extract_loop (destination : string) (ms : list member) (st : State)
  : State * read_handle :=
  match ms with
  | [] => (st, reader_of [])
  | m :: ms' =>
      let entry := m_entry m in
      let entry_name := pathname entry in
      if negb (isPathSafe (Some entry_name)) then
        (raise "TAR-SECURITY-ERROR"
           ("refusing to extract entry with unsafe path: '"
            +:+ c_str entry_name +:+ "' (potential path traversal attack)") st,
         reader_at m ms')
      else
        let dest_path := destination +:+ "/" +:+ c_str entry_name in
        let entry := set_pathname dest_path entry in
        let hardlink_target := hardlink entry in
        if c_nonempty hardlink_target && negb (isPathSafe hardlink_target)
        then
          (raise "TAR-SECURITY-ERROR"
             ("refusing to extract hardlink with unsafe target: '"
              +:+ c_str (default "" hardlink_target) +:+ "'") st,
           reader_at m ms')
        else
          let entry :=
            if c_nonempty hardlink_target
            then set_hardlink
                   (destination +:+ "/" +:+ c_str (default "" hardlink_target))
                   entry
            else entry in
          let symlink_target := symlink entry in
          if c_nonempty symlink_target && negb (isPathSafe symlink_target)
          then
            (raise "TAR-SECURITY-ERROR"
               ("refusing to extract symlink with unsafe target: '"
                +:+ c_str (default "" symlink_target) +:+ "'") st,
             reader_at m ms')
          else
            let r := env_disk_header E (w_disk (world st)) entry in
            let st := disk_call (DHeader entry) st in
            if negb (r =? ARCHIVE_OK) then
              (raise "TAR-ERROR"
                 ("failed to extract '" +:+ c_str entry_name +:+ "': "
                  +:+ get_archive_error E) st,
               reader_at m ms')
            else
              let st :=
                if 0 <? size entry
                then fst (copy_blocks (S (length (m_blocks m)))
                            (c_str entry_name) (reader_at m ms') st)
                else st in
              let st := disk_call DFinishEntry st in
              extract_loop destination ms' st
  end.

Definition extract_defaults (destPath : option string) : extract_settings :=
  {| destination := match destPath with Some d => c_str d | None => "." end;
     preserve_permissions := true; preserve_ownership := false;
     preserve_times := true; overwrite := true; create_directories := true;
     strip_count := 0 |}.

Definition extract_flags (o : extract_settings) : Z :=
  let flags := ARCHIVE_EXTRACT_TIME in
  let flags :=
    if preserve_permissions o then Z.lor flags ARCHIVE_EXTRACT_PERM
    else flags in
  let flags :=
    if preserve_ownership o then Z.lor flags ARCHIVE_EXTRACT_OWNER
    else flags in
  if negb (overwrite o) then Z.lor flags ARCHIVE_EXTRACT_NO_OVERWRITE
  else flags.

(** [extractAll(destPath, opts, xsink)] *)
Definition extractAll (destPath : option string)
    (opts : option ExtractOptions) (st : State) : State :=
  let (ok, st) := checkOpen false st in
  if negb ok then st
  else
    let o := parseExtractOptions opts (extract_defaults destPath) in
    if bool_decide (is_Some opts) && pending (xsink st) then st
    else
      let st := reopenRead st in
      if pending (xsink st) then st
      else if negb (env_disk_new E) then
        raise "TAR-ERROR" "failed to create disk writer" st
      else
        let st := disk_call (DOptions (extract_flags o)) st in
        let st := disk_call DStandardLookup st in
        let (st, a) := extract_loop (destination o) (members_ahead st) st in
        disk_call DClose (set_reader a st).

(** The [archive_read_data] and [fwrite] loop of [extractTo]; [written] is
    the content of the destination file so far. *)
Fixpoint extract_to_loop (fuel : nat) (dest : string) (a : read_handle)
    (written : bytes) (st : State) : State * read_handle :=
  let '(r, buf, a1) := archive_read_data a TAR_BUFFER_SIZE in
  if 0 <? r then
    if negb (env_fwrite E dest buf) then
      (raise "TAR-ERROR" "failed to write to destination file" st, a1)
    else
      let st := set_file dest (written ++ buf) st in
      match fuel with
      | O => (st, a1)
      | S fuel' => extract_to_loop fuel' dest a1 (written ++ buf) st
      end
  else (st, a1).

(** [extractTo(name, destination, xsink)] *)
Definition extractTo (name dest : string) (st : State) : State :=
  let (ok, st) := checkOpen false st in
  if negb ok then st
  else
    let st := reopenRead st in
    if pending (xsink st) then st
    else
      match find_entry name (members_ahead st) with
      | Some (m, ms') =>
          let st := set_reader (reader_at m ms') st in
          if negb (env_fopen_wb E (c_str dest)) then
            raise "TAR-ERROR"
              ("failed to open destination file '" +:+ c_str dest +:+ "': "
               +:+ env_strerror E) st
          else
            let st := set_file (c_str dest) [] st in
            let (st, a) :=
              extract_to_loop (S (length (m_data m))) (c_str dest)
                (reader_at m ms') [] st in
            set_reader a st
      | None =>
          raise "TAR-ERROR" ("entry '" +:+ c_str name +:+ "' not found")
            (set_reader (reader_of []) st)
      end.

(** [extractEntry(name, destPath, xsink)] *)
Definition extractEntry (name destPath : string) (st : State) : State :=
  extractTo name destPath st.

(** *** Accessors and streams *)

Definition getPath (st : State) : option string :=
  if String.eqb (filepath (self st)) "" then None
  else Some (filepath (self st)).

Definition getCompressionMethod (st : State) : compression :=
  compression_method (self st).

Definition getFormat (st : State) : tar_format := format (self st).

(** [openInputStream(name, xsink)]: the adapter, bound to the read coder of
    the session, which stands at the payload of the entry. *)
Definition openInputStream (name : string) (st : State)
  : option TarInputStream * State :=
  let (ok, st) := checkOpen false st in
  if negb ok then (None, st)
  else
    let st := reopenRead st in
    if pending (xsink st) then (None, st)
    else
      match find_entry name (members_ahead st) with
      | Some (m, ms') =>
          let st := set_reader (reader_at m ms') st in
          if pending (xsink st) then (None, st)
          else (Some (TarInputStream_new (m_entry m)), st)
      | None =>
          (None,
           raise "TAR-ERROR" ("entry '" +:+ c_str name +:+ "' not found")
             (set_reader (reader_of []) st))
      end.

(** A call [f] of the write adapter [s] made on the write coder of the
    session: the coder of the session takes the calls, the bytes it pushes go
    where the session sends them, and the exceptions go to the sink of the
    session. *)
Definition on_adapter (f : out_state -> out_state) (s : TarOutputStream)
    (st : State) : TarOutputStream * State :=
  match write_archive (self st) with
  | Some wa =>
      let out :=
        f {| o_stream := s; o_coder := wa; o_pushed := [];
             o_xsink := xsink st |} in
      let st1 :=
        deliver (o_pushed out)
          (on_self (with_write_archive (Some (o_coder out))) st) in
      (o_stream out,
       {| self := self st1; world := world st1; xsink := o_xsink out |})
  | None => (s, st)
  end.

(** [openOutputStream(name, opts, xsink)].  With an exception pending after
    the adapter is made the adapter is deleted, and its destructor closes
    it. *)
Definition openOutputStream (name : string) (opts : option AddOptions)
    (st : State) : option TarOutputStream * State :=
  let (ok, st) := checkOpen true st in
  if negb ok then (None, st)
  else
    let o := parseAddOptions opts add_defaults in
    if bool_decide (is_Some opts) && pending (xsink st) then (None, st)
    else
      let os := TarOutputStream_new name (mode_val o) in
      if pending (xsink st)
      then (None, snd (on_adapter (TarOutputStream_destroy E) os st))
      else (Some os, st).

End Session.

(** ** Helpers of [tar-module.cpp] *)

(** [detect_compression_from_filename(filename)] *)
Definition detect_compression_from_filename (filename : option string)
  : compression :=
  match filename with
  | None => TAR_CM_NONE
  | Some f =>
      let len := strlen f in
      if (len <? 4)%nat then TAR_CM_NONE
      else if (7 <=? len)%nat && strcmp_at f (len - 7) ".tar.gz"
      then TAR_CM_GZIP
      else if (4 <=? len)%nat && strcmp_at f (len - 4) ".tgz"
      then TAR_CM_GZIP
      else if (8 <=? len)%nat && strcmp_at f (len - 8) ".tar.bz2"
      then TAR_CM_BZIP2
      else if (5 <=? len)%nat && strcmp_at f (len - 5) ".tbz2"
      then TAR_CM_BZIP2
      else if (4 <=? len)%nat && strcmp_at f (len - 4) ".tbz"
      then TAR_CM_BZIP2
      else if (7 <=? len)%nat && strcmp_at f (len - 7) ".tar.xz"
      then TAR_CM_XZ
      else if (4 <=? len)%nat && strcmp_at f (len - 4) ".txz"
      then TAR_CM_XZ
      else if (8 <=? len)%nat && strcmp_at f (len - 8) ".tar.zst"
      then TAR_CM_ZSTD
      else if (9 <=? len)%nat && strcmp_at f (len - 9) ".tar.zstd"
      then TAR_CM_ZSTD
      else if (8 <=? len)%nat && strcmp_at f (len - 8) ".tar.lz4"
      then TAR_CM_LZ4
      else if (4 <=? len)%nat && strcmp_at f (len - 4) ".tar"
      then TAR_CM_NONE
      else TAR_CM_NONE
  end.

(** The compression method a file-backed session starts with: the argument
    of the constructor is negative ([None]) when none is given, and the
    method is then detected from the file name. *)
Definition file_session_compression (path : string)
    (compression_method : option compression) : compression :=
  match compression_method with
  | None => detect_compression_from_filename (Some path)
  | Some c => c
  end.

(** The constructor for a file-based archive, in read mode. *)
Definition QoreTarFile_open_file (E : Env) (path : string)
    (compression_method : option compression) (format : tar_format)
    (w : World) (xs : ExceptionSink) : State :=
  openRead E
    {| self :=
         {| filepath := c_str path; mode := TAR_MODE_READ;
            read_archive := None; write_archive := None;
            compression_method :=
              file_session_compression path compression_method;
            compression_level := -1; format := format; in_memory := false;
            closed := false; memory_buffer := []; memory_pos := 0;
            input_stream := false; output_stream := false |};
       world := w; xsink := xs |}.


(** The constructor for stream-based writing. *)
Definition QoreTarFile_to_stream (E : Env) (output : bool)
    (compression_method : option compression) (format : option tar_format)
    (w : World) (xs : ExceptionSink) : State :=
  openWrite E
    {| self :=
         {| filepath := ""; mode := TAR_MODE_WRITE; read_archive := None;
            write_archive := None;
            compression_method := default TAR_CM_NONE compression_method;
            compression_level := -1;
            format := default TAR_FORMAT_PAX format;
            in_memory := false; closed := false; memory_buffer := [];
            memory_pos := 0; input_stream := false; output_stream := output |};
       world := w; xsink := xs |}.

(** A name ends with a suffix. *)
Definition ends_with (f suffix : string) : Prop :=
  exists p, f = p +:+ suffix.

(** ** The rest of the session: append mode, destructors, callbacks *)

Definition with_mode (v : TarMode) (t : QoreTarFile) : QoreTarFile :=
  {| filepath := filepath t; mode := v; read_archive := read_archive t;
     write_archive := write_archive t;
     compression_method := compression_method t;
     compression_level := compression_level t; format := format t;
     in_memory := in_memory t; closed := closed t;
     memory_buffer := memory_buffer t; memory_pos := memory_pos t;
     input_stream := input_stream t; output_stream := output_stream t |}.

Section Append.

Context (E : Env).

(** The data loop of [copyEntries]: [false] when a call failed and the
    function returned. *)
Fixpoint copy_data_loop (fuel : nat) (a : read_handle) (st : State)
  : bool * State * read_handle :=
  let '(bytes_read, buf, a1) := archive_read_data a TAR_BUFFER_SIZE in
  if 0 <? bytes_read then
    let (written, st) := write_data_call E buf st in
    if written <? 0 then
      (false,
       raise "TAR-ERROR"
         ("failed to copy entry data: " +:+ get_archive_error E) st, a1)
    else
      match fuel with
      | O => (true, st, a1)
      | S fuel' => copy_data_loop fuel' a1 st
      end
  else if bytes_read <? 0 then
    (false,
     raise "TAR-ERROR"
       ("failed to read entry data: " +:+ get_archive_error E) st, a1)
  else (true, st, a1).

(** The header loop of [copyEntries]. *)
Fixpoint copy_entries_loop (ms : list member) (st : State)
  : State * read_handle :=
  match ms with
  | [] => (st, reader_of [])
  | m :: ms' =>
      let (r, st) := write_header_call E (m_entry m) st in
      if negb (r =? ARCHIVE_OK) then
        (raise "TAR-ERROR"
           ("failed to copy entry header: " +:+ get_archive_error E) st,
         reader_at m ms')
      else if 0 <? size (m_entry m) then
        let '(ok, st, a) :=
          copy_data_loop (S (length (m_data m))) (reader_at m ms') st in
        if ok then copy_entries_loop ms' st else (st, a)
      else copy_entries_loop ms' st
  end.

(** [copyEntries(xsink)] *)
Definition copyEntries (st : State) : State :=
  match read_archive (self st), write_archive (self st) with
  | Some a, Some _ =>
      let (st, a') := copy_entries_loop (rh_pending a) st in
      set_reader a' st
  | _, _ => st
  end.

(** [openAppend(xsink)]: [fread] delivers the first [st_size] bytes of the
    content of the file, or fewer when the file is shorter. *)
Definition openAppend (st : State) : State :=
  match env_stat E (filepath (self st)) with
  | None => openWrite E (on_self (with_mode TAR_MODE_WRITE) st)
  | Some sb =>
      match env_fopen_rb E (filepath (self st)) with
      | None =>
          raise "TAR-ERROR"
            ("failed to open archive for reading: " +:+ env_strerror E) st
      | Some content =>
          let existing_data := take (Z.to_nat (st_size sb)) content in
          if negb (Z.of_nat (length existing_data) =? st_size sb) then
            raise "TAR-ERROR" "failed to read existing archive" st
          else if negb (env_read_new E) then
            raise "TAR-ERROR" "failed to create archive reader"
              (on_self (with_read_archive None) st)
          else
            match env_read_open E (MemoryBacking existing_data) with
            | None =>
                raise "TAR-ERROR"
                  ("failed to open existing archive: "
                   +:+ get_archive_error E)
                  (on_self (with_read_archive None) st)
            | Some ms =>
                let st :=
                  on_self (with_read_archive (Some (reader_of ms))) st in
                let st := openWrite E st in
                if pending (xsink st)
                then on_self (with_read_archive None) st
                else
                  let st := copyEntries st in
                  on_self (with_read_archive None) st
            end
      end
  end.

(** The constructor for a file-based archive, in any mode; the compression
    argument is negative ([None]) when none is given. *)
Definition QoreTarFile_file (path : string) (mode : TarMode)
    (compression_method : option compression) (format : tar_format)
    (w : World) (xs : ExceptionSink) : State :=
  let st :=
    {| self :=
         {| filepath := c_str path; mode := mode; read_archive := None;
            write_archive := None;
            compression_method :=
              file_session_compression path compression_method;
            compression_level := -1; format := format; in_memory := false;
            closed := false; memory_buffer := []; memory_pos := 0;
            input_stream := false; output_stream := false |};
       world := w; xsink := xs |} in
  match mode with
  | TAR_MODE_READ => openRead E st
  | TAR_MODE_APPEND => openAppend st
  | TAR_MODE_WRITE => openWrite E st
  end.

(** [~QoreTarFile()]: the exception sink is a local one, what [close] might
    raise is not seen by anyone. *)
Definition QoreTarFile_destroy (st : State) : State :=
  if closed (self st) then st
  else
    let st' := close E {| self := self st; world := world st; xsink := [] |} in
    {| self := self st'; world := world st'; xsink := xsink st |}.

End Append.

(** [~TarInputStream()] *)
Definition TarInputStream_destroy (s : TarInputStream) : TarInputStream :=
  {| is_entry := is_entry s; entry_size := entry_size s;
     bytes_read := bytes_read s; is_closed := true;
     peek_byte := peek_byte s; has_peek := has_peek s |}.

(** [memory_read_callback]: the value returned, the bytes [*buffer] points
    to, and the session. *)
Definition memory_read_callback (t : QoreTarFile) : Z * bytes * QoreTarFile :=
  let size := Z.of_nat (length (memory_buffer t)) in
  if size <=? memory_pos t then (0, [], t)
  else
    let remaining := size - memory_pos t in
    let to_read := Z.min remaining TAR_BUFFER_SIZE in
    (to_read,
     take (Z.to_nat to_read) (drop (Z.to_nat (memory_pos t)) (memory_buffer t)),
     with_memory_pos (memory_pos t + to_read) t).

(** [memory_write_callback] *)
Definition memory_write_callback (b : bytes) (t : QoreTarFile)
  : Z * QoreTarFile :=
  (Z.of_nat (length b), with_memory_buffer (memory_buffer t ++ b) t).

(** [TarInputStream::getEntryInfo]; the entry pointer of a stream that
    [openInputStream] made is not null. *)
Definition getEntryInfo (s : TarInputStream) : gmap string QoreValue :=
  let entry := is_entry s in
  let info : gmap string QoreValue := ∅ in
  let info := <["name" := QString (c_str (pathname entry))]> info in
  let info := <["size" := QInt (entry_size s)]> info in
  let info := set_key "modified" QDate (mtime entry) info in
  let info := <["mode" := QInt (archive_entry_mode entry)]> info in
  let filetype := filetype entry in
  let type_str :=
    if filetype =? AE_IFREG then "file"
    else if filetype =? AE_IFDIR then "directory"
    else if filetype =? AE_IFLNK then "symlink"
    else "unknown" in
  let info := <["type" := QString type_str]> info in
  let info := <["is_directory" := QBool (filetype =? AE_IFDIR)]> info in
  <["is_symlink" := QBool (filetype =? AE_IFLNK)]> info.

(** ** Notions the properties are stated with *)

(** A sequence of [write(ptr, count)] calls. *)
Definition write_calls (ws : list (bytes * Z)) (st : out_state) : out_state :=
  foldl (fun st w => TarOutputStream_write (fst w) (snd w) st) st ws.

(** The bytes the calls copy. *)
Definition written_bytes (ws : list (bytes * Z)) : bytes :=
  concat ((fun w => if snd w <=? 0 then [] else take (Z.to_nat (snd w)) (fst w))
            <$> ws).

(** The sum of the counts of the calls that copy something. *)
Definition written_count (ws : list (bytes * Z)) : Z :=
  foldr (fun w n => Z.max 0 (snd w) + n) 0 ws.

(** The header [close] builds for a stream that buffered [payload]. *)
Definition stream_header (E : Env) (name : string) (mode : Z) (payload : bytes)
  : archive_entry :=
  set_mtime (env_time E)
    (set_perm mode
       (set_filetype AE_IFREG
          (set_size (Z.of_nat (length payload))
             (set_pathname (c_str name) archive_entry_new)))).

(** The members a reader opened now on the backing of the session delivers:
    a memory buffer and a file are read from their start; of the input
    stream of a stream-backed session, what the reader that is released
    leaves. *)
Definition backing_members (E : Env) (st : State) : option (list member) :=
  if in_memory (self st) then
    match memory_buffer (self st) with
    | [] => Some []
    | _ :: _ => env_read_open E (MemoryBacking (memory_buffer (self st)))
    end
  else if input_stream (self st) then
    env_read_open E (InputStreamBacking (w_in (world (release_reader E st))))
  else env_read_open E (FileBacking (filepath (self st))).

(** A member bears the name asked for, or another one, as
    [entryNameEquals] tells. *)
Definition same_name (E : Env) (name : string) (m : member) : Prop :=
  entryNameEquals E (pathname (m_entry m)) name = true.

Definition other_name (E : Env) (name : string) (m : member) : Prop :=
  entryNameEquals E (pathname (m_entry m)) name = false.

(** The checks [extractAll] makes on one entry: the path, and the hardlink
    and symlink targets that are present and not empty. *)
Definition passes_gate (e : archive_entry) : bool :=
  isPathSafe (Some (pathname e))
  && (negb (c_nonempty (hardlink e)) || isPathSafe (hardlink e))
  && (negb (c_nonempty (symlink e)) || isPathSafe (symlink e)).

(** The header [extractAll] hands to the disk writer for an entry: the path,
    and the hardlink target if there is one, rooted under the destination. *)
Definition rooted (dest : string) (e : archive_entry) : archive_entry :=
  let e1 := set_pathname (dest +:+ "/" +:+ c_str (pathname e)) e in
  if c_nonempty (hardlink e)
  then set_hardlink (dest +:+ "/" +:+ c_str (default "" (hardlink e))) e1
  else e1.

(** The entries of the header calls made on the disk writer. *)
Definition disk_headers (evs : list disk_event) : list archive_entry :=
  omap (fun ev => match ev with DHeader e => Some e | _ => None end) evs.

(** [st'] is [st] with more calls on the disk writer and more exceptions. *)
Definition grows (st st' : State) (evs : list disk_event)
    (xs : ExceptionSink) : Prop :=
  self st' = self st
  /\ w_out (world st') = w_out (world st)
  /\ w_files (world st') = w_files (world st)
  /\ w_in (world st') = w_in (world st)
  /\ w_disk (world st') = w_disk (world st) ++ evs
  /\ xsink st' = xsink st ++ xs.

(** The state in which the loop goes on after an entry was written. *)
Definition after_entry (E : Env) (dest : string) (m : member)
    (ms : list member) (st : State) : State :=
  let st1 := disk_call (DHeader (rooted dest (m_entry m))) st in
  disk_call DFinishEntry
    (if 0 <? size (m_entry m)
     then fst (copy_blocks E (S (length (m_blocks m)))
                 (c_str (pathname (m_entry m))) (reader_at m ms) st1)
     else st1).

(** The payload bytes of the data calls of a trace. *)
Definition data_of (tr : list write_event) : bytes :=
  concat ((fun ev => match ev with WData b => b | WHeader _ => [] end) <$> tr).

(** A trace holds data calls only. *)
Definition only_data (tr : list write_event) : Prop :=
  Forall (fun ev => match ev with WData _ => True | WHeader _ => False end) tr.

(** The entries a trace of write calls amounts to: each header with the
    payload of the data calls that follow it. *)
Definition trace_step (ev : write_event)
    (acc : bytes * list (archive_entry * bytes))
  : bytes * list (archive_entry * bytes) :=
  match ev with
  | WData b => (b ++ fst acc, snd acc)
  | WHeader e => ([], (e, fst acc) :: snd acc)
  end.

Definition trace_members (tr : list write_event)
  : list (archive_entry * bytes) :=
  snd (foldr trace_step ([], []) tr).

(** What a member of an archive leaves in a copy: its header, and its
    payload when the declared size is positive. *)
Definition copied (m : member) : archive_entry * bytes :=
  (m_entry m, if 0 <? size (m_entry m) then m_data m else []).

(** The bytes a read adapter has still to hand out: the lookahead slot, then
    what the coder holds of the entry. *)
Definition stream_ahead (s : TarInputStream) (a : read_handle) : bytes :=
  (if has_peek s then [Z_to_byte (peek_byte s)] else []) ++ rh_data a.

(** [memory_read_callback] called until it returns 0, as a reader does. *)
Fixpoint memory_drain (fuel : nat) (t : QoreTarFile) : bytes * QoreTarFile :=
  match fuel with
  | O => ([], t)
  | S fuel' =>
      let '(r, b, t1) := memory_read_callback t in
      if r =? 0 then ([], t1)
      else let (rest, t2) := memory_drain fuel' t1 in (b ++ rest, t2)
  end.

(** An environment whose answers to [archive_write_set_options] are
    replaced. *)
Definition with_set_options (f : string -> Z -> Z) (E : Env) : Env :=
  {| env_read_new := env_read_new E; env_read_open := env_read_open E;
     env_error_string := env_error_string E;
     env_entry_new := env_entry_new E; env_time := env_time E;
     env_write_new := env_write_new E; env_set_format := env_set_format E;
     env_add_filter := env_add_filter E; env_set_options := f;
     env_write_open := env_write_open E;
     env_write_header := env_write_header E;
     env_write_data := env_write_data E; env_pushed := env_pushed E;
     env_disk_new := env_disk_new E; env_disk_header := env_disk_header E;
     env_disk_block := env_disk_block E; env_stat := env_stat E;
     env_fopen_rb := env_fopen_rb E; env_fopen_wb := env_fopen_wb E;
     env_fwrite := env_fwrite E; env_strerror := env_strerror E;
     env_nfd := env_nfd E; env_pulled := env_pulled E |}.

(** Add options that give permission bits and nothing else. *)
Definition mode_only (m : option Z) : AddOptions :=
  {| ao_mode := m; ao_uid := None; ao_gid := None; ao_uname := None;
     ao_gname := None; ao_modified := None |}.

(** Every query gives on [st'] what it gives on [st]. *)
Definition same_answers (E : Env) (st st' : State) : Prop :=
  entries E st' = entries E st
  /\ count E st' = count E st
  /\ (forall name, hasEntry E name st' = hasEntry E name st)
  /\ (forall name, getEntry E name st' = getEntry E name st)
  /\ (forall name, read E name st' = read E name st)
  /\ (forall name, openInputStream E name st' = openInputStream E name st)
  /\ (forall name dest, extractTo E name dest st' = extractTo E name dest st)
  /\ (forall dest opts, extractAll E dest opts st' = extractAll E dest opts st).

(** The block calls that forward blocks as the reader delivers them. *)
Definition block_calls (bs : list (bytes * Z)) : list disk_event :=
  (fun b => DBlock b.1 b.2) <$> bs.

(** The blocks [extractAll] asks the reader for: none when the declared size
    of the entry is not positive. *)
Definition blocks_of (m : member) : list (bytes * Z) :=
  if 0 <? size (m_entry m) then m_blocks m else [].

(** The calls [extractAll] makes on the disk writer for an entry whose
    header and blocks are accepted: the header, every block of the entry
    with its offset, and the end of the entry. *)
Definition entry_calls (dest : string) (m : member) : list disk_event :=
  DHeader (rooted dest (m_entry m))
  :: block_calls (blocks_of m) ++ [DFinishEntry].

(** The calls on the disk writer for an entry whose header the writer
    accepted: the header, the first blocks of the entry (all of them unless
    the writer refused one, which is then the last) and the end of the
    entry. *)
Definition entry_done (dest : string) (m : member) (evs : list disk_event)
  : Prop :=
  exists k,
    evs = DHeader (rooted dest (m_entry m))
          :: block_calls (take k (blocks_of m)) ++ [DFinishEntry].

(** The calls on the disk writer for an entry that [extractAll] came to
    extract: the header alone when the writer refused it. *)
Definition entry_trace (dest : string) (m : member) (evs : list disk_event)
  : Prop :=
  evs = [DHeader (rooted dest (m_entry m))] \/ entry_done dest m evs.


(** An environment in which every archive opened for reading decodes to
    [ms]. *)
Definition with_archive (ms : list member) (E : Env) : Env :=
  {| env_read_new := env_read_new E; env_read_open := fun _ => Some ms;
     env_error_string := env_error_string E;
     env_entry_new := env_entry_new E; env_time := env_time E;
     env_write_new := env_write_new E; env_set_format := env_set_format E;
     env_add_filter := env_add_filter E;
     env_set_options := env_set_options E;
     env_write_open := env_write_open E;
     env_write_header := env_write_header E;
     env_write_data := env_write_data E; env_pushed := env_pushed E;
     env_disk_new := env_disk_new E; env_disk_header := env_disk_header E;
     env_disk_block := env_disk_block E; env_stat := env_stat E;
     env_fopen_rb := env_fopen_rb E; env_fopen_wb := env_fopen_wb E;
     env_fwrite := env_fwrite E; env_strerror := env_strerror E;
     env_nfd := env_nfd E; env_pulled := env_pulled E |}.

(** [st'] is [st] after the calls [evs] on its write coder, none of which
    raised. *)
Definition appends (st st' : State) (evs : list write_event) : Prop :=
  exists wa,
    write_archive (self st) = Some wa
    /\ write_archive (self st') = Some (wa ++ evs)
    /\ xsink st' = xsink st
    /\ read_archive (self st') = read_archive (self st)
    /\ closed (self st') = closed (self st)
    /\ mode (self st') = mode (self st).

(** A trace that does not start with data calls. *)
Definition headed (tr : list write_event) : Prop :=
  fst (foldr trace_step ([], []) tr) = [].

(** An environment in which every path names a file with the status [sb]
    and the content [content]. *)
Definition with_file (sb : stat_t) (content : bytes) (E : Env) : Env :=
  {| env_read_new := env_read_new E; env_read_open := env_read_open E;
     env_error_string := env_error_string E;
     env_entry_new := env_entry_new E; env_time := env_time E;
     env_write_new := env_write_new E; env_set_format := env_set_format E;
     env_add_filter := env_add_filter E;
     env_set_options := env_set_options E;
     env_write_open := env_write_open E;
     env_write_header := env_write_header E;
     env_write_data := env_write_data E; env_pushed := env_pushed E;
     env_disk_new := env_disk_new E; env_disk_header := env_disk_header E;
     env_disk_block := env_disk_block E; env_stat := fun _ => Some sb;
     env_fopen_rb := fun _ => Some content; env_fopen_wb := env_fopen_wb E;
     env_fwrite := env_fwrite E; env_strerror := env_strerror E;
     env_nfd := env_nfd E; env_pulled := env_pulled E |}.

(** The record of a list of entry records that bears a name. *)
Definition named (E : Env) (name : string) (info : gmap string QoreValue)
  : bool :=
  match info !! "name" with
  | Some (QString n) => entryNameEquals E n name
  | _ => false
  end.

(** An entry for which [extractAll] has a block to write. *)
Definition has_payload (m : member) : bool :=
  (0 <? size (m_entry m))
  && match m_blocks m with [] => false | _ :: _ => true end.

(** ** A sample archive

    An archive of three members, the second of which has a path that leaves
    the extraction root, and an environment in which every backing decodes
    to that archive and every call of the libraries succeeds. *)

Definition hello : bytes :=
  [Byte.x68; Byte.x65; Byte.x6c; Byte.x6c; Byte.x6f].

(** The bytes of the serialized archive.  What they are is the business of
    the codec: [sample_env] decodes them to [sample_members]. *)
Definition sample_archive : bytes :=
  [Byte.x61; Byte.x2e; Byte.x74; Byte.x78; Byte.x74; Byte.x00].

Definition regular_file (name : string) (data : bytes) : member :=
  {| m_entry :=
       set_perm 420
         (set_filetype AE_IFREG
            (set_size (Z.of_nat (length data))
               (set_pathname name archive_entry_new)));
     m_data := data;
     m_blocks := match data with [] => [] | _ :: _ => [(data, 0)] end;
     m_damaged := false |}.

(** The same member, delivered by the reader in the given blocks. *)
Definition in_blocks (bs : list (bytes * Z)) (m : member) : member :=
  {| m_entry := m_entry m; m_data := m_data m; m_blocks := bs;
     m_damaged := m_damaged m |}.

Definition sample_members : list member :=
  [regular_file "a.txt" hello; regular_file "../evil" [Byte.x21];
   regular_file "b.txt" hello].

Definition sample_env : Env :=
  {| env_read_new := true;
     env_read_open := fun _ => Some sample_members;
     env_error_string := None;
     env_entry_new := true;
     env_time := 0;
     env_write_new := true;
     env_set_format := fun _ => ARCHIVE_OK;
     env_add_filter := fun _ => ARCHIVE_OK;
     env_set_options := fun _ _ => ARCHIVE_OK;
     env_write_open := fun _ => ARCHIVE_OK;
     env_write_header := fun _ _ => ARCHIVE_OK;
     env_write_data := fun _ b => Z.of_nat (length b);
     env_pushed :=
       fun _ call =>
         match call with
         | Some (WHeader _) => [Byte.x01]
         | Some (WData b) => b
         | None => [Byte.x00; Byte.x00]
         end;
     env_disk_new := true;
     env_disk_header := fun _ _ => ARCHIVE_OK;
     env_disk_block := fun _ _ _ => ARCHIVE_OK;
     env_stat := fun _ => None;
     env_fopen_rb := fun _ => None;
     env_fopen_wb := fun _ => true;
     env_fwrite := fun _ _ => true;
     env_strerror := "";
     env_nfd := None;
     env_pulled := fun content _ => length content |}.

Definition empty_world : World :=
  {| w_out := []; w_disk := []; w_files := ∅; w_in := [] |}.

(** The session [new TarFile(data)] over some bytes, and the same session
    after [close()]. *)
Definition read_sample : State :=
  QoreTarFile_from_data sample_env (Some sample_archive) empty_world [].

Definition closed_sample : State := close sample_env read_sample.



(** The session [new TarFile()] with the entry ["a.txt"] added. *)
Definition write_sample : State :=
  add sample_env "a.txt" (Some hello) None
    (QoreTarFile_new_memory sample_env None None empty_world []).

(** * Properties *)

(** ** C strings *)

Lemma c_str_nul_free s : nul_free s = true -> c_str s = s.
Proof.
  induction s as [|c r IH]; simpl; [done|].
  intros [Hc Hr]%andb_true_iff.
  apply negb_true_iff in Hc. rewrite Hc. by rewrite IH.
Qed.

Lemma nul_free_app s t :
  nul_free (s +:+ t) = nul_free s && nul_free t.
Proof.
  induction s as [|c r IH]; simpl; [done|].
  by rewrite IH, andb_assoc.
Qed.

Lemma string_length_app s t :
  String.length (s +:+ t) = (String.length s + String.length t)%nat.
Proof. induction s; simpl; [done|]. by f_equal. Qed.

Lemma substring_all s : String.substring 0 (String.length s) s = s.
Proof. induction s; simpl; [done|]. by f_equal. Qed.

Lemma substring_app_r s t :
  String.substring (String.length s) (String.length t) (s +:+ t) = t.
Proof. induction s; simpl; [apply substring_all|done]. Qed.

(** ** Path safety gate *)

Lemma is_drive_letter_spec c : ascii_letter c -> is_drive_letter c = true.
Proof.
  unfold ascii_letter, is_drive_letter. intros [[H1 H2]|[H1 H2]].
  - apply orb_true_iff. left. apply andb_true_iff.
    split; by apply Nat.leb_le.
  - apply orb_true_iff. right. apply andb_true_iff.
    split; by apply Nat.leb_le.
Qed.

Lemma ascii_letter_not_nul c : ascii_letter c -> Ascii.eqb c NUL = false.
Proof.
  intros H. apply Ascii.eqb_neq. intros ->.
  unfold ascii_letter in H. vm_compute in H. lia.
Qed.

Lemma ascii_letter_not_slash c : ascii_letter c -> Ascii.eqb c "/" = false.
Proof.
  intros H. apply Ascii.eqb_neq. intros ->.
  unfold ascii_letter in H. vm_compute in H. lia.
Qed.

Lemma char_at_starts_component post :
  starts_component post ->
  Ascii.eqb (char_at post 0) NUL || is_sep (char_at post 0) = true.
Proof.
  intros [->|(c & q & -> & Hc)]; [done|].
  unfold char_at. simpl. rewrite Hc. apply orb_true_r.
Qed.

(** The scan finds a [..] component wherever it stands. *)
Lemma has_traversal_component pre post prev :
  nul_free pre = true ->
  match pre with
  | EmptyString => match prev with None => True | Some q => is_sep q = true end
  | String _ _ => exists p c, pre = p +:+ String c "" /\ is_sep c = true
  end ->
  starts_component post ->
  has_traversal prev (pre +:+ ".." +:+ post) = true.
Proof.
  intros Hnul Hpre Hpost. revert prev Hnul Hpre.
  induction pre as [|c r IH]; intros prev Hnul Hpre.
  - change ("" +:+ ".." +:+ post) with (String "." (String "." post)).
    cbn [has_traversal].
    change (char_at (String "." post) 0) with "."%char.
    change (char_at (String "." post) 1) with (char_at post 0).
    rewrite (char_at_starts_component _ Hpost).
    destruct prev as [q|]; [by rewrite Hpre|done].
  - simpl in Hnul. apply andb_true_iff in Hnul as [Hc Hr].
    apply negb_true_iff in Hc.
    change ((String c r) +:+ ".." +:+ post)
      with (String c (r +:+ ".." +:+ post)).
    cbn [has_traversal]. rewrite Hc.
    match goal with |- (if ?b then _ else _) = _ => destruct b end; [done|].
    apply IH; [done|].
    destruct Hpre as (p & d & Hp & Hd).
    destruct r as [|c' r'].
    + destruct p as [|pc pr]; simpl in Hp.
      * by injection Hp as -> .
      * injection Hp as _ Hp. by destruct pr.
    + destruct p as [|pc pr]; simpl in Hp; [done|].
      injection Hp as _ Hp. by exists pr, d.
Qed.

(** C1.  [isPathSafe] rejects every path that begins with [/], every path
    whose first character is an ASCII letter followed by [:], and every path
    that holds a [..] component bounded by separators or by the ends of the
    string, wherever the component stands; it accepts the empty path.  The six
    sample paths of the design document evaluate as stated there. *)
Theorem isPathSafe_gate :
  (forall s, isPathSafe (Some (String "/" s)) = false) /\
  (forall c s, ascii_letter c ->
     isPathSafe (Some (String c (String ":" s))) = false) /\
  (forall pre post,
     nul_free pre = true -> ends_component pre -> starts_component post ->
     isPathSafe (Some (pre +:+ ".." +:+ post)) = false) /\
  isPathSafe (Some "") = true /\
  isPathSafe (Some "/etc/passwd") = false /\
  isPathSafe (Some "../../x") = false /\
  isPathSafe (Some "a/../../b") = false /\
  isPathSafe (Some "a/b/c") = true /\
  isPathSafe (Some "C:\x") = false.
Proof.
  split; [done|]. split.
  { intros c s Hc. unfold isPathSafe.
    change (char_at (String c (String ":" s)) 0) with c.
    change (char_at (String c (String ":" s)) 1) with ":"%char.
    by rewrite (ascii_letter_not_nul c Hc), (ascii_letter_not_slash c Hc),
      (is_drive_letter_spec c Hc). }
  split; [|by repeat split].
  intros pre post Hnul Hpre Hpost. unfold isPathSafe.
  assert (Hscan : has_traversal None (pre +:+ ".." +:+ post) = true).
  { apply has_traversal_component; [done| |done].
    destruct pre; [done|]. by destruct Hpre as [|Hpre]. }
  rewrite Hscan.
  assert (Hfirst : Ascii.eqb (char_at (pre +:+ ".." +:+ post) 0) NUL = false).
  { destruct pre as [|c r]; [done|].
    simpl in Hnul. apply andb_true_iff in Hnul as [Hc _].
    by apply negb_true_iff in Hc. }
  rewrite Hfirst.
  by repeat match goal with |- (if ?b then _ else _) = _ => destruct b end.
Qed.

Lemma isPathSafe_gate_witness :
  nul_free "a/" = true /\ ends_component "a/" /\ starts_component "/../b"
  /\ isPathSafe (Some ("a/" +:+ ".." +:+ "/../b")) = false.
Proof.
  assert (H1 : nul_free "a/" = true) by reflexivity.
  assert (H2 : ends_component "a/").
  { right. exists "a", "/"%char. split; reflexivity. }
  assert (H3 : starts_component "/../b").
  { right. exists "/"%char, "../b". split; reflexivity. }
  split; [exact H1|]. split; [exact H2|]. split; [exact H3|].
  exact (proj1 (proj2 (proj2 isPathSafe_gate)) "a/" "/../b" H1 H2 H3).
Defined.

(** ** Compression detection *)

Lemma substring_split s n :
  (n <= String.length s)%nat ->
  s = String.substring 0 n s +:+ String.substring n (String.length s - n) s.
Proof.
  revert n. induction s as [|c r IH]; intros [|n] Hn; simpl in *; try lia.
  - done.
  - by rewrite substring_all.
  - change (String c r = String c (String.substring 0 n r
        +:+ String.substring n (String.length r - n) r)).
    f_equal. apply IH. lia.
Qed.

(** A length test and a [strcmp] on the tail, as [detect_compression_from_filename]
    writes them, say that the name ends with the suffix. *)
Lemma check_ends_with f t k :
  nul_free f = true -> k = String.length t ->
  (k <=? strlen f)%nat && strcmp_at f (strlen f - k) t = true
  <-> ends_with f t.
Proof.
  intros Hf ->. unfold strcmp_at, strlen. rewrite (c_str_nul_free f Hf).
  rewrite andb_true_iff, Nat.leb_le, String.eqb_eq. split.
  - intros [Hle Heq].
    exists (String.substring 0 (String.length f - String.length t) f).
    pose proof (substring_split f (String.length f - String.length t)) as Hs.
    rewrite Heq in Hs. apply Hs. lia.
  - intros [p ->]. rewrite string_length_app. split; [lia|].
    replace (String.length p + String.length t - String.length t)%nat
      with (String.length p) by lia.
    replace (String.length p + String.length t - String.length p)%nat
      with (String.length t) by lia.
    apply substring_app_r.
Qed.

Lemma list_ascii_of_string_app s t :
  String.list_ascii_of_string (s +:+ t)
  = String.list_ascii_of_string s ++ String.list_ascii_of_string t.
Proof. induction s; simpl; [done|]. by f_equal. Qed.

(** Two literal suffixes of one name that differ near the end. *)
Ltac suffix_clash H :=
  apply (f_equal String.list_ascii_of_string) in H;
  rewrite !list_ascii_of_string_app in H;
  apply (f_equal (@List.rev ascii)) in H;
  rewrite !List.rev_app_distr in H; simpl in H; discriminate H.

Ltac skip_check Hf :=
  match goal with
  | |- (if (?k <=? _)%nat && strcmp_at ?f _ ?t then _ else _) = _ =>
      let Hb := fresh "Hb" in
      destruct ((k <=? strlen f)%nat && strcmp_at f (strlen f - k) t) eqn:Hb;
      [ apply (proj1 (check_ends_with f t k Hf eq_refl)) in Hb;
        let q := fresh "q" in destruct Hb as [q Hb]; suffix_clash Hb
      | ]
  end.

Ltac take_check Hf :=
  match goal with
  | |- (if (?k <=? _)%nat && strcmp_at ?f _ ?t then _ else _) = _ =>
      rewrite (proj2 (check_ends_with f t k Hf eq_refl));
      [ reflexivity | eexists; reflexivity ]
  end.

Lemma detect_suffix p suffix :
  nul_free p = true -> nul_free suffix = true ->
  (4 <= String.length suffix)%nat ->
  nul_free (p +:+ suffix) = true
  /\ (strlen (p +:+ suffix) <? 4)%nat = false.
Proof.
  intros Hp Hs Hlen.
  assert (Hf : nul_free (p +:+ suffix) = true).
  { by rewrite nul_free_app, Hp, Hs. }
  split; [done|].
  unfold strlen. rewrite (c_str_nul_free _ Hf), string_length_app.
  apply Nat.ltb_ge. lia.
Qed.

Ltac detect_start Hp :=
  match goal with
  | |- detect_compression_from_filename (Some (?p +:+ ?suffix)) = _ =>
      let Hf := fresh "Hf" in
      let Hl := fresh "Hl" in
      destruct (detect_suffix p suffix Hp eq_refl) as [Hf Hl];
      [ simpl; lia | ];
      unfold detect_compression_from_filename; cbv zeta; rewrite Hl;
      repeat skip_check Hf; try take_check Hf
  end.

(** C9.  The compression method detected from a file name depends on how the
    name ends: [.tar.gz] and [.tgz] give gzip, [.tar.bz2], [.tbz2] and [.tbz]
    give bzip2, [.tar.xz] and [.txz] give xz, [.tar.zst] and [.tar.zstd] give
    zstd, [.tar.lz4] gives lz4; [.tar], any name that ends with none of the
    compressed suffixes and any name shorter than four characters give no
    compression.  A file-backed session given no method uses the detected
    one. *)
Theorem detect_compression_by_suffix :
  (forall p, nul_free p = true ->
     detect_compression_from_filename (Some (p +:+ ".tar.gz")) = TAR_CM_GZIP
     /\ detect_compression_from_filename (Some (p +:+ ".tgz")) = TAR_CM_GZIP
     /\ detect_compression_from_filename (Some (p +:+ ".tar.bz2")) = TAR_CM_BZIP2
     /\ detect_compression_from_filename (Some (p +:+ ".tbz2")) = TAR_CM_BZIP2
     /\ detect_compression_from_filename (Some (p +:+ ".tbz")) = TAR_CM_BZIP2
     /\ detect_compression_from_filename (Some (p +:+ ".tar.xz")) = TAR_CM_XZ
     /\ detect_compression_from_filename (Some (p +:+ ".txz")) = TAR_CM_XZ
     /\ detect_compression_from_filename (Some (p +:+ ".tar.zst")) = TAR_CM_ZSTD
     /\ detect_compression_from_filename (Some (p +:+ ".tar.zstd")) = TAR_CM_ZSTD
     /\ detect_compression_from_filename (Some (p +:+ ".tar.lz4")) = TAR_CM_LZ4
     /\ detect_compression_from_filename (Some (p +:+ ".tar")) = TAR_CM_NONE)
  /\ (forall f, nul_free f = true ->
        (forall suffix,
           suffix ∈ [".tar.gz"; ".tgz"; ".tar.bz2"; ".tbz2"; ".tbz"; ".tar.xz";
                     ".txz"; ".tar.zst"; ".tar.zstd"; ".tar.lz4"] ->
           ~ ends_with f suffix) ->
        detect_compression_from_filename (Some f) = TAR_CM_NONE)
  /\ (forall f, (strlen f < 4)%nat ->
        detect_compression_from_filename (Some f) = TAR_CM_NONE)
  /\ (forall path, file_session_compression path None
                   = detect_compression_from_filename (Some path)).
Proof.
  split; [|split; [|split]].
  - intros p Hp. repeat split; detect_start Hp.
  - intros f Hf Hno.
    unfold detect_compression_from_filename; cbv zeta.
    destruct (strlen f <? 4)%nat; [done|].
    repeat match goal with
    | |- (if (?k <=? _)%nat && strcmp_at ?f _ ?t then _ else _) = _ =>
        let Hb := fresh "Hb" in
        destruct ((k <=? strlen f)%nat && strcmp_at f (strlen f - k) t) eqn:Hb;
        [ apply (proj1 (check_ends_with f t k Hf eq_refl)) in Hb;
          first [ exfalso; revert Hb; apply Hno; set_solver | reflexivity ]
        | ]
    end.
    reflexivity.
  - intros f Hlen. unfold detect_compression_from_filename; cbv zeta.
    by apply Nat.ltb_lt in Hlen as ->.
  - done.
Qed.

Lemma detect_compression_by_suffix_witness :
  nul_free "backup" = true
  /\ detect_compression_from_filename (Some ("backup" +:+ ".tbz2"))
     = TAR_CM_BZIP2.
Proof.
  split; [reflexivity|].
  exact (proj1 (proj2 (proj2 (proj2
    (proj1 detect_compression_by_suffix "backup" eq_refl))))).
Defined.

(** ** The metadata record *)

Lemma lookup_set_key_ne {A : Type} k k' (f : A -> QoreValue) o
    (h : gmap string QoreValue) :
  k <> k' -> set_key k f o h !! k' = h !! k'.
Proof. intros Hk. destruct o; simpl; [by rewrite lookup_insert_ne|done]. Qed.

Ltac lookup_info :=
  unfold createEntryInfo; cbv zeta;
  repeat match goal with
  | |- context [if ?b then <[_ := _]> _ else _] => destruct b
  end;
  repeat first
    [ rewrite lookup_insert_eq
    | rewrite lookup_insert_ne by done
    | rewrite lookup_set_key_ne by done ].

Lemma createEntryInfo_type e :
  createEntryInfo e !! "type"
  = Some (QString (if c_nonempty (hardlink e) then "hardlink"
                   else filetype_str (filetype e))).
Proof. by lookup_info. Qed.

Lemma createEntryInfo_is_hardlink e :
  createEntryInfo e !! "is_hardlink"
  = Some (QBool (bool_decide (is_Some (hardlink e)))).
Proof. by lookup_info. Qed.

Lemma c_empty_c_str s : Ascii.eqb (char_at s 0) NUL = true <-> c_str s = "".
Proof.
  destruct s as [|c r]; [done|]. unfold char_at. simpl.
  by destruct (Ascii.eqb c NUL).
Qed.

Lemma c_nonempty_true p :
  c_nonempty p = true <-> exists s, p = Some s /\ c_str s <> "".
Proof.
  destruct p as [s|]; simpl.
  - rewrite negb_true_iff, <- not_true_iff_false, c_empty_c_str.
    split; [by exists s|]. by intros (? & [= <-] & ?).
  - split; [done|]. by intros (? & ? & _).
Qed.

Lemma checkOpen_true forWrite st st' :
  checkOpen forWrite st = (true, st') -> st' = st /\ closed (self st) = false.
Proof.
  unfold checkOpen. destruct (closed (self st)); [done|].
  destruct forWrite.
  - destruct (write_archive (self st)); by intros [= <-].
  - destruct (read_archive (self st)); [by intros [= <-]|].
    destruct (negb (in_memory (self st))); by intros [= <-].
Qed.

Lemma checkOpen_closed forWrite st :
  closed (self st) = true ->
  checkOpen forWrite st = (false, raise "TAR-ERROR" "archive is closed" st).
Proof. intros H. unfold checkOpen. by rewrite H. Qed.

Lemma entries_loop_all ms xs acc :
  pending xs = false ->
  entries_loop ms xs acc
  = (Some (acc ++ ((fun m => createEntryInfo (m_entry m)) <$> ms)),
     reader_of []).
Proof.
  intros Hxs. revert acc. induction ms as [|m ms IH]; intros acc; simpl.
  - by rewrite app_nil_r.
  - rewrite Hxs, IH. by rewrite <- app_assoc.
Qed.

Lemma entries_infos E st infos st' :
  entries E st = (Some infos, st') ->
  infos = (fun m => createEntryInfo (m_entry m))
            <$> members_ahead (reopenRead E st).
Proof.
  unfold entries. destruct (checkOpen false st) as [[] st1] eqn:Hc; [|done].
  apply checkOpen_true in Hc as [-> _]. simpl.
  destruct (pending (xsink (reopenRead E st))) eqn:Hp; [done|].
  rewrite (entries_loop_all _ _ _ Hp). by intros [= <- _].
Qed.

Lemma entryNameEquals_bytes E a l :
  env_nfd E = None ->
  entryNameEquals E a l = String.eqb (c_str a) (c_str l).
Proof. intros H. unfold entryNameEquals. by rewrite H. Qed.


Lemma other_name_bytes E name m :
  env_nfd E = None ->
  other_name E name m <-> c_str (pathname (m_entry m)) <> c_str name.
Proof.
  intros H. unfold other_name. rewrite (entryNameEquals_bytes E _ _ H).
  apply String.eqb_neq.
Qed.

Lemma find_entry_Some E name ms m post :
  find_entry E name ms = Some (m, post) ->
  exists pre,
    ms = pre ++ m :: post
    /\ same_name E name m
    /\ Forall (other_name E name) pre.
Proof.
  revert m post. induction ms as [|m0 ms IH]; intros m post; simpl; [done|].
  destruct (entryNameEquals E (pathname (m_entry m0)) name) eqn:Heq.
  - intros [= <- <-]. by exists [].
  - intros (pre & -> & Hm & Hpre)%IH. exists (m0 :: pre).
    split; [done|]. split; [done|]. by constructor.
Qed.

Lemma find_entry_first E name pre m post :
  Forall (other_name E name) pre ->
  same_name E name m ->
  find_entry E name (pre ++ m :: post) = Some (m, post).
Proof.
  unfold same_name, other_name.
  intros Hpre Hm. induction Hpre as [|m0 pre Hne _ IH]; simpl.
  - by rewrite Hm.
  - by rewrite Hne.
Qed.

Lemma find_entry_none E name ms :
  Forall (other_name E name) ms ->
  find_entry E name ms = None.
Proof.
  unfold other_name.
  induction 1 as [|m0 ms Hne _ IH]; simpl; [done|]. by rewrite Hne.
Qed.

Lemma getEntry_info E name st info st' :
  getEntry E name st = (Some info, st') ->
  exists m, m ∈ members_ahead (reopenRead E st)
            /\ info = createEntryInfo (m_entry m).
Proof.
  unfold getEntry. destruct (checkOpen false st) as [[] st1] eqn:Hc; [|done].
  apply checkOpen_true in Hc as [-> _]. simpl.
  destruct (pending (xsink (reopenRead E st))); [done|].
  destruct (find_entry E name _) as [[m post]|] eqn:Hf; [|done].
  intros [= <- _]. exists m. split; [|done].
  apply find_entry_Some in Hf as (pre & -> & _). set_solver.
Qed.

(** C4.  In the metadata record of every entry that enumeration
    ([entries]) or lookup ([getEntry]) returns, [type] is ["hardlink"] when
    the hardlink target of the entry is present and not empty, whatever the
    file type flag; otherwise it is given by the file type flag alone: file,
    directory, symlink, chardev, blockdev, fifo, socket, or unknown. *)
Theorem type_gives_hardlink_precedence :
  (forall e h,
     hardlink e = Some h -> c_str h <> "" ->
     createEntryInfo e !! "type" = Some (QString "hardlink"))
  /\ (forall e,
        (forall h, hardlink e = Some h -> c_str h = "") ->
        createEntryInfo e !! "type"
        = Some (QString (filetype_str (filetype e))))
  /\ (filetype_str AE_IFREG = "file"
      /\ filetype_str AE_IFDIR = "directory"
      /\ filetype_str AE_IFLNK = "symlink"
      /\ filetype_str AE_IFCHR = "chardev"
      /\ filetype_str AE_IFBLK = "blockdev"
      /\ filetype_str AE_IFIFO = "fifo"
      /\ filetype_str AE_IFSOCK = "socket"
      /\ forall ft,
           ft ∉ [AE_IFREG; AE_IFDIR; AE_IFLNK; AE_IFCHR; AE_IFBLK; AE_IFIFO;
                 AE_IFSOCK] ->
           filetype_str ft = "unknown")
  /\ (forall E st infos st',
        entries E st = (Some infos, st') ->
        infos = (fun m => createEntryInfo (m_entry m))
                  <$> members_ahead (reopenRead E st))
  /\ (forall E name st info st',
        getEntry E name st = (Some info, st') ->
        exists m, m ∈ members_ahead (reopenRead E st)
                  /\ info = createEntryInfo (m_entry m)).
Proof.
  split; [|split; [|split; [|split]]].
  - intros e h Hh Hne. rewrite createEntryInfo_type.
    replace (c_nonempty (hardlink e)) with true; [done|].
    symmetry. apply c_nonempty_true. by exists h.
  - intros e Hh. rewrite createEntryInfo_type.
    destruct (c_nonempty (hardlink e)) eqn:Hc; [|done].
    apply c_nonempty_true in Hc as (h & Hs & Hne). by apply Hh in Hs.
  - repeat split; try reflexivity.
    intros ft Hft. unfold filetype_str.
    repeat match goal with
    | |- (if ?a =? ?b then _ else _) = _ =>
        destruct (Z.eqb_spec a b) as [->|_]; [exfalso; apply Hft; set_solver|]
    end.
    reflexivity.
  - apply entries_infos.
  - apply getEntry_info.
Qed.

(** C10.  The [is_hardlink] flag of the metadata record is true exactly when
    the hardlink target of the entry is present, be it empty; so for an entry
    with a present but empty hardlink target the flag is true while [type] is
    not ["hardlink"]. *)
Theorem is_hardlink_flag_follows_presence :
  (forall e,
     createEntryInfo e !! "is_hardlink"
     = Some (QBool (bool_decide (is_Some (hardlink e)))))
  /\ (forall e h, hardlink e = Some h ->
        createEntryInfo e !! "is_hardlink" = Some (QBool true))
  /\ (forall e, hardlink e = None ->
        createEntryInfo e !! "is_hardlink" = Some (QBool false))
  /\ (exists e,
        hardlink e = Some ""
        /\ createEntryInfo e !! "is_hardlink" = Some (QBool true)
        /\ createEntryInfo e !! "type" = Some (QString "file")).
Proof.
  split; [apply createEntryInfo_is_hardlink|]. split; [|split].
  - intros e h Hh. by rewrite createEntryInfo_is_hardlink, Hh.
  - intros e Hh. by rewrite createEntryInfo_is_hardlink, Hh.
  - exists (set_hardlink "" (set_filetype AE_IFREG archive_entry_new)).
    split; [done|].
    by rewrite createEntryInfo_is_hardlink, createEntryInfo_type.
Qed.

(** ** Read adapter *)

Lemma Z_to_byte_to_Z b : Z_to_byte (byte_to_Z b) = b.
Proof. by destruct b. Qed.

Lemma archive_read_data_some a b rest limit :
  rh_data a = b :: rest -> 0 < limit ->
  archive_read_data a limit
  = (Z.of_nat (length (take (Z.to_nat limit) (b :: rest))),
     take (Z.to_nat limit) (b :: rest),
     {| rh_pending := rh_pending a;
        rh_data := drop (Z.to_nat limit) (b :: rest);
        rh_offset :=
          rh_offset a + Z.of_nat (length (take (Z.to_nat limit) (b :: rest)));
        rh_damaged := rh_damaged a;
        rh_blocks := rh_blocks a |}).
Proof.
  intros Hd Hl. unfold archive_read_data. rewrite Hd.
  set (n := Z.to_nat (Z.min limit (Z.of_nat (length (b :: rest))))).
  assert (Htake : take n (b :: rest) = take (Z.to_nat limit) (b :: rest)).
  { destruct (Z.le_gt_cases limit (Z.of_nat (length (b :: rest)))).
    - subst n. by rewrite Z.min_l.
    - subst n. rewrite Z.min_r by lia. rewrite Nat2Z.id.
      rewrite !take_ge; [done| |done]. lia. }
  assert (Hdrop : drop n (b :: rest) = drop (Z.to_nat limit) (b :: rest)).
  { destruct (Z.le_gt_cases limit (Z.of_nat (length (b :: rest)))).
    - subst n. by rewrite Z.min_l.
    - subst n. rewrite Z.min_r by lia. rewrite Nat2Z.id.
      rewrite !drop_ge; [done| |done]. lia. }
  assert (Hn : Z.of_nat n
               = Z.of_nat (length (take (Z.to_nat limit) (b :: rest)))).
  { rewrite <- Htake, length_take. subst n. lia. }
  by rewrite Htake, Hdrop, Hn.
Qed.

Lemma archive_read_data_end a limit :
  rh_data a = [] -> rh_damaged a = false -> archive_read_data a limit = (0, [], a).
Proof. intros Hd Hg. unfold archive_read_data. by rewrite Hd, Hg. Qed.

(** What [peek] leaves behind on a stream with an empty lookahead slot when
    the coder has the byte [b] next. *)
Lemma peek_fills_slot E s a xs b rest :
  is_closed s = false -> has_peek s = false ->
  bytes_read s < entry_size s -> rh_data a = b :: rest ->
  TarInputStream_peek E s a xs
  = {| pr_return := byte_to_Z b;
       pr_stream := is_with (bytes_read s) (byte_to_Z b) true s;
       pr_coder :=
         {| rh_pending := rh_pending a; rh_data := rest;
            rh_offset := rh_offset a + 1; rh_damaged := rh_damaged a;
        rh_blocks := rh_blocks a |};
       pr_xsink := xs |}.
Proof.
  intros Hc Hp Hlt Hd. unfold TarInputStream_peek. rewrite Hc, Hp.
  destruct (Z.leb_spec (entry_size s) (bytes_read s)); [lia|].
  by rewrite (archive_read_data_some a b rest 1 Hd).
Qed.

(** C6.  On an open read adapter whose entry is not exhausted, [peek]
    returns the next byte of the coder and leaves the count of delivered
    bytes as it was; a second [peek] returns the same byte and pulls nothing
    from the coder; a [read] right after [peek] stores the peeked byte first
    in the buffer of the caller; and once the bytes delivered equal the
    declared size of the entry, [read] returns 0 and raises nothing. *)
Theorem lookahead_and_end_of_entry :
  (forall E s a xs b rest,
     is_closed s = false -> has_peek s = false ->
     bytes_read s < entry_size s -> rh_data a = b :: rest ->
     let p1 := TarInputStream_peek E s a xs in
     pr_return p1 = byte_to_Z b
     /\ bytes_read (pr_stream p1) = bytes_read s
     /\ pr_xsink p1 = xs
     /\ (let p2 :=
           TarInputStream_peek E (pr_stream p1) (pr_coder p1) (pr_xsink p1) in
         pr_return p2 = byte_to_Z b
         /\ pr_stream p2 = pr_stream p1
         /\ pr_coder p2 = pr_coder p1
         /\ pr_xsink p2 = xs)
     /\ (forall limit,
           0 < limit -> rh_damaged a = false ->
           let r :=
             TarInputStream_read E limit (pr_stream p1) (pr_coder p1)
               (pr_xsink p1) in
           rr_buffer r = b :: take (Z.to_nat (limit - 1)) rest
           /\ rr_return r = Z.of_nat (length (rr_buffer r))
           /\ bytes_read (rr_stream r) = bytes_read s + rr_return r
           /\ has_peek (rr_stream r) = false
           /\ rr_xsink r = xs))
  /\ (forall E limit s a xs,
        is_closed s = false -> bytes_read s = entry_size s ->
        let r := TarInputStream_read E limit s a xs in
        rr_return r = 0 /\ rr_buffer r = [] /\ rr_stream r = s
        /\ rr_coder r = a /\ rr_xsink r = xs).
Proof.
  split.
  - intros E s a xs b rest Hc Hp Hlt Hd p1. subst p1.
    rewrite (peek_fills_slot E s a xs b rest Hc Hp Hlt Hd). cbn [pr_return
      pr_stream pr_coder pr_xsink].
    split; [done|]. split; [done|]. split; [done|]. split.
    + unfold TarInputStream_peek. cbn. by rewrite Hc.
    + intros limit Hl Hg. unfold TarInputStream_read.
      cbn [is_closed is_with entry_size bytes_read has_peek peek_byte].
      rewrite Hc. destruct (Z.leb_spec (entry_size s) (bytes_read s)); [lia|].
      destruct (Z.ltb_spec 0 limit); [|lia]. cbn [andb].
      rewrite Z_to_byte_to_Z.
      destruct (Z.ltb_spec 0 (limit - 1)) as [Hl1|Hl1].
      * destruct rest as [|b' rest'].
        -- rewrite archive_read_data_end by done.
           cbn. rewrite take_nil. repeat split; try done; lia.
        -- erewrite archive_read_data_some by done.
           destruct (Z.ltb_spec
             (Z.of_nat (length (take (Z.to_nat (limit - 1)) (b' :: rest')))) 0);
             [lia|].
           cbn [rr_buffer rr_return rr_stream rr_xsink bytes_read is_with
                has_peek].
           repeat split; try done; cbn [app length]; lia.
      * replace (limit - 1) with 0 by lia. cbn. repeat split; try done; lia.
  - intros E limit s a xs Hc Heq r. subst r. unfold TarInputStream_read.
    rewrite Hc. by destruct (Z.leb_spec (entry_size s) (bytes_read s)); [|lia].
Qed.

(** ** Write adapter *)

Lemma write_calls_open ws st :
  os_closed (o_stream st) = false ->
  write_calls ws st
  = {| o_stream :=
         os_with (buffer (o_stream st) ++ written_bytes ws) false (o_stream st);
       o_coder := o_coder st; o_pushed := o_pushed st; o_xsink := o_xsink st |}.
Proof.
  revert st. induction ws as [|[ptr count] ws IH]; intros st Hc.
  - unfold written_bytes. simpl. rewrite app_nil_r.
    destruct st as [[] ? ? ?]. simpl in *. by subst.
  - change (write_calls ((ptr, count) :: ws) st)
      with (write_calls ws (TarOutputStream_write ptr count st)).
    assert (Hstep : TarOutputStream_write ptr count st
      = {| o_stream :=
             os_with (buffer (o_stream st)
                      ++ (if count <=? 0 then []
                          else take (Z.to_nat count) ptr))
               false (o_stream st);
           o_coder := o_coder st; o_pushed := o_pushed st;
           o_xsink := o_xsink st |}).
    { unfold TarOutputStream_write. cbv zeta. rewrite Hc.
      destruct (count <=? 0); [|done]. rewrite app_nil_r.
      destruct st as [[] ? ? ?]. simpl in *. by subst. }
    rewrite Hstep, IH by done. cbn [o_stream o_coder o_pushed o_xsink].
    unfold written_bytes. cbn [fmap list_fmap concat fst snd buffer os_with].
    by rewrite <- app_assoc.
Qed.

Lemma written_bytes_length ws :
  Forall (fun w => snd w <= Z.of_nat (length (fst w))) ws ->
  Z.of_nat (length (written_bytes ws)) = written_count ws.
Proof.
  induction 1 as [|[ptr count] ws Hw _ IH]; [done|].
  change (written_bytes ((ptr, count) :: ws))
    with ((if count <=? 0 then [] else take (Z.to_nat count) ptr)
          ++ written_bytes ws).
  change (written_count ((ptr, count) :: ws))
    with (Z.max 0 count + written_count ws).
  simpl in Hw.
  rewrite length_app, Nat2Z.inj_add, IH. f_equal.
  destruct (Z.leb_spec count 0); simpl; [lia|].
  rewrite length_take. lia.
Qed.

(** C5.  Whatever the sequence of [write] calls on a fresh write adapter,
    nothing reaches the write coder before [close]: no call is made on the
    coder, it pushes no byte, no exception is raised, and the bytes are
    appended to the buffer of the adapter.  The first [close] then makes one
    header call for a regular file whose size is the number of bytes
    written, and, the coder having accepted the header, one data call with the
    payload if there is any; a second [close] changes nothing. *)
Theorem write_adapter_defers_header :
  forall E name mode a pushed xs ws,
    let st0 :=
      {| o_stream := TarOutputStream_new name mode; o_coder := a;
         o_pushed := pushed; o_xsink := xs |} in
    let st1 := write_calls ws st0 in
    let st2 := TarOutputStream_close E st1 in
    let payload := written_bytes ws in
    let header := stream_header E name mode payload in
    (o_coder st1 = a /\ o_pushed st1 = pushed /\ o_xsink st1 = xs
     /\ buffer (o_stream st1) = payload
     /\ os_closed (o_stream st1) = false)
    /\ (env_entry_new E = true ->
        filetype header = AE_IFREG
        /\ pathname header = c_str name
        /\ size header = Z.of_nat (length payload)
        /\ (Forall (fun w => snd w <= Z.of_nat (length (fst w))) ws ->
            size header = written_count ws)
        /\ (exists tail, o_coder st2 = a ++ WHeader header :: tail
                         /\ (tail = [] \/ tail = [WData payload]))
        /\ (env_write_header E a header = ARCHIVE_OK ->
            o_coder st2
            = a ++ WHeader header
                :: match payload with [] => [] | _ :: _ => [WData payload] end))
    /\ TarOutputStream_close E st2 = st2.
Proof.
  intros E name mode a pushed xs ws st0 st1 st2 payload header.
  assert (H1 : st1
    = {| o_stream := os_with payload false (TarOutputStream_new name mode);
         o_coder := a; o_pushed := pushed; o_xsink := xs |}).
  { subst st1. by rewrite write_calls_open. }
  split; [by rewrite H1|].
  assert (Hclosed : os_closed (o_stream st2) = true).
  { subst st2. rewrite H1. unfold TarOutputStream_close.
    cbn [o_stream os_closed os_with]. cbv zeta.
    cbn [o_stream os_closed os_with buffer].
    destruct (negb (env_entry_new E)); [done|].
    unfold archive_write_header.
    destruct (negb (_ =? ARCHIVE_OK)); [done|].
    by destruct payload. }
  split; [|unfold TarOutputStream_close at 1; by rewrite Hclosed].
  intros Hnew. split; [done|]. split; [done|]. split; [done|].
  split; [intros Hw; by rewrite <- written_bytes_length|].
  subst st2. rewrite H1. unfold TarOutputStream_close.
  cbn [o_stream os_closed os_with buffer o_coder entry_name os_mode
       TarOutputStream_new].
  rewrite Hnew. cbn [negb]. unfold archive_write_header, archive_write_data.
  fold header.
  change (set_mtime (env_time E)
            (set_perm mode
               (set_filetype AE_IFREG
                  (set_size (Z.of_nat (length payload))
                     (set_pathname (c_str name) archive_entry_new)))))
    with header.
  destruct (env_write_header E a header =? ARCHIVE_OK) eqn:Hr; cbn [negb].
  - split.
    + destruct payload; cbn [o_coder].
      * exists []. split; [done|]. by left.
      * eexists. split; [by rewrite <- app_assoc|]. by right.
    + intros _. destruct payload; cbn [o_coder]; [done|].
      by rewrite <- app_assoc.
  - split.
    + exists []. split; [done|]. by left.
    + intros Hok. rewrite Hok in Hr. done.
Qed.

(** ** Reading an entry *)

Lemma read_data_loop_all fuel a acc :
  (length (rh_data a) <= fuel)%nat ->
  exists a',
    read_data_loop fuel a acc
    = (if rh_damaged a then ARCHIVE_FATAL else 0, acc ++ rh_data a, a').
Proof.
  revert a acc. induction fuel as [|fuel IH]; intros a acc Hlen.
  - destruct (rh_data a) as [|b rest] eqn:Hd; [|simpl in Hlen; lia].
    exists a. simpl. unfold archive_read_data. rewrite Hd, app_nil_r.
    by destruct (rh_damaged a).
  - destruct (rh_data a) as [|b rest] eqn:Hd.
    + exists a. simpl. unfold archive_read_data. rewrite Hd, app_nil_r.
      by destruct (rh_damaged a).
    + cbn [read_data_loop].
      rewrite (archive_read_data_some a b rest TAR_BUFFER_SIZE Hd) by done.
      set (n := Z.to_nat TAR_BUFFER_SIZE).
      assert (Hn : (1 <= n)%nat) by (subst n; unfold TAR_BUFFER_SIZE; lia).
      assert (Hpos : (0 <? Z.of_nat (length (take n (b :: rest)))) = true).
      { apply Z.ltb_lt. rewrite length_take. cbn [length]. lia. }
      rewrite Hpos.
      match goal with
      | |- context [read_data_loop fuel ?a1 _] =>
          destruct (IH a1 (acc ++ take n (b :: rest))) as [a' Ha']
      end.
      { cbn [rh_data]. rewrite length_drop. cbn [length] in *. lia. }
      exists a'. rewrite Ha'. cbn [rh_data rh_damaged].
      by rewrite <- app_assoc, take_drop.
Qed.

Lemma read_all_payload m post :
  exists a,
    read_all (reader_at m post)
    = (if m_damaged m then ARCHIVE_FATAL else 0, m_data m, a).
Proof.
  unfold read_all.
  destruct (read_data_loop_all (S (length (rh_data (reader_at m post))))
              (reader_at m post) []) as [a Ha]; [lia|].
  exists a. by rewrite Ha.
Qed.




(** ** Bulk extraction *)

Lemma grows_refl st : grows st st [] [].
Proof. unfold grows. by rewrite !app_nil_r. Qed.

Lemma grows_raise st code desc :
  grows st (raise code desc st) [] [Exception code desc].
Proof. unfold grows. simpl. by rewrite app_nil_r. Qed.

Lemma grows_disk_call st ev : grows st (disk_call ev st) [ev] [].
Proof. unfold grows. simpl. by rewrite app_nil_r. Qed.

Lemma grows_trans st1 st2 st3 evs1 evs2 xs1 xs2 :
  grows st1 st2 evs1 xs1 -> grows st2 st3 evs2 xs2 ->
  grows st1 st3 (evs1 ++ evs2) (xs1 ++ xs2).
Proof.
  intros (Ha & Hb & Hc & Hi & Hd & He) (Ha' & Hb' & Hc' & Hi' & Hd' & He').
  unfold grows. rewrite Ha', Hb', Hc', Hi', Hd', He', Ha, Hb, Hc, Hi, Hd, He.
  by rewrite !app_assoc.
Qed.

Lemma disk_headers_app evs1 evs2 :
  disk_headers (evs1 ++ evs2) = disk_headers evs1 ++ disk_headers evs2.
Proof. apply omap_app. Qed.

Lemma copy_blocks_grows E fuel name a st :
  exists evs xs,
    grows st (copy_blocks E fuel name a st).1 evs xs
    /\ disk_headers evs = [].
Proof.
  revert a st. induction fuel as [|fuel IH]; intros a st.
  - simpl. destruct (archive_read_data_block a) as [[[r buf] off] a1].
    destruct (r =? ARCHIVE_OK); [|exists [], []; split; [apply grows_refl|done]].
    destruct (negb (_ =? ARCHIVE_OK)); simpl.
    + exists [DBlock buf off], [Exception "TAR-ERROR"
        ("failed to write data for '" +:+ name +:+ "': "
         +:+ get_archive_error E)].
      split; [|done].
      apply (grows_trans _ _ _ [DBlock buf off] [] [] [_]
               (grows_disk_call _ _) (grows_raise _ _ _)).
    + exists [DBlock buf off], []. split; [apply grows_disk_call|done].
  - cbn [copy_blocks].
    destruct (archive_read_data_block a) as [[[r buf] off] a1].
    destruct (r =? ARCHIVE_OK); [|exists [], []; split; [apply grows_refl|done]].
    destruct (negb (_ =? ARCHIVE_OK)); simpl.
    + exists [DBlock buf off], [Exception "TAR-ERROR"
        ("failed to write data for '" +:+ name +:+ "': "
         +:+ get_archive_error E)].
      split; [|done].
      apply (grows_trans _ _ _ [DBlock buf off] [] [] [_]
               (grows_disk_call _ _) (grows_raise _ _ _)).
    + destruct (IH a1 (disk_call (DBlock buf off) st)) as (evs & xs & Hg & Hh).
      exists (DBlock buf off :: evs), xs. split; [|done].
      apply (grows_trans _ _ _ [DBlock buf off] evs [] xs
               (grows_disk_call _ _) Hg).
Qed.

(** One round of the loop on an entry that fails a check. *)
Lemma extract_loop_unsafe E dest m ms st :
  passes_gate (m_entry m) = false ->
  exists desc,
    extract_loop E dest (m :: ms) st
    = (raise "TAR-SECURITY-ERROR" desc st, reader_at m ms).
Proof.
  unfold passes_gate. intros Hgate. cbn [extract_loop]. cbv zeta.
  destruct (isPathSafe (Some (pathname (m_entry m)))); cbn [negb];
    [|by eexists].
  cbn [hardlink symlink set_pathname set_hardlink].
  destruct (c_nonempty (hardlink (m_entry m)));
    destruct (isPathSafe (hardlink (m_entry m))); cbn [negb andb orb] in *;
    try (by eexists);
    cbn [hardlink symlink set_pathname set_hardlink];
    destruct (c_nonempty (symlink (m_entry m)));
    destruct (isPathSafe (symlink (m_entry m))); cbn [negb andb orb] in *;
    try done; by eexists.
Qed.

(** One round of the loop on an entry that passes the checks. *)
Lemma extract_loop_safe E dest m ms st :
  passes_gate (m_entry m) = true ->
  extract_loop E dest (m :: ms) st
  = let entry := rooted dest (m_entry m) in
    let st1 := disk_call (DHeader entry) st in
    if negb (env_disk_header E (w_disk (world st)) entry =? ARCHIVE_OK) then
      (raise "TAR-ERROR"
         ("failed to extract '" +:+ c_str (pathname (m_entry m)) +:+ "': "
          +:+ get_archive_error E) st1,
       reader_at m ms)
    else
      extract_loop E dest ms
        (disk_call DFinishEntry
           (if 0 <? size (m_entry m)
            then fst (copy_blocks E (S (length (m_blocks m)))
                        (c_str (pathname (m_entry m))) (reader_at m ms) st1)
            else st1)).
Proof.
  unfold passes_gate, rooted. intros Hgate. cbn [extract_loop]. cbv zeta.
  destruct (isPathSafe (Some (pathname (m_entry m)))); [|done].
  cbn [negb hardlink symlink set_pathname set_hardlink].
  destruct (c_nonempty (hardlink (m_entry m)));
    destruct (isPathSafe (hardlink (m_entry m))); cbn [negb andb orb] in *;
    try done;
    cbn [hardlink symlink set_pathname set_hardlink size];
    destruct (c_nonempty (symlink (m_entry m)));
    destruct (isPathSafe (symlink (m_entry m))); cbn [negb andb orb] in *;
    try done.
Qed.

Lemma after_entry_grows E dest m ms st :
  exists evs xs,
    grows st (after_entry E dest m ms st) evs xs
    /\ disk_headers evs = [rooted dest (m_entry m)].
Proof.
  unfold after_entry. cbv zeta.
  set (st1 := disk_call (DHeader (rooted dest (m_entry m))) st).
  destruct (0 <? size (m_entry m)).
  - destruct (copy_blocks_grows E (S (length (m_blocks m)))
                (c_str (pathname (m_entry m))) (reader_at m ms) st1)
      as (evs & xs & Hg & Hh).
    exists ([DHeader (rooted dest (m_entry m))] ++ evs ++ [DFinishEntry]),
      ([] ++ xs ++ []).
    split.
    + eapply grows_trans; [apply grows_disk_call|].
      eapply grows_trans; [apply Hg|apply grows_disk_call].
    + rewrite !disk_headers_app, Hh. done.
  - exists ([DHeader (rooted dest (m_entry m))] ++ [DFinishEntry]), ([] ++ []).
    split; [|done].
    eapply grows_trans; apply grows_disk_call.
Qed.

(** The header calls of the loop are those of a prefix of the members, in
    order, and every member of that prefix passed the checks. *)
Lemma extract_loop_prefix E dest ms st :
  exists k evs xs,
    (k <= length ms)%nat
    /\ grows st (extract_loop E dest ms st).1 evs xs
    /\ disk_headers evs = (fun m => rooted dest (m_entry m)) <$> take k ms
    /\ Forall (fun m => passes_gate (m_entry m) = true) (take k ms).
Proof.
  revert st. induction ms as [|m ms IH]; intros st.
  - exists 0%nat, [], [].
    split; [done|]. split; [apply grows_refl|]. split; [done|]. by constructor.
  - destruct (passes_gate (m_entry m)) eqn:Hgate.
    + rewrite (extract_loop_safe E dest m ms st Hgate). cbv zeta.
      destruct (negb (_ =? ARCHIVE_OK)).
      * exists 1%nat, [DHeader (rooted dest (m_entry m))],
          [Exception "TAR-ERROR"
             ("failed to extract '" +:+ c_str (pathname (m_entry m)) +:+ "': "
              +:+ get_archive_error E)].
        split; [simpl; lia|]. split; [|split; [done|]].
        -- apply (grows_trans _ _ _ [_] [] [] [_]
                    (grows_disk_call _ _) (grows_raise _ _ _)).
        -- simpl. by repeat constructor.
      * fold (after_entry E dest m ms st).
        destruct (after_entry_grows E dest m ms st) as (evs1 & xs1 & Hg1 & Hh1).
        destruct (IH (after_entry E dest m ms st))
          as (k & evs & xs & Hk & Hg & Hh & Hall).
        exists (S k), (evs1 ++ evs), (xs1 ++ xs).
        split; [simpl; lia|]. split; [by eapply grows_trans|]. split.
        -- by rewrite disk_headers_app, Hh1, Hh.
        -- by constructor.
    + destruct (extract_loop_unsafe E dest m ms st Hgate) as [desc ->].
      exists 0%nat, [], [Exception "TAR-SECURITY-ERROR" desc].
      split; [lia|]. split; [apply grows_raise|]. split; [done|].
      rewrite take_0. by constructor.
Qed.

(** When the disk writer accepts every header, the loop reaches the first
    entry that fails a check, raises the security error there and stops. *)
Lemma extract_loop_stops E dest pre m post st :
  (forall t e, env_disk_header E t e = ARCHIVE_OK) ->
  Forall (fun m => passes_gate (m_entry m) = true) pre ->
  passes_gate (m_entry m) = false ->
  exists evs xs desc,
    grows st (extract_loop E dest (pre ++ m :: post) st).1 evs
      (xs ++ [Exception "TAR-SECURITY-ERROR" desc])
    /\ disk_headers evs = (fun m => rooted dest (m_entry m)) <$> pre.
Proof.
  intros Hdisk Hpre Hm. revert st.
  induction Hpre as [|m0 pre Hm0 _ IH]; intros st.
  - cbn [app].
    destruct (extract_loop_unsafe E dest m post st Hm) as [desc ->].
    exists [], [], desc. split; [apply grows_raise|done].
  - change ((m0 :: pre) ++ m :: post) with (m0 :: (pre ++ m :: post)).
    rewrite (extract_loop_safe E dest m0 _ st Hm0). cbv zeta.
    rewrite Hdisk. cbn [Z.eqb ARCHIVE_OK negb].
    fold (after_entry E dest m0 (pre ++ m :: post) st).
    destruct (after_entry_grows E dest m0 (pre ++ m :: post) st)
      as (evs1 & xs1 & Hg1 & Hh1).
    destruct (IH (after_entry E dest m0 (pre ++ m :: post) st))
      as (evs & xs & desc & Hg & Hh).
    exists (evs1 ++ evs), (xs1 ++ xs), desc. split.
    + rewrite <- app_assoc. by eapply grows_trans.
    + by rewrite disk_headers_app, Hh1, Hh.
Qed.

Ltac session_cases E st :=
  let fp := fresh "fp" in let md := fresh "md" in let ra := fresh "ra" in
  let wa := fresh "wa" in let cm := fresh "cm" in let cl := fresh "cl" in
  let fmt := fresh "fmt" in let im := fresh "im" in let c := fresh "c" in
  let mb := fresh "mb" in let mp := fresh "mp" in let ins := fresh "ins" in
  let outs := fresh "outs" in let wo := fresh "wo" in let wd := fresh "wd" in
  let wf := fresh "wf" in let wi := fresh "wi" in let xs := fresh "xs" in
  destruct st as [[fp md ra wa cm cl fmt im c mb mp ins outs] [wo wd wf wi] xs];
  unfold reopenRead, openRead, release_reader, pulled, on_self, on_world,
    raise, raiseException;
  cbn [self world xsink read_archive in_memory input_stream memory_buffer
       filepath with_read_archive with_memory_pos negb andb w_in w_out w_disk
       w_files];
  destruct ra; cbn [self world xsink read_archive in_memory input_stream
    memory_buffer filepath with_read_archive with_memory_pos negb andb];
  destruct (env_read_new E); cbn [negb];
  destruct im; cbn [negb andb];
  try destruct mb; try destruct ins;
  cbn [self world xsink read_archive in_memory input_stream memory_buffer
       filepath with_read_archive with_memory_pos negb andb w_in w_out w_disk
       w_files];
  try match goal with
      | |- context [env_read_open E ?b] => destruct (env_read_open E b) eqn:?
      end;
  cbn [self world xsink read_archive in_memory input_stream memory_buffer
       filepath with_read_archive with_memory_pos negb andb w_in w_out w_disk
       w_files closed mode write_archive].

Lemma reopenRead_outside E st :
  (w_out (world (reopenRead E st)) = w_out (world st)
   /\ w_disk (world (reopenRead E st)) = w_disk (world st)
   /\ w_files (world (reopenRead E st)) = w_files (world st))
  /\ exists xs, xsink (reopenRead E st) = xsink st ++ xs.
Proof.
  session_cases E st; (split; [done|]);
    first [by eexists | exists []; by rewrite app_nil_r].
Qed.

Lemma reopenRead_not_pending E st :
  pending (xsink (reopenRead E st)) = false -> xsink st = [].
Proof.
  destruct (reopenRead_outside E st) as [_ [xs ->]].
  by destruct (xsink st).
Qed.

Lemma checkOpen_read_ok st :
  closed (self st) = false ->
  is_Some (read_archive (self st)) \/ in_memory (self st) = true ->
  checkOpen false st = (true, st).
Proof.
  intros Hclosed Hopen. unfold checkOpen. rewrite Hclosed.
  destruct (read_archive (self st)); [done|].
  by destruct Hopen as [[? [=]]| ->].
Qed.

(** What a run of [extractAll] that gets to its loop leaves behind. *)
Lemma extractAll_run E destPath opts st :
  closed (self st) = false ->
  is_Some (read_archive (self st)) \/ in_memory (self st) = true ->
  pending (xsink (reopenRead E st)) = false ->
  env_disk_new E = true ->
  let st1 := reopenRead E st in
  let o := parseExtractOptions opts (extract_defaults destPath) in
  let st2 :=
    disk_call DStandardLookup (disk_call (DOptions (extract_flags o)) st1) in
  forall evs xs,
    grows st2 (extract_loop E (destination o) (members_ahead st1) st2).1 evs xs ->
    disk_headers (w_disk (world (extractAll E destPath opts st)))
    = disk_headers (w_disk (world st)) ++ disk_headers evs
    /\ xsink (extractAll E destPath opts st) = xs
    /\ w_disk (world (extractAll E destPath opts st))
       = w_disk (world st)
         ++ DOptions (extract_flags o) :: DStandardLookup :: evs ++ [DClose]
    /\ w_files (world (extractAll E destPath opts st)) = w_files (world st)
    /\ w_out (world (extractAll E destPath opts st)) = w_out (world st).
Proof.
  intros Hclosed Hopen Hpending Hdisk st1 o st2 evs xs Hg.
  pose proof (reopenRead_not_pending E st Hpending) as Hxs.
  destruct (reopenRead_outside E st) as [(Hwo & Hwd & Hwf) _].
  assert (Hxs1 : xsink st1 = []).
  { subst st1. by destruct (xsink (reopenRead E st)). }
  unfold extractAll. rewrite (checkOpen_read_ok st Hclosed Hopen).
  cbn [negb]. rewrite Hxs. cbn [pending]. rewrite andb_false_r.
  fold st1. subst st1. rewrite Hpending, Hdisk. cbn [negb].
  fold o. fold st2.
  change (members_ahead st2) with (members_ahead (reopenRead E st)).
  destruct (extract_loop E (destination o) (members_ahead (reopenRead E st)) st2)
    as [st3 a] eqn:Hloop.
  destruct Hg as (_ & Ho & Hf & _ & Hd & Hx). cbn [fst] in Ho, Hf, Hd, Hx.
  cbn [world disk_call set_reader on_world on_self w_disk w_files w_out xsink].
  rewrite Hd, Ho, Hf. subst st2.
  cbn [world disk_call on_world w_disk w_files w_out xsink] in *.
  rewrite Hwo, Hwd, Hwf, Hx, Hxs1. split_and!; try done.
  - rewrite !disk_headers_app. cbn. by rewrite !app_nil_r.
  - by rewrite <- !app_assoc.
Qed.

Lemma disk_headers_block_calls bs : disk_headers (block_calls bs) = [].
Proof. induction bs as [|[b o] bs IH]; [done|]. apply IH. Qed.

(** The block loop forwards the blocks of the reader in order, each with its
    offset, and stops after the first one the writer refuses. *)
Lemma copy_blocks_trace E fuel name a st :
  (length (rh_blocks a) <= fuel)%nat ->
  exists k xs,
    grows st (copy_blocks E fuel name a st).1
      (block_calls (take k (rh_blocks a))) xs
    /\ ((forall t b o, env_disk_block E t b o = ARCHIVE_OK) ->
        take k (rh_blocks a) = rh_blocks a /\ xs = []).
Proof.
  revert a st. induction fuel as [|fuel IH]; intros a st Hlen.
  - destruct (rh_blocks a) as [|[b o] rest] eqn:Hb; [|simpl in Hlen; lia].
    exists 0%nat, []. cbn [copy_blocks]. unfold archive_read_data_block.
    rewrite Hb. split; [|done].
    destruct (rh_damaged a); cbn; apply grows_refl.
  - destruct (rh_blocks a) as [|[b o] rest] eqn:Hb.
    + exists 0%nat, []. cbn [copy_blocks]. unfold archive_read_data_block.
      rewrite Hb. split; [|done].
      destruct (rh_damaged a); cbn; apply grows_refl.
    + cbn [copy_blocks]. unfold archive_read_data_block. rewrite Hb.
      cbn [Z.eqb ARCHIVE_OK].
      destruct (Z.eqb_spec (env_disk_block E (w_disk (world st)) b o)
                  ARCHIVE_OK) as [Hok|Hno]; cbn [negb].
      * match goal with
        | |- context [copy_blocks E fuel name ?a1 ?s1] =>
            destruct (IH a1 s1) as (k & xs & Hg & Hall)
        end.
        { cbn [rh_blocks]. simpl in Hlen. lia. }
        cbn [rh_blocks] in Hg, Hall.
        exists (S k), xs. split.
        -- cbn [take block_calls fmap list_fmap fst snd].
           apply (grows_trans _ _ _ [DBlock b o] _ [] xs
                    (grows_disk_call _ _) Hg).
        -- intros Hacc. destruct (Hall Hacc) as [Ht ->].
           cbn [take]. by rewrite Ht.
      * exists 1%nat, [Exception "TAR-ERROR"
          ("failed to write data for '" +:+ name +:+ "': "
           +:+ get_archive_error E)].
        split.
        -- cbn [fst take block_calls fmap list_fmap snd].
           rewrite take_0.
           apply (grows_trans _ _ _ [DBlock b o] [] [] [_]
                    (grows_disk_call _ _) (grows_raise _ _ _)).
        -- intros Hacc. by rewrite Hacc in Hno.
Qed.

(** The calls made for an entry whose header the writer accepted. *)
Lemma after_entry_trace E dest m ms st :
  exists k xs,
    grows st (after_entry E dest m ms st)
      (DHeader (rooted dest (m_entry m))
       :: block_calls (take k (blocks_of m)) ++ [DFinishEntry]) xs
    /\ ((forall t b o, env_disk_block E t b o = ARCHIVE_OK) ->
        take k (blocks_of m) = blocks_of m /\ xs = []).
Proof.
  unfold after_entry, blocks_of. cbv zeta.
  set (st1 := disk_call (DHeader (rooted dest (m_entry m))) st).
  destruct (0 <? size (m_entry m)).
  - destruct (copy_blocks_trace E (S (length (m_blocks m)))
                (c_str (pathname (m_entry m))) (reader_at m ms) st1)
      as (k & xs & Hg & Hall); [cbn; lia|].
    cbn [rh_blocks reader_at] in Hg, Hall.
    exists k, xs. split; [|done].
    change (DHeader (rooted dest (m_entry m)) :: ?l)
      with ([DHeader (rooted dest (m_entry m))] ++ l).
    replace xs with ([] ++ xs ++ []) by (by rewrite app_nil_r).
    eapply grows_trans; [apply grows_disk_call|].
    eapply grows_trans; [apply Hg|apply grows_disk_call].
  - exists 0%nat, []. split; [|done].
    cbn [take block_calls fmap list_fmap app].
    change [DHeader (rooted dest (m_entry m)); DFinishEntry]
      with ([DHeader (rooted dest (m_entry m))] ++ [DFinishEntry]).
    change (@nil exception) with (@nil exception ++ []).
    eapply grows_trans; apply grows_disk_call.
Qed.

Lemma entry_done_headers dest m evs :
  entry_done dest m evs -> disk_headers evs = [rooted dest (m_entry m)].
Proof.
  intros [k ->]. cbn. by rewrite disk_headers_app, disk_headers_block_calls.
Qed.

Lemma entry_trace_headers dest m evs :
  entry_trace dest m evs -> disk_headers evs = [rooted dest (m_entry m)].
Proof. intros [->|H]; [done|by apply entry_done_headers]. Qed.

Lemma traces_headers dest ms segs :
  Forall2 (entry_trace dest) ms segs ->
  disk_headers (concat segs) = (fun m => rooted dest (m_entry m)) <$> ms.
Proof.
  induction 1 as [|m seg ms segs Hm _ IH]; [done|].
  cbn [concat]. rewrite disk_headers_app, (entry_trace_headers _ _ _ Hm), IH.
  done.
Qed.

(** The calls of the loop are those of a prefix of the members, in order,
    every member of which passed the checks: one run of calls for each. *)
Lemma extract_loop_trace E dest ms st :
  exists k segs xs,
    (k <= length ms)%nat
    /\ grows st (extract_loop E dest ms st).1 (concat segs) xs
    /\ Forall2 (entry_trace dest) (take k ms) segs
    /\ Forall (fun m => passes_gate (m_entry m) = true) (take k ms).
Proof.
  revert st. induction ms as [|m ms IH]; intros st.
  - exists 0%nat, [], [].
    split; [done|]. split; [apply grows_refl|]. split; by constructor.
  - destruct (passes_gate (m_entry m)) eqn:Hgate.
    + rewrite (extract_loop_safe E dest m ms st Hgate). cbv zeta.
      destruct (negb (_ =? ARCHIVE_OK)).
      * exists 1%nat, [[DHeader (rooted dest (m_entry m))]],
          [Exception "TAR-ERROR"
             ("failed to extract '" +:+ c_str (pathname (m_entry m)) +:+ "': "
              +:+ get_archive_error E)].
        split; [simpl; lia|]. split; [|split].
        -- apply (grows_trans _ _ _ [_] [] [] [_]
                    (grows_disk_call _ _) (grows_raise _ _ _)).
        -- cbn [take]. rewrite take_0. constructor; [by left|constructor].
        -- simpl. by repeat constructor.
      * fold (after_entry E dest m ms st).
        destruct (after_entry_trace E dest m ms st) as (j & xs1 & Hg1 & _).
        destruct (IH (after_entry E dest m ms st))
          as (k & segs & xs & Hk & Hg & Htr & Hall).
        exists (S k),
          ((DHeader (rooted dest (m_entry m))
            :: block_calls (take j (blocks_of m)) ++ [DFinishEntry])
           :: segs), (xs1 ++ xs).
        split; [simpl; lia|]. split; [|split].
        -- cbn [concat]. apply (grows_trans _ _ _ _ _ _ _ Hg1 Hg).
        -- cbn [take]. constructor; [|done]. right. by exists j.
        -- by constructor.
    + destruct (extract_loop_unsafe E dest m ms st Hgate) as [desc ->].
      exists 0%nat, [], [Exception "TAR-SECURITY-ERROR" desc].
      split; [lia|]. split; [apply grows_raise|].
      rewrite take_0. split; by constructor.
Qed.

(** When the disk writer accepts every header, the loop reaches the first
    entry that fails a check, raises the security error there and stops:
    the calls are those of the entries before it. *)
Lemma extract_loop_halts E dest pre m post st :
  (forall t e, env_disk_header E t e = ARCHIVE_OK) ->
  Forall (fun m => passes_gate (m_entry m) = true) pre ->
  passes_gate (m_entry m) = false ->
  exists segs xs desc,
    grows st (extract_loop E dest (pre ++ m :: post) st).1 (concat segs)
      (xs ++ [Exception "TAR-SECURITY-ERROR" desc])
    /\ Forall2 (entry_done dest) pre segs
    /\ ((forall t b o, env_disk_block E t b o = ARCHIVE_OK) ->
        segs = entry_calls dest <$> pre /\ xs = []).
Proof.
  intros Hdisk Hpre Hm. revert st.
  induction Hpre as [|m0 pre Hm0 _ IH]; intros st.
  - cbn [app].
    destruct (extract_loop_unsafe E dest m post st Hm) as [desc ->].
    exists [], [], desc. split; [apply grows_raise|]. split; [constructor|done].
  - change ((m0 :: pre) ++ m :: post) with (m0 :: (pre ++ m :: post)).
    rewrite (extract_loop_safe E dest m0 _ st Hm0). cbv zeta.
    rewrite Hdisk. cbn [Z.eqb ARCHIVE_OK negb].
    fold (after_entry E dest m0 (pre ++ m :: post) st).
    destruct (after_entry_trace E dest m0 (pre ++ m :: post) st)
      as (j & xs1 & Hg1 & Hall1).
    destruct (IH (after_entry E dest m0 (pre ++ m :: post) st))
      as (segs & xs & desc & Hg & Htr & Hall).
    exists ((DHeader (rooted dest (m_entry m0))
             :: block_calls (take j (blocks_of m0)) ++ [DFinishEntry])
            :: segs), (xs1 ++ xs), desc.
    split; [|split].
    + cbn [concat]. rewrite <- app_assoc.
      apply (grows_trans _ _ _ _ _ _ _ Hg1 Hg).
    + constructor; [by exists j|done].
    + intros Hacc. destruct (Hall1 Hacc) as [-> ->].
      destruct (Hall Hacc) as [-> ->]. done.
Qed.

Lemma Forall2_entry_done_trace dest ms segs :
  Forall2 (entry_done dest) ms segs -> Forall2 (entry_trace dest) ms segs.
Proof. induction 1; constructor; [by right|done]. Qed.

(** C2.  [extractAll] takes the entries in the order of the archive and
    checks the path of each, and its hardlink and symlink targets when
    present and not empty, with [isPathSafe] before it makes any call on the
    disk writer for that entry.  All it does outside the session is to call
    the disk writer, no file is written otherwise and nothing goes to the
    output of the session; between the two calls that set the writer up and
    the one that closes it, the calls are one run for each entry of a prefix
    of the archive, in order: the header, blocks of that entry and the end of
    the entry, or the header alone when the writer refused it; and every
    entry of that prefix passed the checks.  So no call is made for the first
    entry that fails a check nor for any entry after it.  When the disk
    writer accepted the headers of all entries before it, that entry is
    reached, the exception raised last is the security error, whose code is
    not that of a TAR-ERROR, and the entries before it stay extracted: each
    has its run of calls, with every block of the entry when the writer
    accepts the blocks. *)
Theorem extractAll_checks_before_writing :
  forall E destPath opts st,
    closed (self st) = false ->
    is_Some (read_archive (self st)) \/ in_memory (self st) = true ->
    pending (xsink (reopenRead E st)) = false ->
    env_disk_new E = true ->
    let ms := members_ahead (reopenRead E st) in
    let dest :=
      destination (parseExtractOptions opts (extract_defaults destPath)) in
    let flags :=
      extract_flags (parseExtractOptions opts (extract_defaults destPath)) in
    let st' := extractAll E destPath opts st in
    (exists k,
       (k <= length ms)%nat
       /\ disk_headers (w_disk (world st'))
          = disk_headers (w_disk (world st))
            ++ ((fun m => rooted dest (m_entry m)) <$> take k ms)
       /\ Forall (fun m => passes_gate (m_entry m) = true) (take k ms)
       /\ exists segs,
            Forall2 (entry_trace dest) (take k ms) segs
            /\ w_disk (world st')
               = w_disk (world st)
                 ++ DOptions flags :: DStandardLookup :: concat segs
                 ++ [DClose])
    /\ (forall pre m post,
          ms = pre ++ m :: post ->
          Forall (fun m => passes_gate (m_entry m) = true) pre ->
          passes_gate (m_entry m) = false ->
          (exists k,
             (k <= length pre)%nat
             /\ disk_headers (w_disk (world st'))
                = disk_headers (w_disk (world st))
                  ++ ((fun m => rooted dest (m_entry m)) <$> take k pre)
             /\ exists segs,
                  Forall2 (entry_trace dest) (take k pre) segs
                  /\ w_disk (world st')
                     = w_disk (world st)
                       ++ DOptions flags :: DStandardLookup :: concat segs
                       ++ [DClose])
          /\ ((forall t e, env_disk_header E t e = ARCHIVE_OK) ->
              disk_headers (w_disk (world st'))
              = disk_headers (w_disk (world st))
                ++ ((fun m => rooted dest (m_entry m)) <$> pre)
              /\ (exists xs desc,
                    xsink st' = xs ++ [Exception "TAR-SECURITY-ERROR" desc])
              /\ (exists segs,
                    Forall2 (entry_done dest) pre segs
                    /\ w_disk (world st')
                       = w_disk (world st)
                         ++ DOptions flags :: DStandardLookup :: concat segs
                         ++ [DClose])
              /\ ((forall t b o, env_disk_block E t b o = ARCHIVE_OK) ->
                  w_disk (world st')
                  = w_disk (world st)
                    ++ DOptions flags :: DStandardLookup
                    :: concat (entry_calls dest <$> pre) ++ [DClose]
                  /\ exists desc,
                       xsink st' = [Exception "TAR-SECURITY-ERROR" desc])))
    /\ "TAR-SECURITY-ERROR" <> "TAR-ERROR"
    /\ w_files (world st') = w_files (world st)
    /\ w_out (world st') = w_out (world st).
Proof.
  intros E destPath opts st Hclosed Hopen Hpending Hdisk ms dest flags st'.
  pose proof (extractAll_run E destPath opts st Hclosed Hopen Hpending Hdisk)
    as Hrun. cbv zeta in Hrun. fold ms dest flags st' in Hrun.
  set (st2 := disk_call DStandardLookup
                (disk_call (DOptions flags) (reopenRead E st))) in Hrun.
  destruct (extract_loop_trace E dest ms st2)
    as (k & segs & xs & Hk & Hg & Htr & Hall).
  destruct (Hrun _ _ Hg) as (Hh & Hx & Hd & Hf & Ho).
  rewrite (traces_headers _ _ _ Htr) in Hh.
  assert (Hle : forall pre m post,
    ms = pre ++ m :: post -> passes_gate (m_entry m) = false ->
    (k <= length pre)%nat).
  { intros pre m post Hms Hm.
    destruct (Nat.le_gt_cases k (length pre)) as [|Hgt]; [done|].
    exfalso. rewrite Hms in Hall.
    rewrite Forall_forall in Hall.
    assert (Hin : m ∈ take k (pre ++ m :: post)).
    { apply list_elem_of_lookup. exists (length pre).
      rewrite lookup_take_lt by lia.
      by rewrite list_lookup_middle. }
    apply Hall in Hin. congruence. }
  split_and!; try done.
  - exists k. split_and!; try done. by exists segs.
  - intros pre m post Hms Hpre Hm. split.
    + exists k. pose proof (Hle pre m post Hms Hm) as Hkp.
      split; [done|]. rewrite Hms in Hh, Htr.
      rewrite take_app_le in Hh, Htr by done.
      split; [done|]. by exists segs.
    + intros Hok.
      destruct (extract_loop_halts E dest pre m post st2 Hok Hpre Hm)
        as (segs' & xs' & desc & Hg' & Htr' & Hacc).
      rewrite <- Hms in Hg'.
      destruct (Hrun _ _ Hg') as (Hh' & Hx' & Hd' & _).
      rewrite (traces_headers _ _ _ (Forall2_entry_done_trace _ _ _ Htr'))
        in Hh'.
      split_and!; try done.
      * by exists xs', desc.
      * by exists segs'.
      * intros Hblocks. destruct (Hacc Hblocks) as [-> ->].
        split; [done|]. by exists desc.
Qed.

(** ** Closed sessions and [toData] *)

Lemma toData_file_backed E st :
  in_memory (self st) = false ->
  toData E st
  = (None,
     raise "TAR-ERROR" "cannot get binary data from file-based archive" st).
Proof. intros Hm. unfold toData. by rewrite Hm. Qed.

Lemma toData_finalizes E st wa :
  in_memory (self st) = true ->
  mode (self st) = TAR_MODE_WRITE ->
  write_archive (self st) = Some wa ->
  toData E st
  = (Some (memory_buffer (self st) ++ archive_write_close E wa),
     on_self (with_write_archive None) (deliver (archive_write_close E wa) st)).
Proof.
  intros Hm Hmode Hwa. unfold toData, finalize_writer.
  rewrite Hm, Hmode, Hwa. cbn [negb]. unfold deliver. rewrite Hm.
  cbn [self on_self memory_buffer with_memory_buffer with_write_archive].
  by destruct (memory_buffer (self st) ++ archive_write_close E wa).
Qed.

Lemma toData_snapshot E st :
  in_memory (self st) = true ->
  mode (self st) <> TAR_MODE_WRITE \/ write_archive (self st) = None ->
  toData E st = (Some (memory_buffer (self st)), st).
Proof.
  intros Hm Hno. unfold toData, finalize_writer. rewrite Hm. cbn [negb].
  destruct (mode (self st)) eqn:Hmode.
  - by destruct (memory_buffer (self st)).
  - destruct Hno as [Hno| ->]; [done|].
    by destruct (memory_buffer (self st)).
  - by destruct (memory_buffer (self st)).
Qed.

(** C8 (amended).  [toData] fails with a TAR-ERROR exactly on the sessions
    that are not memory-backed, whatever their mode.  On a memory-backed
    session in write mode whose write coder is still open it first finalizes
    the coder, whose trailing bytes reach the memory buffer, releases it, and
    returns a copy of the buffer; on any other memory-backed session it
    returns a copy of the buffer and changes nothing. *)
Theorem toData_gate_is_memory_backing :
  forall E st,
    (in_memory (self st) = false ->
     toData E st
     = (None,
        raise "TAR-ERROR" "cannot get binary data from file-based archive" st))
    /\ (in_memory (self st) = true ->
        (forall wa,
           mode (self st) = TAR_MODE_WRITE ->
           write_archive (self st) = Some wa ->
           toData E st
           = (Some (memory_buffer (self st) ++ archive_write_close E wa),
              on_self (with_write_archive None)
                (deliver (archive_write_close E wa) st)))
        /\ (mode (self st) <> TAR_MODE_WRITE
            \/ write_archive (self st) = None ->
            toData E st = (Some (memory_buffer (self st)), st))).
Proof.
  intros E st. split; [apply toData_file_backed|].
  intros Hm. split; [intros wa; by apply toData_finalizes|].
  by apply toData_snapshot.
Qed.

Lemma pending_raise code desc st : pending (xsink (raise code desc st)) = true.
Proof. unfold raise, raiseException. cbn. by destruct (xsink st). Qed.

(** C7 (amended).  On a closed session every operation that starts with
    [checkOpen] fails: it raises the TAR-ERROR "archive is closed" and leaves
    the session and everything outside it as they were.  [addText] converts
    its text before anything else: when the conversion raises, it returns
    with that exception alone; when an exception is pending after the
    conversion, it returns and raises nothing; otherwise it calls [add],
    which fails like the others.  [close] returns at once, raises nothing
    and writes nothing.  [toData] does not look at the closed flag: on a
    closed memory-backed session, whose write coder [close] has released, it
    returns the buffer and raises nothing. *)
Theorem closed_session_refuses_gated_operations :
  forall E st,
    closed (self st) = true ->
    let failed := raise "TAR-ERROR" "archive is closed" st in
    entries E st = (None, failed)
    /\ count E st = (-1, failed)
    /\ (forall name, hasEntry E name st = (false, failed))
    /\ (forall name, getEntry E name st = (None, failed))
    /\ (forall name, read E name st = (None, failed))
    /\ (forall name enc, readText E name enc st = (None, failed))
    /\ (forall name data opts, add E name data opts st = failed)
    /\ (forall name text ce opts,
          addText E name text ce opts st
          = match text with
            | None => raise (ex_code ce) (ex_desc ce) st
            | Some _ => if pending (xsink st) then st else failed
            end)
    /\ (forall name path opts, addFile E name path opts st = failed)
    /\ (forall name opts, addDirectory E name opts st = failed)
    /\ (forall name target opts, addSymlink E name target opts st = failed)
    /\ (forall name target opts, addHardlink E name target opts st = failed)
    /\ (forall dest opts, extractAll E dest opts st = failed)
    /\ (forall name dest, extractTo E name dest st = failed)
    /\ (forall name dest, extractEntry E name dest st = failed)
    /\ (forall name, openInputStream E name st = (None, failed))
    /\ (forall name opts, openOutputStream E name opts st = (None, failed))
    /\ close E st = st
    /\ (in_memory (self st) = true -> write_archive (self st) = None ->
        toData E st = (Some (memory_buffer (self st)), st)).
Proof.
  intros E st Hclosed failed.
  pose proof (checkOpen_closed false st Hclosed) as Hr.
  pose proof (checkOpen_closed true st Hclosed) as Hw.
  fold failed in Hr, Hw.
  repeat match goal with |- _ /\ _ => split end;
    intros;
    try (unfold entries, count, hasEntry, getEntry, read, add, addFile,
           addDirectory, addSymlink, addHardlink, extractAll, extractEntry,
           extractTo, openInputStream, openOutputStream;
         rewrite ?Hr, ?Hw; reflexivity).
  - unfold readText, read. rewrite Hr. cbn [negb].
    by destruct (pending (xsink failed)).
  - unfold addText. destruct text as [t|].
    + destruct (pending (xsink st)); [done|]. unfold add. by rewrite Hw.
    + by rewrite pending_raise.
  - unfold close. by rewrite Hclosed.
  - apply toData_snapshot; [done|]. by right.
Qed.

(** ** The sample archive *)

Lemma closed_session_witness :
  closed (self closed_sample) = true
  /\ read sample_env "a.txt" closed_sample
     = (None, raise "TAR-ERROR" "archive is closed" closed_sample).
Proof.
  split; [reflexivity|].
  exact (proj1 (proj2 (proj2 (proj2 (proj2
    (closed_session_refuses_gated_operations sample_env closed_sample
       eq_refl))))) "a.txt").
Defined.

(** [toData] on a closed session: a public operation other than [close]
    that succeeds. *)
Lemma toData_succeeds_on_closed_session :
  closed (self closed_sample) = true
  /\ xsink closed_sample = []
  /\ toData sample_env closed_sample = (Some sample_archive, closed_sample)
  /\ xsink (snd (toData sample_env closed_sample)) = []
  /\ closed (self (close sample_env write_sample)) = true
  /\ toData sample_env (close sample_env write_sample)
     = (Some (Byte.x01 :: hello ++ [Byte.x00; Byte.x00]),
        close sample_env write_sample)
  /\ xsink (close sample_env write_sample) = [].
Proof. by vm_compute. Qed.

(** [toData] on a memory-backed session in read mode: it succeeds on a
    session that is not in write mode. *)
Lemma toData_succeeds_on_read_session :
  mode (self read_sample) = TAR_MODE_READ
  /\ in_memory (self read_sample) = true
  /\ closed (self read_sample) = false
  /\ toData sample_env read_sample = (Some sample_archive, read_sample)
  /\ xsink (snd (toData sample_env read_sample)) = [].
Proof. by vm_compute. Qed.



Lemma extractAll_checks_before_writing_witness :
  w_disk (world (extractAll sample_env (Some "out") None read_sample))
  = [DOptions 6; DStandardLookup;
     DHeader (rooted "out" (m_entry (regular_file "a.txt" hello)));
     DBlock hello 0; DFinishEntry; DClose]
  /\ exists desc,
       xsink (extractAll sample_env (Some "out") None read_sample)
       = [Exception "TAR-SECURITY-ERROR" desc].
Proof.
  destruct (proj2
    (proj1
       (proj2
          (extractAll_checks_before_writing sample_env (Some "out") None
             read_sample eq_refl (or_intror eq_refl) eq_refl eq_refl))
       [regular_file "a.txt" hello] (regular_file "../evil" [Byte.x21])
       [regular_file "b.txt" hello] eq_refl
       (List.Forall_cons _ (regular_file "a.txt" hello) [] eq_refl
          (List.Forall_nil _)) eq_refl)
    (fun _ _ => eq_refl)) as (_ & _ & _ & Hall).
  exact (Hall (fun _ _ _ => eq_refl)).
Defined.

(** Runs of the embedding on the sample archive. *)

Example sample_count : fst (count sample_env read_sample) = 3.
Proof. reflexivity. Qed.

Example sample_read :
  fst (read sample_env "b.txt" read_sample) = Some hello
  /\ fst (read sample_env "c.txt" read_sample) = None
  /\ xsink (snd (read sample_env "c.txt" read_sample))
     = [Exception "TAR-ERROR" "entry 'c.txt' not found"].
Proof. by vm_compute. Qed.

Example sample_hardlink_type :
  createEntryInfo
    (set_hardlink "a.txt" (m_entry (regular_file "link" []))) !! "type"
  = Some (QString "hardlink")
  /\ createEntryInfo (m_entry (regular_file "a.txt" hello)) !! "type"
     = Some (QString "file").
Proof. by vm_compute. Qed.

Example sample_detect :
  detect_compression_from_filename (Some "backup.tar.gz") = TAR_CM_GZIP
  /\ detect_compression_from_filename (Some "backup.tar.zstd") = TAR_CM_ZSTD
  /\ detect_compression_from_filename (Some "backup.zip") = TAR_CM_NONE
  /\ detect_compression_from_filename (Some "tgz") = TAR_CM_NONE
  /\ detect_compression_from_filename None = TAR_CM_NONE.
Proof. by vm_compute. Qed.

Example sample_peek_read :
  let a := reader_at (regular_file "a.txt" hello) [] in
  let s := TarInputStream_new (m_entry (regular_file "a.txt" hello)) in
  let p := TarInputStream_peek sample_env s a [] in
  let r :=
    TarInputStream_read sample_env 3 (pr_stream p) (pr_coder p) (pr_xsink p) in
  let r' :=
    TarInputStream_read sample_env 10 (rr_stream r) (rr_coder r) (rr_xsink r) in
  let r'' :=
    TarInputStream_read sample_env 10 (rr_stream r') (rr_coder r')
      (rr_xsink r') in
  pr_return p = 104
  /\ rr_buffer r = [Byte.x68; Byte.x65; Byte.x6c]
  /\ rr_buffer r' = [Byte.x6c; Byte.x6f]
  /\ rr_return r'' = 0
  /\ rr_xsink r'' = [].
Proof. by vm_compute. Qed.

Example sample_stream_write :
  let st0 :=
    {| o_stream := TarOutputStream_new "a.txt" 420; o_coder := [];
       o_pushed := []; o_xsink := [] |} in
  let st1 := write_calls [(hello, 2); (drop 2 hello, 3); (hello, 0)] st0 in
  let st2 := TarOutputStream_close sample_env st1 in
  o_coder st1 = []
  /\ o_coder st2 = [WHeader (stream_header sample_env "a.txt" 420 hello);
                    WData hello]
  /\ size (stream_header sample_env "a.txt" 420 hello) = 5
  /\ TarOutputStream_close sample_env st2 = st2.
Proof. by vm_compute. Qed.

Example sample_extract :
  w_disk (world (extractAll sample_env (Some "out") None read_sample))
  = [DOptions 6; DStandardLookup;
     DHeader (rooted "out" (m_entry (regular_file "a.txt" hello)));
     DBlock hello 0; DFinishEntry; DClose].
Proof. by vm_compute. Qed.

Example sample_toData :
  memory_buffer (self write_sample) = Byte.x01 :: hello
  /\ fst (toData sample_env write_sample)
     = Some (Byte.x01 :: hello ++ [Byte.x00; Byte.x00])
  /\ write_archive (self (snd (toData sample_env write_sample))) = None
  /\ fst (toData sample_env (snd (toData sample_env write_sample)))
     = Some (Byte.x01 :: hello ++ [Byte.x00; Byte.x00]).
Proof. by vm_compute. Qed.

Lemma toData_gate_is_memory_backing_witness :
  in_memory (self write_sample) = true
  /\ mode (self write_sample) = TAR_MODE_WRITE
  /\ fst (toData sample_env write_sample)
     = Some (Byte.x01 :: hello ++ [Byte.x00; Byte.x00]).
Proof.
  split; [reflexivity|]. split; [reflexivity|].
  pose proof (toData_gate_is_memory_backing sample_env write_sample) as H.
  destruct H as [_ H]. destruct (H eq_refl) as [H1 _].
  exact (f_equal fst (H1 _ eq_refl eq_refl)).
Defined.

Lemma type_gives_hardlink_precedence_witness :
  hardlink (set_hardlink "a.txt" (m_entry (regular_file "link" [])))
  = Some "a.txt"
  /\ createEntryInfo
       (set_hardlink "a.txt" (m_entry (regular_file "link" []))) !! "type"
     = Some (QString "hardlink").
Proof.
  split; [reflexivity|].
  apply (proj1 type_gives_hardlink_precedence _ "a.txt"); [reflexivity|].
  discriminate.
Defined.

Lemma is_hardlink_flag_follows_presence_witness :
  hardlink (set_hardlink "" (m_entry (regular_file "link" []))) = Some ""
  /\ createEntryInfo
       (set_hardlink "" (m_entry (regular_file "link" []))) !! "is_hardlink"
     = Some (QBool true).
Proof.
  split; [reflexivity|].
  exact (proj1 (proj2 is_hardlink_flag_follows_presence)
           (set_hardlink "" (m_entry (regular_file "link" []))) "" eq_refl).
Defined.

Lemma write_adapter_defers_header_witness :
  env_entry_new sample_env = true
  /\ o_coder
       (TarOutputStream_close sample_env
          (write_calls [(hello, 2); (drop 2 hello, 3)]
             {| o_stream := TarOutputStream_new "a.txt" 420; o_coder := [];
                o_pushed := []; o_xsink := [] |}))
     = [WHeader (stream_header sample_env "a.txt" 420 hello); WData hello].
Proof.
  split; [reflexivity|].
  pose proof (write_adapter_defers_header sample_env "a.txt" 420 [] [] []
                [(hello, 2); (drop 2 hello, 3)]) as H.
  cbv zeta in H. destruct H as (_ & H & _).
  destruct (H eq_refl) as (_ & _ & _ & _ & _ & H6).
  exact (H6 eq_refl).
Defined.

Lemma lookahead_and_end_of_entry_witness :
  let a := reader_at (regular_file "a.txt" hello) [] in
  let s := TarInputStream_new (m_entry (regular_file "a.txt" hello)) in
  let p := TarInputStream_peek sample_env s a [] in
  pr_return p = 104
  /\ rr_buffer
       (TarInputStream_read sample_env 3 (pr_stream p) (pr_coder p)
          (pr_xsink p))
     = [Byte.x68; Byte.x65; Byte.x6c].
Proof.
  pose proof (proj1 lookahead_and_end_of_entry sample_env
                (TarInputStream_new (m_entry (regular_file "a.txt" hello)))
                (reader_at (regular_file "a.txt" hello) []) []
                Byte.x68 [Byte.x65; Byte.x6c; Byte.x6c; Byte.x6f]
                eq_refl eq_refl eq_refl eq_refl) as H.
  cbv zeta in H. destruct H as (H1 & _ & _ & _ & H5).
  split; [exact H1|].
  exact (proj1 (H5 3 eq_refl eq_refl)).
Defined.

(** * Further properties of the code *)

(** ** The path safety gate rejects nothing else *)

Lemma is_drive_letter_inv c : is_drive_letter c = true -> ascii_letter c.
Proof.
  unfold is_drive_letter, ascii_letter. cbv zeta.
  rewrite orb_true_iff, !andb_true_iff, !Nat.leb_le. tauto.
Qed.

Lemma char_at_0_eq s c :
  nul_free s = true -> c <> NUL -> Ascii.eqb (char_at s 0) c = true ->
  exists r, s = String c r.
Proof.
  intros _ Hc. destruct s as [|d r].
  - change (char_at "" 0) with NUL. intros Heq%Ascii.eqb_eq. by subst.
  - change (char_at (String d r) 0) with d. intros ->%Ascii.eqb_eq.
    by exists r.
Qed.

Lemma char_at_0_boundary s :
  nul_free s = true ->
  Ascii.eqb (char_at s 0) NUL || is_sep (char_at s 0) = true ->
  starts_component s.
Proof.
  destruct s as [|d r]; [by left|].
  change (char_at (String d r) 0) with d. cbn [nul_free].
  intros [Hd _]%andb_true_iff. apply negb_true_iff in Hd. rewrite Hd.
  cbn [orb]. intros Hs. right. by exists d, r.
Qed.

Lemma has_traversal_inv p prev :
  nul_free p = true -> has_traversal prev p = true ->
  exists pre post,
    p = pre +:+ ".." +:+ post
    /\ match pre with
       | EmptyString =>
           match prev with None => True | Some q => is_sep q = true end
       | String _ _ => exists p0 c, pre = p0 +:+ String c "" /\ is_sep c = true
       end
    /\ starts_component post.
Proof.
  revert prev. induction p as [|c rest IH]; intros prev Hnul; [done|].
  simpl in Hnul. apply andb_true_iff in Hnul as [Hc Hrest].
  apply negb_true_iff in Hc. cbn [has_traversal]. rewrite Hc.
  destruct (Ascii.eqb c "." && Ascii.eqb (char_at rest 0) "."
            && match prev with Some q => is_sep q | None => true end
            && (Ascii.eqb (char_at rest 1) NUL || is_sep (char_at rest 1)))
    eqn:Hhit.
  - intros _. apply andb_true_iff in Hhit as [Hhit Hafter].
    apply andb_true_iff in Hhit as [Hhit Hprev].
    apply andb_true_iff in Hhit as [Hdot Hdot2].
    apply Ascii.eqb_eq in Hdot as ->.
    destruct (char_at_0_eq rest "." Hrest ltac:(done) Hdot2) as [post ->].
    exists "", post. split; [done|]. split; [by destruct prev|].
    simpl in Hrest.
    change (char_at (String "." post) 1) with (char_at post 0) in Hafter.
    by apply char_at_0_boundary.
  - intros (pre & post & -> & Hpre & Hpost)%IH; [|done].
    exists (String c pre), post. split; [done|]. split; [|done].
    destruct pre as [|d pre'].
    + by exists "", c.
    + destruct Hpre as (p0 & e & -> & He). by exists (String c p0), e.
Qed.

(** X1.  A NUL-free path that the gate rejects is absolute, starts with a drive
    designator, or holds a [..] component. *)
Theorem isPathSafe_rejects_only :
  forall s,
    nul_free s = true -> isPathSafe (Some s) = false ->
    (exists r, s = String "/" r)
    \/ (exists c r, ascii_letter c /\ s = String c (String ":" r))
    \/ (exists pre post,
          s = pre +:+ ".." +:+ post
          /\ ends_component pre /\ starts_component post).
Proof.
  intros s Hnul. unfold isPathSafe.
  destruct (Ascii.eqb (char_at s 0) NUL); [done|].
  destruct (Ascii.eqb (char_at s 0) "/") eqn:Hslash.
  { intros _. left. by apply char_at_0_eq. }
  destruct (is_drive_letter (char_at s 0) && Ascii.eqb (char_at s 1) ":")
    eqn:Hdrive.
  { intros _. right. left. apply andb_true_iff in Hdrive as [Hl Hcolon].
    destruct s as [|c r]; [done|]. exists c.
    change (char_at (String c r) 0) with c in Hl.
    change (char_at (String c r) 1) with (char_at r 0) in Hcolon.
    simpl in Hnul. apply andb_true_iff in Hnul as [_ Hr].
    destruct (char_at_0_eq r ":" Hr ltac:(done) Hcolon) as [r' ->].
    exists r'. split; [by apply is_drive_letter_inv|done]. }
  intros Hscan%negb_false_iff. right. right.
  destruct (has_traversal_inv s None Hnul Hscan) as (pre & post & -> & Hpre & Hpost).
  exists pre, post. split; [done|]. split; [|done].
  destruct pre; [by left|by right].
Qed.

Lemma isPathSafe_rejects_only_witness :
  (exists r, "a/../b" = String "/" r)
  \/ (exists c r, ascii_letter c /\ "a/../b" = String c (String ":" r))
  \/ (exists pre post,
        "a/../b" = pre +:+ ".." +:+ post
        /\ ends_component pre /\ starts_component post).
Proof. exact (isPathSafe_rejects_only "a/../b" eq_refl eq_refl). Defined.

(** ** Wrong mode *)

Lemma checkOpen_no_writer st :
  closed (self st) = false -> write_archive (self st) = None ->
  checkOpen true st
  = (false, raise "TAR-ERROR" "archive is not open for writing" st).
Proof. intros Hc Hw. unfold checkOpen. by rewrite Hc, Hw. Qed.

Lemma checkOpen_no_reader st :
  closed (self st) = false -> read_archive (self st) = None ->
  in_memory (self st) = false ->
  checkOpen false st
  = (false, raise "TAR-ERROR" "archive is not open for reading" st).
Proof. intros Hc Hr Hm. unfold checkOpen. by rewrite Hc, Hr, Hm. Qed.

(** X2.  On an open session without a write coder (a session opened for reading,
    or one whose writer [toData] has finalized) every operation that writes
    raises the TAR-ERROR "archive is not open for writing" and changes
    nothing; on an open file- or stream-backed session without a read coder
    every operation that reads raises "archive is not open for reading" and
    changes nothing. *)
Theorem wrong_mode_is_refused :
  forall E st,
    closed (self st) = false ->
    (write_archive (self st) = None ->
     let failed := raise "TAR-ERROR" "archive is not open for writing" st in
     (forall name data opts, add E name data opts st = failed)
     /\ (forall name path opts, addFile E name path opts st = failed)
     /\ (forall name opts, addDirectory E name opts st = failed)
     /\ (forall name target opts, addSymlink E name target opts st = failed)
     /\ (forall name target opts, addHardlink E name target opts st = failed)
     /\ (forall name opts, openOutputStream E name opts st = (None, failed)))
    /\ (read_archive (self st) = None -> in_memory (self st) = false ->
        let failed := raise "TAR-ERROR" "archive is not open for reading" st in
        entries E st = (None, failed)
        /\ count E st = (-1, failed)
        /\ (forall name, hasEntry E name st = (false, failed))
        /\ (forall name, getEntry E name st = (None, failed))
        /\ (forall name, read E name st = (None, failed))
        /\ (forall dest opts, extractAll E dest opts st = failed)
        /\ (forall name dest, extractTo E name dest st = failed)
        /\ (forall name, openInputStream E name st = (None, failed))).
Proof.
  intros E st Hclosed. split.
  - intros Hw failed. pose proof (checkOpen_no_writer st Hclosed Hw) as Hc.
    fold failed in Hc.
    repeat match goal with |- _ /\ _ => split end; intros;
      unfold add, addFile, addDirectory, addSymlink, addHardlink,
        openOutputStream; by rewrite Hc.
  - intros Hr Hm failed.
    pose proof (checkOpen_no_reader st Hclosed Hr Hm) as Hc. fold failed in Hc.
    repeat match goal with |- _ /\ _ => split end; intros;
      unfold entries, count, hasEntry, getEntry, read, extractAll, extractTo,
        openInputStream; by rewrite Hc.
Qed.

Lemma wrong_mode_is_refused_witness :
  add sample_env "x" (Some hello) None read_sample
  = raise "TAR-ERROR" "archive is not open for writing" read_sample.
Proof.
  exact (proj1 (proj1 (wrong_mode_is_refused sample_env read_sample eq_refl)
                  eq_refl) "x" (Some hello) None).
Defined.

(** ** Closing and exporting *)

(** X3.  [close] on an open session releases both coders, marks the session
    closed and raises nothing; the trailing bytes of the write coder go to
    the memory buffer of a memory-backed session and to the file or stream
    otherwise; the destructor does what [close] does; closing again, or
    destroying the closed session, changes nothing. *)
Theorem close_releases_coders :
  forall E st,
    closed (self st) = false ->
    let st' := close E st in
    let trailer :=
      match write_archive (self st) with
      | Some wa => archive_write_close E wa
      | None => []
      end in
    closed (self st') = true
    /\ read_archive (self st') = None
    /\ write_archive (self st') = None
    /\ xsink st' = xsink st
    /\ w_disk (world st') = w_disk (world st)
    /\ w_files (world st') = w_files (world st)
    /\ (if in_memory (self st)
        then memory_buffer (self st') = memory_buffer (self st) ++ trailer
             /\ w_out (world st') = w_out (world st)
        else memory_buffer (self st') = memory_buffer (self st)
             /\ w_out (world st') = w_out (world st) ++ trailer)
    /\ QoreTarFile_destroy E st = st'
    /\ close E st' = st'
    /\ QoreTarFile_destroy E st' = st'.
Proof.
  intros E [[fp md ra wa cm cl fmt im c mb mp ins outs] [wo wd wf wi] xs]
    Hclosed st' trailer.
  cbn [self closed] in Hclosed. subst c. subst trailer.
  destruct ra, wa, im, ins; cbn [self write_archive in_memory];
    rewrite ?app_nil_r; split_and!; reflexivity.
Qed.

Lemma close_releases_coders_witness :
  memory_buffer (self (close sample_env write_sample))
  = memory_buffer (self write_sample) ++ [Byte.x00; Byte.x00]
  /\ w_out (world (close sample_env write_sample)) = [].
Proof.
  pose proof (close_releases_coders sample_env write_sample eq_refl) as H.
  cbv zeta in H. destruct H as (_ & _ & _ & _ & _ & _ & H & _).
  exact H.
Defined.

Lemma toData_cases E st :
  in_memory (self st) = true ->
  (exists wa,
     mode (self st) = TAR_MODE_WRITE /\ write_archive (self st) = Some wa
     /\ toData E st
        = (Some (memory_buffer (self st) ++ archive_write_close E wa),
           on_self (with_write_archive None)
             (deliver (archive_write_close E wa) st)))
  \/ ((mode (self st) <> TAR_MODE_WRITE \/ write_archive (self st) = None)
      /\ toData E st = (Some (memory_buffer (self st)), st)).
Proof.
  intros Hm.
  destruct (mode (self st)) eqn:Hmode;
    try (right; split; [by left|apply toData_snapshot; [done|]; left; congruence]).
  destruct (write_archive (self st)) as [wa|] eqn:Hwa.
  - left. exists wa. split; [done|]. split; [done|]. by apply toData_finalizes.
  - right. split; [by right|]. apply toData_snapshot; [done|by right].
Qed.

Lemma close_no_writer E st :
  write_archive (self st) = None ->
  memory_buffer (self (close E st)) = memory_buffer (self st).
Proof.
  destruct st as [[fp md ra wa cm cl fmt im c mb mp ins outs] [wo wd wf wi] xs].
  cbn [self write_archive]. intros ->.
  destruct c, ra, im, ins; reflexivity.
Qed.

(** X4.  [toData] on a memory-backed session finalizes the write coder once: a
    second call returns the same bytes and changes nothing, no exception is
    raised, and a [close] after it adds nothing to the buffer.  On a session
    in write mode the writer is gone afterwards, so that [add] fails. *)
Theorem toData_finalizes_once :
  forall E st,
    in_memory (self st) = true ->
    let r := toData E st in
    toData E (snd r) = r
    /\ xsink (snd r) = xsink st
    /\ closed (self (snd r)) = closed (self st)
    /\ (mode (self st) = TAR_MODE_WRITE ->
        write_archive (self (snd r)) = None
        /\ memory_buffer (self (close E (snd r))) = memory_buffer (self (snd r))
        /\ (closed (self st) = false ->
            forall name data opts,
              add E name data opts (snd r)
              = raise "TAR-ERROR" "archive is not open for writing" (snd r))).
Proof.
  intros E st Hm r.
  destruct (toData_cases E st Hm) as [(wa & Hmode & Hwa & Hr)|[Hno Hr]];
    subst r; rewrite Hr; cbn [snd].
  - set (st1 := on_self (with_write_archive None)
                  (deliver (archive_write_close E wa) st)).
    assert (Hm1 : in_memory (self st1) = true).
    { subst st1. unfold deliver. by rewrite Hm. }
    assert (Hw1 : write_archive (self st1) = None).
    { subst st1. unfold deliver. by rewrite Hm. }
    assert (Hb1 : memory_buffer (self st1)
                  = memory_buffer (self st) ++ archive_write_close E wa).
    { subst st1. unfold deliver. by rewrite Hm. }
    assert (Hc1 : closed (self st1) = closed (self st)).
    { subst st1. unfold deliver. by rewrite Hm. }
    split.
    { rewrite (toData_snapshot E st1 Hm1 (or_intror Hw1)). by rewrite Hb1. }
    split; [subst st1; unfold deliver; by rewrite Hm|].
    split; [done|]. intros _. split; [done|]. split.
    + by apply close_no_writer.
    + intros Hcl name data opts. unfold add.
      rewrite checkOpen_no_writer; [done| |done]. by rewrite Hc1.
  - split; [by rewrite Hr|]. split; [done|]. split; [done|].
    intros Hmode. destruct Hno as [Hno|Hno]; [done|].
    split; [done|]. split.
    + by apply close_no_writer.
    + intros Hcl name data opts. unfold add.
      by rewrite checkOpen_no_writer.
Qed.

Lemma toData_finalizes_once_witness :
  toData sample_env (snd (toData sample_env write_sample))
  = toData sample_env write_sample.
Proof.
  exact (proj1 (toData_finalizes_once sample_env write_sample eq_refl)).
Defined.

(** ** Enumeration and lookup *)

(** X5.  [count] walks the archive as [entries] does: it leaves the session in
    the same state and returns the number of records [entries] returns, or
    -1 where [entries] returns [nullptr]. *)
Theorem count_is_length_of_entries :
  forall E st,
    snd (count E st) = snd (entries E st)
    /\ fst (count E st)
       = match fst (entries E st) with
         | Some infos => Z.of_nat (length infos)
         | None => -1
         end.
Proof.
  intros E st. unfold count, entries.
  destruct (checkOpen false st) as [[] st1]; [|done]. cbn [negb].
  destruct (pending (xsink (reopenRead E st1))) eqn:Hp; [done|].
  rewrite (entries_loop_all _ _ _ Hp). cbn. by rewrite length_fmap.
Qed.

Lemma createEntryInfo_name e :
  createEntryInfo e !! "name" = Some (QString (c_str (pathname e))).
Proof. by lookup_info. Qed.



Lemma reopenRead_state E st ms :
  in_memory (self st) = true \/ input_stream (self st) = false ->
  env_read_new E = true ->
  backing_members E st = Some ms ->
  reopenRead E st
  = on_self (fun s => with_memory_pos 0
                        (with_read_archive (Some (reader_of ms)) s)) st.
Proof.
  unfold backing_members.
  destruct st as [[fp md ra wa cm cl fmt im c mb mp ins outs] [wo wd wf wi] xs].
  cbn [self in_memory input_stream]. intros Hback.
  assert (Hcase : im = true \/ (im = false /\ ins = false)).
  { destruct im; [by left|right]. by destruct Hback. }
  clear Hback.
  unfold reopenRead, openRead, release_reader, pulled, on_self, on_world.
  cbn [self world xsink read_archive in_memory input_stream memory_buffer
       filepath with_read_archive with_memory_pos negb andb w_in w_out w_disk
       w_files memory_pos closed].
  intros -> Hb. cbn [negb].
  destruct Hcase as [-> | [-> ->]]; destruct ra; cbn [negb andb] in *;
    try destruct mb;
    cbn [self world xsink read_archive in_memory input_stream memory_buffer
         filepath with_read_archive with_memory_pos negb andb w_in w_out
         w_disk w_files memory_pos closed] in *;
    rewrite ?Hb; try done; by injection Hb as <-.
Qed.

Lemma reopenRead_pending_inv E st :
  pending (xsink (reopenRead E st)) = false ->
  env_read_new E = true /\ exists ms, backing_members E st = Some ms.
Proof.
  unfold backing_members.
  destruct st as [[fp md ra wa cm cl fmt im c mb mp ins outs] [wo wd wf wi] xs].
  unfold reopenRead, openRead, release_reader, pulled, on_self, on_world.
  cbn [self world xsink read_archive in_memory input_stream memory_buffer
       filepath with_read_archive with_memory_pos negb andb w_in w_out w_disk
       w_files memory_pos closed].
  destruct (env_read_new E); cbn [negb]; [|by rewrite pending_raise].
  intros Hp. split; [done|]. revert Hp.
  destruct ra, im; cbn [negb andb] in *;
    try destruct mb; try destruct ins;
    cbn [self world xsink read_archive in_memory input_stream memory_buffer
         filepath with_read_archive with_memory_pos negb andb w_in w_out
         w_disk w_files memory_pos closed] in *;
    try (intros _; by eexists);
    (destruct (env_read_open E _) eqn:Ho; [intros _; by eexists|
       by rewrite pending_raise]).
Qed.

Lemma reopenRead_after_query E st a :
  in_memory (self st) = true \/ input_stream (self st) = false ->
  pending (xsink (reopenRead E st)) = false ->
  reopenRead E (set_reader a (reopenRead E st)) = reopenRead E st.
Proof.
  intros Hback Hp.
  destruct (reopenRead_pending_inv E st Hp) as [Hnew [ms Hms]].
  rewrite (reopenRead_state E st ms Hback Hnew Hms).
  rewrite (reopenRead_state E _ ms); [| |done|].
  - by destruct st as [[]].
  - by destruct st as [[]].
  - revert Hback Hms. unfold backing_members.
    destruct st as [[fp md ra wa cm cl fmt im c mb mp ins outs] [wo wd wf wi] xs].
    cbn [self in_memory input_stream]. destruct im; [done|].
    intros [? | ->]; done.
Qed.

Lemma reopenRead_closed E st :
  closed (self (reopenRead E st)) = closed (self st).
Proof.
  destruct st as [[fp md ra wa cm cl fmt im c mb mp ins outs] [wo wd wf wi] xs].
  unfold reopenRead, openRead, release_reader, pulled.
  destruct ra, im, ins; cbn; (destruct (env_read_new E); cbn; [|done]);
    try (destruct mb; cbn; [done|]); by destruct (env_read_open E _).
Qed.

Lemma same_answers_after E st a :
  closed (self st) = false ->
  is_Some (read_archive (self st)) \/ in_memory (self st) = true ->
  in_memory (self st) = true \/ input_stream (self st) = false ->
  pending (xsink (reopenRead E st)) = false ->
  same_answers E st (set_reader a (reopenRead E st)).
Proof.
  intros Hclosed Hopen Hback Hp.
  pose proof (checkOpen_read_ok st Hclosed Hopen) as Hc.
  assert (Hc' : checkOpen false (set_reader a (reopenRead E st))
                = (true, set_reader a (reopenRead E st))).
  { apply checkOpen_read_ok; [|left; by eexists].
    cbn. by rewrite reopenRead_closed. }
  pose proof (reopenRead_after_query E st a Hback Hp) as Hre.
  unfold same_answers, entries, count, hasEntry, getEntry, read,
    openInputStream, extractTo, extractAll.
  rewrite Hc, Hc'. cbn [negb].
  pose proof (reopenRead_not_pending E st Hp) as Hxs0.
  assert (Hxs : xsink (set_reader a (reopenRead E st)) = []).
  { cbn. by destruct (xsink (reopenRead E st)). }
  rewrite Hre, Hxs, Hxs0. cbn [pending].
  repeat match goal with |- _ /\ _ => split end; intros;
    by rewrite ?andb_false_r.
Qed.

(** X7.  On a session backed by a file or by memory (not by an input stream,
    which nothing rewinds), a query that succeeds leaves the session such
    that every later query gives what it would have given before: the reader
    is reopened from the start each time, nothing is kept from one call to
    the next. *)
Theorem queries_are_repeatable :
  forall E st,
    closed (self st) = false ->
    is_Some (read_archive (self st)) \/ in_memory (self st) = true ->
    in_memory (self st) = true \/ input_stream (self st) = false ->
    pending (xsink (reopenRead E st)) = false ->
    same_answers E st (snd (count E st))
    /\ same_answers E st (snd (entries E st))
    /\ (forall name, same_answers E st (snd (hasEntry E name st)))
    /\ (forall name, same_answers E st (snd (getEntry E name st))).
Proof.
  intros E st Hclosed Hopen Hback Hp.
  pose proof (checkOpen_read_ok st Hclosed Hopen) as Hc.
  repeat match goal with |- _ /\ _ => split end; intros;
    unfold count, entries, hasEntry, getEntry; rewrite Hc; cbn [negb];
    rewrite Hp.
  - by apply same_answers_after.
  - rewrite (entries_loop_all _ _ _ Hp). by apply same_answers_after.
  - destruct (find_entry _ _) as [[m post]|]; by apply same_answers_after.
  - destruct (find_entry _ _) as [[m post]|]; by apply same_answers_after.
Qed.

Lemma queries_are_repeatable_witness :
  read sample_env "b.txt" (snd (hasEntry sample_env "a.txt" read_sample))
  = read sample_env "b.txt" read_sample.
Proof.
  pose proof (queries_are_repeatable sample_env read_sample eq_refl
                (or_intror eq_refl) (or_introl eq_refl) eq_refl)
    as (_ & _ & H & _).
  destruct (H "a.txt") as (_ & _ & _ & _ & Hread & _).
  exact (Hread "b.txt").
Defined.

(** ** The empty in-memory archive *)

(** X8.  A session made from no data, or from an empty buffer, is open and holds
    no entry, whatever the codec would make of the bytes: it is never asked.
    Queries leave the session as it is. *)
Theorem empty_memory_archive :
  forall E data w,
    env_read_new E = true ->
    data = None \/ data = Some [] ->
    let st := QoreTarFile_from_data E data w [] in
    xsink st = []
    /\ closed (self st) = false
    /\ count E st = (0, st)
    /\ entries E st = (Some [], st)
    /\ (forall name, hasEntry E name st = (false, st))
    /\ (forall name, getEntry E name st = (None, st))
    /\ (forall name,
          read E name st
          = (None,
             raise "TAR-ERROR" ("entry '" +:+ c_str name +:+ "' not found") st))
    /\ toData E st = (Some [], st).
Proof.
  intros E data w Hnew Hdata st.
  assert (Hst : st
    = {| self :=
           {| filepath := ""; mode := TAR_MODE_READ;
              read_archive := Some (reader_of []); write_archive := None;
              compression_method := TAR_CM_NONE; compression_level := -1;
              format := TAR_FORMAT_PAX; in_memory := true; closed := false;
              memory_buffer := []; memory_pos := 0; input_stream := false;
              output_stream := false |};
         world := w; xsink := [] |}).
  { subst st. unfold QoreTarFile_from_data, openRead. rewrite Hnew.
    by destruct Hdata as [-> | ->]. }
  assert (Hre : reopenRead E st = st).
  { rewrite Hst. unfold reopenRead, openRead. cbn. by rewrite Hnew. }
  rewrite Hst in Hre |- *. clear Hst st.
  unfold count, entries, hasEntry, getEntry, read, toData.
  cbn [checkOpen self closed read_archive negb]. rewrite Hre.
  by repeat split.
Qed.

Lemma empty_memory_archive_witness :
  count sample_env (QoreTarFile_from_data sample_env None empty_world [])
  = (0, QoreTarFile_from_data sample_env None empty_world []).
Proof.
  pose proof (empty_memory_archive sample_env None empty_world eq_refl
                (or_introl eq_refl)) as H.
  cbv zeta in H. exact (proj1 (proj2 (proj2 H))).
Defined.

(** ** Adding entries *)

Lemma checkOpen_write_ok st wa :
  closed (self st) = false -> write_archive (self st) = Some wa ->
  checkOpen true st = (true, st).
Proof. intros Hc Hw. unfold checkOpen. by rewrite Hc, Hw. Qed.

Lemma write_header_call_spec E e st wa :
  write_archive (self st) = Some wa ->
  exists st',
    write_header_call E e st = (env_write_header E wa e, st')
    /\ write_archive (self st') = Some (wa ++ [WHeader e])
    /\ xsink st' = xsink st
    /\ closed (self st') = closed (self st)
    /\ read_archive (self st') = read_archive (self st)
    /\ in_memory (self st') = in_memory (self st)
    /\ mode (self st') = mode (self st)
    /\ (if in_memory (self st)
        then memory_buffer (self st')
             = memory_buffer (self st) ++ env_pushed E wa (Some (WHeader e))
        else memory_buffer (self st') = memory_buffer (self st)).
Proof.
  intros Hw. unfold write_header_call, archive_write_header, deliver.
  rewrite Hw. eexists. split; [done|].
  cbn [self on_self in_memory with_write_archive].
  by destruct (in_memory (self st)) eqn:Hm.
Qed.

Lemma write_data_call_spec E b st wa :
  write_archive (self st) = Some wa ->
  exists st',
    write_data_call E b st = (env_write_data E wa b, st')
    /\ write_archive (self st') = Some (wa ++ [WData b])
    /\ xsink st' = xsink st
    /\ closed (self st') = closed (self st)
    /\ read_archive (self st') = read_archive (self st)
    /\ in_memory (self st') = in_memory (self st)
    /\ mode (self st') = mode (self st)
    /\ (if in_memory (self st)
        then memory_buffer (self st')
             = memory_buffer (self st) ++ env_pushed E wa (Some (WData b))
        else memory_buffer (self st') = memory_buffer (self st)).
Proof.
  intros Hw. unfold write_data_call, archive_write_data, deliver.
  rewrite Hw. eexists. split; [done|].
  cbn [self on_self in_memory with_write_archive].
  by destruct (in_memory (self st)) eqn:Hm.
Qed.

(** The header [add] builds. *)
Lemma add_unfold E name data opts st wa :
  closed (self st) = false -> write_archive (self st) = Some wa ->
  xsink st = [] -> env_entry_new E = true ->
  exists e,
    pathname e = c_str name
    /\ size e = Z.of_nat (length (default [] data))
    /\ filetype e = AE_IFREG
    /\ perm e = mode_val (parseAddOptions opts add_defaults)
    /\ mtime e
       = Some (if 0 <? modified_time (parseAddOptions opts add_defaults)
               then modified_time (parseAddOptions opts add_defaults)
               else env_time E)
    /\ hardlink e = None /\ symlink e = None
    /\ add E name data opts st
       = let (r, st) := write_header_call E e st in
         if negb (r =? ARCHIVE_OK) then
           raise "TAR-ERROR"
             ("failed to write entry header: " +:+ get_archive_error E) st
         else
           match default [] data with
           | [] => st
           | (_ :: _) as d =>
               let (written, st) := write_data_call E d st in
               if (written <? 0) || negb (written =? Z.of_nat (length d)) then
                 raise "TAR-ERROR"
                   ("failed to write entry data: " +:+ get_archive_error E) st
               else st
           end.
Proof.
  intros Hc Hw Hxs Hnew. unfold add.
  rewrite (checkOpen_write_ok st wa Hc Hw). cbn [negb].
  rewrite Hxs, Hnew. cbn [pending negb]. rewrite andb_false_r.
  set (o := parseAddOptions opts add_defaults).
  eexists. do 7 (split; [shelve|]). reflexivity.
  Unshelve.
  all: destruct (0 <? uid_val o), (0 <? gid_val o),
      (String.eqb (uname_val o) ""), (String.eqb (gname_val o) ""),
      (0 <? modified_time o); reflexivity.
Qed.

(** X9.  [add] on a session open for writing makes one header call for a regular
    file named as asked, whose size is the length of the data.  The value it
    hands to [archive_entry_set_perm] is the mode of the options, [0644]
    when there are no options; the modification time it sets is the one of
    the options when that is positive, and the current time otherwise, also
    when the options give a time that is zero or negative.  When the coder
    accepts the header it is followed by one data call with the whole
    payload, or by none when there is no data; when the coder takes the
    whole payload nothing is raised. *)
Theorem add_emits_one_entry :
  forall E name data opts st wa,
    closed (self st) = false -> write_archive (self st) = Some wa ->
    xsink st = [] -> env_entry_new E = true ->
    let st' := add E name data opts st in
    let payload := default [] data in
    let o := parseAddOptions opts add_defaults in
    exists e tail,
      write_archive (self st') = Some (wa ++ WHeader e :: tail)
      /\ pathname e = c_str name
      /\ size e = Z.of_nat (length payload)
      /\ filetype e = AE_IFREG
      /\ perm e = mode_val o
      /\ (opts = None -> perm e = 420)
      /\ mtime e
         = Some (if 0 <? modified_time o then modified_time o else env_time E)
      /\ createEntryInfo e !! "type" = Some (QString "file")
      /\ (tail = [] \/ tail = [WData payload])
      /\ (env_write_header E wa e = ARCHIVE_OK ->
          tail = match payload with [] => [] | _ :: _ => [WData payload] end
          /\ (env_write_data E (wa ++ [WHeader e]) payload
              = Z.of_nat (length payload) ->
              xsink st' = [])).
Proof.
  intros E name data opts st wa Hc Hw Hxs Hnew st' payload o.
  destruct (add_unfold E name data opts st wa Hc Hw Hxs Hnew)
    as (e & Hp & Hs & Hf & Hperm & Hm & Hh & Hsl & Hadd).
  destruct (write_header_call_spec E e st wa Hw)
    as (st1 & Hcall & Hw1 & Hx1 & _).
  assert (Htype : createEntryInfo e !! "type" = Some (QString "file")).
  { rewrite createEntryInfo_type, Hh, Hf. done. }
  subst st'. rewrite Hadd, Hcall. fold payload. fold payload in Hs.
  destruct (env_write_header E wa e =? ARCHIVE_OK) eqn:Hr; cbn [negb].
  - destruct payload as [|b rest] eqn:Hpay.
    + exists e, []. rewrite Hw1.
      split_and!; try done; try (by intros ->; rewrite Hperm);
        try (by left).
      intros _. split; [done|]. intros _. by rewrite Hx1, Hxs.
    + destruct (write_data_call_spec E (b :: rest) st1 _ Hw1)
        as (st2 & Hcall2 & Hw2 & Hx2 & _).
      rewrite Hcall2. exists e, [WData (b :: rest)].
      assert (Hfinal : forall st3,
        write_archive (self (raise "TAR-ERROR" st3 st2))
        = Some (wa ++ [WHeader e; WData (b :: rest)])).
      { intros. cbn. by rewrite Hw2, <- app_assoc. }
      split_and!; try done; try (by intros ->; rewrite Hperm);
        try (by right).
      { destruct (_ || _); [apply Hfinal|].
        by rewrite Hw2, <- app_assoc. }
      intros _. split; [done|].
      intros Hd. rewrite Hd. rewrite Z.eqb_refl.
      destruct (Z.ltb_spec (Z.of_nat (length (b :: rest))) 0); [lia|].
      cbn. by rewrite Hx2, Hx1.
  - exists e, []. cbn. rewrite Hw1.
    split_and!; try done; try (by intros ->; rewrite Hperm);
      try (by left).
    intros Hok. rewrite Hok in Hr. done.
Qed.

Lemma add_emits_one_entry_witness :
  exists e tail,
    write_archive (self write_sample) = Some ([] ++ WHeader e :: tail)
    /\ pathname e = "a.txt"
    /\ size e = 5
    /\ tail = [WData hello].
Proof.
  pose proof (add_emits_one_entry sample_env "a.txt" (Some hello) None
                (QoreTarFile_new_memory sample_env None None empty_world [])
                [] eq_refl eq_refl eq_refl eq_refl) as H.
  cbv zeta in H.
  destruct H as (e & tail & H1 & H2 & H3 & _ & _ & _ & _ & _ & _ & H10).
  exists e, tail. split; [exact H1|]. split; [exact H2|]. split; [exact H3|].
  exact (proj1 (H10 eq_refl)).
Defined.

Lemma deliver_nil st : deliver [] st = st.
Proof.
  destruct st as [[] [] ?].
  unfold deliver, on_self, on_world, with_memory_buffer. cbn.
  destruct in_memory0; cbn; by rewrite app_nil_r.
Qed.

Lemma deliver_app a b st : deliver b (deliver a st) = deliver (a ++ b) st.
Proof.
  destruct st as [[] [] ?].
  unfold deliver, on_self, on_world, with_memory_buffer. cbn.
  destruct in_memory0; cbn; by rewrite app_assoc.
Qed.

(** X10.  Writing an entry through the adapter is [add] with the buffered bytes and
    the permission bits of the options: a session open for writing hands out
    an adapter whatever the options are, and closing it after any calls of
    [write] leaves the session as [add] does with the bytes written and only
    the [mode] option; the owner, group and time options do not reach the
    header on this route. *)
Theorem stream_route_is_add :
  forall E name opts ws st wa,
    closed (self st) = false -> write_archive (self st) = Some wa ->
    xsink st = [] ->
    exists s,
      openOutputStream E name opts st = (Some s, st)
      /\ let out :=
           TarOutputStream_close E
             (write_calls ws {| o_stream := s; o_coder := wa; o_pushed := [];
                                o_xsink := [] |}) in
         let st1 :=
           deliver (o_pushed out)
             (on_self (with_write_archive (Some (o_coder out))) st) in
         add E name (Some (written_bytes ws))
           (Some (mode_only (opts ≫= ao_mode))) st
         = {| self := self st1; world := world st1; xsink := o_xsink out |}.
Proof.
  intros E name opts ws st wa Hc Hw Hxs.
  unfold openOutputStream. rewrite (checkOpen_write_ok st wa Hc Hw).
  rewrite Hxs. cbn [pending negb]. rewrite andb_false_r.
  eexists. split; [reflexivity|].
  rewrite write_calls_open by done.
  unfold add. rewrite (checkOpen_write_ok st wa Hc Hw).
  rewrite Hxs. cbn [pending negb]. rewrite andb_false_r.
  unfold TarOutputStream_close.
  cbn [o_stream o_coder o_pushed o_xsink os_closed os_with buffer entry_name
       os_mode TarOutputStream_new app default].
  assert (Hmode : mode_val (parseAddOptions (Some (mode_only (opts ≫= ao_mode)))
                              add_defaults)
                  = mode_val (parseAddOptions opts add_defaults)).
  { by destruct opts as [[[m|] ? ? ? ? ?]|]. }
  destruct (env_entry_new E); cbn [negb].
  - unfold write_header_call, write_data_call, archive_write_header,
      archive_write_data.
    rewrite Hw.
    cbn [parseAddOptions mode_only add_defaults uid_val gid_val uname_val
         gname_val modified_time ao_uid ao_gid ao_uname ao_gname ao_modified
         default fmap option_fmap option_map Z.ltb Z.compare String.eqb].
    rewrite <- Hmode.
    cbn [parseAddOptions mode_only add_defaults mode_val ao_mode default].
    set (e := set_mtime _ _).
    destruct (env_write_header E wa e =? ARCHIVE_OK); cbn [negb].
    + destruct (written_bytes ws) as [|b rest] eqn:Hb.
      * destruct st as [[] [] ?].
        unfold deliver, on_self, on_world, with_memory_buffer,
          with_write_archive. cbn in *.
        subst. by destruct in_memory0.
      * set (d := b :: rest).
        destruct st as [[] [] ?].
        unfold deliver, raise, on_self, on_world, with_memory_buffer,
          with_write_archive. cbn in *.
        subst. destruct in_memory0; cbn;
          destruct (_ || _); cbn; by rewrite ?app_assoc.
    + destruct st as [[] [] ?].
      unfold deliver, raise, on_self, on_world, with_memory_buffer,
        with_write_archive. cbn in *.
      subst. by destruct in_memory0.
  - rewrite deliver_nil. destruct st as [[] [] ?]. unfold raise. cbn in *.
    by subst.
Qed.

Lemma stream_route_is_add_witness :
  exists s,
    openOutputStream sample_env "a.txt" None
      (QoreTarFile_new_memory sample_env None None empty_world [])
    = (Some s, QoreTarFile_new_memory sample_env None None empty_world [])
    /\ write_archive
         (self (add sample_env "a.txt" (Some (written_bytes [(hello, 5)]))
                  (Some (mode_only None))
                  (QoreTarFile_new_memory sample_env None None empty_world [])))
       = Some (o_coder
                 (TarOutputStream_close sample_env
                    (write_calls [(hello, 5)]
                       {| o_stream := s; o_coder := []; o_pushed := [];
                          o_xsink := [] |}))).
Proof.
  destruct (stream_route_is_add sample_env "a.txt" None [(hello, 5)]
              (QoreTarFile_new_memory sample_env None None empty_world [])
              [] eq_refl eq_refl eq_refl) as (s & Hs & Hadd).
  exists s. split; [exact Hs|].
  exact (f_equal (fun x => write_archive (self x)) Hadd).
Defined.

(** ** Directory and link entries *)

Lemma header_only_call E e msg st wa :
  write_archive (self st) = Some wa ->
  let st' :=
    (let (r, st1) := write_header_call E e st in
     if negb (r =? ARCHIVE_OK) then raise "TAR-ERROR" msg st1 else st1) in
  write_archive (self st') = Some (wa ++ [WHeader e])
  /\ xsink st'
     = xsink st ++ (if env_write_header E wa e =? ARCHIVE_OK then []
                    else [Exception "TAR-ERROR" msg]).
Proof.
  intros Hw.
  destruct (write_header_call_spec E e st wa Hw)
    as (st1 & Hcall & Hw1 & Hx1 & _).
  cbv zeta. rewrite Hcall.
  destruct (env_write_header E wa e =? ARCHIVE_OK); cbn [negb].
  - by rewrite app_nil_r.
  - cbn. unfold raiseException. by rewrite Hw1, Hx1.
Qed.

Lemma last_char s k c :
  String.length s = S k ->
  Ascii.eqb (char_at s k) c = true <-> ends_with s (String c "").
Proof.
  revert k. induction s as [|a r IH]; intros k Hlen; [done|].
  simpl in Hlen. injection Hlen as Hlen.
  destruct k as [|k'].
  - destruct r; [|done]. unfold char_at. simpl. rewrite Ascii.eqb_eq.
    split.
    + intros ->. by exists "".
    + intros [p Hp]. destruct p as [|b p']; simpl in Hp.
      * by injection Hp.
      * injection Hp as _ Hp. by destruct p'.
  - change (char_at (String a r) (S k')) with (char_at r k').
    rewrite (IH k' Hlen). split.
    + intros [p ->]. by exists (String a p).
    + intros [p Hp]. destruct p as [|b p']; simpl in Hp.
      * injection Hp as _ Hp. by subst r.
      * injection Hp as _ Hp. by exists p'.
Qed.

Lemma c_str_idem s : c_str (c_str s) = c_str s.
Proof.
  induction s as [|c r IH]; simpl; [done|].
  destruct (Ascii.eqb c NUL) eqn:Hc; simpl; [done|]. by rewrite Hc, IH.
Qed.

(** X11.  [addDirectory] on a session open for writing makes one header call and no
    data call, for a directory with the permissions [0755] and no size; the
    name is stored with exactly one slash added at its end unless it is empty
    or ends with a slash already, so that a name that is not empty is listed
    with a trailing slash; the options are not looked at. *)
Theorem addDirectory_normalises_name :
  forall E name opts st wa,
    closed (self st) = false -> write_archive (self st) = Some wa ->
    env_entry_new E = true ->
    exists e,
      write_archive (self (addDirectory E name opts st))
      = Some (wa ++ [WHeader e])
      /\ filetype e = AE_IFDIR /\ perm e = 493 /\ size e = 0
      /\ mtime e = Some (env_time E)
      /\ createEntryInfo e !! "type" = Some (QString "directory")
      /\ (c_str name = "" -> pathname e = "")
      /\ (ends_with (c_str name) "/" -> pathname e = c_str name)
      /\ (c_str name <> "" -> ~ ends_with (c_str name) "/" ->
          pathname e = c_str name +:+ "/")
      /\ (c_str name <> "" -> ends_with (pathname e) "/")
      /\ (env_write_header E wa e = ARCHIVE_OK ->
          xsink (addDirectory E name opts st) = xsink st)
      /\ addDirectory E name opts st = addDirectory E name None st.
Proof.
  intros E name opts st wa Hc Hw Hnew. unfold addDirectory.
  rewrite (checkOpen_write_ok st wa Hc Hw), Hnew. cbn [negb].
  set (dirname := match String.length (c_str name) with
                  | O => c_str name
                  | S k => if Ascii.eqb (char_at (c_str name) k) "/"
                           then c_str name else c_str name +:+ "/"
                  end).
  set (e := set_mtime _ _).
  destruct (header_only_call E e
              ("failed to write directory entry: " +:+ get_archive_error E)
              st wa Hw) as [Htr Hxs].
  exists e. cbv zeta in Htr, Hxs.
  assert (Hpath : pathname e = dirname) by done.
  split_and!; try done.
  - intros Hn. rewrite Hpath. subst dirname. by rewrite Hn.
  - intros Hend. rewrite Hpath. subst dirname.
    destruct (String.length (c_str name)) as [|k] eqn:Hlen; [done|].
    apply (last_char _ _ _ Hlen) in Hend. by rewrite Hend.
  - intros Hn Hend. rewrite Hpath. subst dirname.
    destruct (String.length (c_str name)) as [|k] eqn:Hlen.
    { by destruct (c_str name). }
    destruct (Ascii.eqb (char_at (c_str name) k) "/") eqn:Hk; [|done].
    by apply (last_char _ _ _ Hlen) in Hk.
  - intros Hn. rewrite Hpath. subst dirname.
    destruct (String.length (c_str name)) as [|k] eqn:Hlen.
    { by destruct (c_str name). }
    destruct (Ascii.eqb (char_at (c_str name) k) "/") eqn:Hk.
    + by apply (last_char _ _ _ Hlen).
    + by exists (c_str name).
  - intros Hok. rewrite Hxs, Hok. cbn. by rewrite app_nil_r.
Qed.

Lemma addDirectory_normalises_name_witness :
  exists e,
    write_archive
      (self (addDirectory sample_env "docs" None
               (QoreTarFile_new_memory sample_env None None empty_world [])))
    = Some ([] ++ [WHeader e])
    /\ pathname e = "docs/".
Proof.
  destruct (addDirectory_normalises_name sample_env "docs" None
              (QoreTarFile_new_memory sample_env None None empty_world [])
              [] eq_refl eq_refl eq_refl)
    as (e & H1 & _ & _ & _ & _ & _ & _ & _ & H9 & _).
  exists e. split; [exact H1|].
  apply H9; [done|].
  intros [p Hp]. by destruct p as [|? [|? [|? [|? [|? ?]]]]].
Defined.

Lemma createEntryInfo_link_target e :
  createEntryInfo e !! "link_target"
  = (fun s => QString (c_str s))
      <$> (match symlink e with Some l => Some l | None => hardlink e end).
Proof.
  lookup_info;
    (destruct (symlink e) as [l|]; [|destruct (hardlink e) as [l|]];
     cbn [set_key fmap option_fmap option_map];
     [by rewrite lookup_insert_eq..|]);
    repeat first
      [ rewrite lookup_insert_ne by done
      | rewrite lookup_set_key_ne by done ];
    done.
Qed.

(** X12.  [addSymlink] and [addHardlink] on a session open for writing make one
    header call and no data call.  The symlink header has the symlink file
    type, the permissions [0777] and the target; the hardlink header has the
    target and no file type and no permissions, so that it is listed as a
    hardlink when the target is not empty and with the type [unknown] when it
    is empty, the flag [is_hardlink] being set in both cases.  The options
    are not looked at. *)
Theorem link_entries_are_headers_only :
  forall E name target opts st wa,
    closed (self st) = false -> write_archive (self st) = Some wa ->
    env_entry_new E = true ->
    (exists e,
       write_archive (self (addSymlink E name target opts st))
       = Some (wa ++ [WHeader e])
       /\ pathname e = c_str name /\ symlink e = Some (c_str target)
       /\ hardlink e = None
       /\ filetype e = AE_IFLNK /\ perm e = 511 /\ size e = 0
       /\ createEntryInfo e !! "type" = Some (QString "symlink")
       /\ createEntryInfo e !! "link_target" = Some (QString (c_str target))
       /\ addSymlink E name target opts st = addSymlink E name target None st)
    /\ (exists e,
       write_archive (self (addHardlink E name target opts st))
       = Some (wa ++ [WHeader e])
       /\ pathname e = c_str name /\ hardlink e = Some (c_str target)
       /\ symlink e = None
       /\ filetype e = 0 /\ perm e = 0 /\ size e = 0
       /\ createEntryInfo e !! "is_hardlink" = Some (QBool true)
       /\ createEntryInfo e !! "type"
          = Some (QString (if String.eqb (c_str target) "" then "unknown"
                           else "hardlink"))
       /\ createEntryInfo e !! "link_target" = Some (QString (c_str target))
       /\ addHardlink E name target opts st
          = addHardlink E name target None st).
Proof.
  intros E name target opts st wa Hc Hw Hnew. split.
  - unfold addSymlink.
    rewrite (checkOpen_write_ok st wa Hc Hw), Hnew. cbn [negb].
    set (e := set_mtime _ _).
    destruct (header_only_call E e
                ("failed to write symlink entry: " +:+ get_archive_error E)
                st wa Hw) as [Htr _].
    exists e. split_and!; try done.
    + rewrite createEntryInfo_link_target.
      change (symlink e) with (Some (c_str target)). cbn.
      by rewrite c_str_idem.
  - unfold addHardlink.
    rewrite (checkOpen_write_ok st wa Hc Hw), Hnew. cbn [negb].
    set (e := set_mtime _ _).
    destruct (header_only_call E e
                ("failed to write hardlink entry: " +:+ get_archive_error E)
                st wa Hw) as [Htr _].
    exists e. split_and!; try done.
    + rewrite createEntryInfo_type.
      change (hardlink e) with (Some (c_str target)).
      change (filetype e) with 0.
      unfold c_nonempty.
      destruct (Ascii.eqb (char_at (c_str target) 0) NUL) eqn:Hz.
      * apply c_empty_c_str in Hz. rewrite c_str_idem in Hz. by rewrite Hz.
      * destruct (String.eqb_spec (c_str target) "") as [He|]; [|done].
        rewrite He in Hz. done.
    + rewrite createEntryInfo_link_target.
      change (symlink e) with (@None string).
      change (hardlink e) with (Some (c_str target)). cbn.
      by rewrite c_str_idem.
Qed.

Lemma link_entries_are_headers_only_witness :
  exists e,
    write_archive
      (self (addHardlink sample_env "h" "a.txt" None
               (QoreTarFile_new_memory sample_env None None empty_world [])))
    = Some ([] ++ [WHeader e])
    /\ createEntryInfo e !! "type" = Some (QString "hardlink").
Proof.
  destruct (link_entries_are_headers_only sample_env "h" "a.txt" None
              (QoreTarFile_new_memory sample_env None None empty_world [])
              [] eq_refl eq_refl eq_refl)
    as (_ & e & H1 & _ & _ & _ & _ & _ & _ & _ & H9 & _).
  exists e. split; [exact H1|exact H9].
Defined.

(** ** The read adapter *)

(** X13.  The read adapter hands out the bytes of the entry in order and loses
    none.  [peek] never changes what is still to be handed out, whether it
    pulls a byte from the coder or not, and a byte it returns is the first of
    them.  A [read] that does not fail stores a prefix of what was still to
    be handed out and leaves the rest; it returns the number of bytes stored,
    which is at most [limit], counts them as delivered and raises nothing. *)
Theorem read_adapter_keeps_order :
  (forall E s a xs,
     let p := TarInputStream_peek E s a xs in
     stream_ahead (pr_stream p) (pr_coder p) = stream_ahead s a
     /\ bytes_read (pr_stream p) = bytes_read s
     /\ (0 <= pr_return p -> is_closed s = false ->
         exists rest, stream_ahead s a = Z_to_byte (pr_return p) :: rest))
  /\ (forall E limit s a xs,
        let r := TarInputStream_read E limit s a xs in
        0 <= rr_return r ->
        rr_buffer r ++ stream_ahead (rr_stream r) (rr_coder r)
        = stream_ahead s a
        /\ rr_return r = Z.of_nat (length (rr_buffer r))
        /\ rr_return r <= Z.max 0 limit
        /\ bytes_read (rr_stream r) = bytes_read s + rr_return r
        /\ rr_xsink r = xs).
Proof.
  split.
  - intros E s a xs p. subst p. unfold TarInputStream_peek, stream_ahead.
    destruct (is_closed s); [by split_and!; try done; try (cbn; lia)|].
    destruct (has_peek s) eqn:Hp.
    { cbn. rewrite Hp. split_and!; try done; try (intros _ _; by eexists). }
    destruct (entry_size s <=? bytes_read s).
    { cbn. rewrite Hp. split_and!; try done; try (cbn; lia). }
    unfold archive_read_data.
    destruct (rh_data a) as [|b rest] eqn:Hd.
    { destruct (rh_damaged a); cbn; rewrite Hp, Hd;
        split_and!; try done; try (cbn; lia). }
    assert (Hn : Z.to_nat (Z.min 1 (Z.of_nat (length (b :: rest)))) = 1%nat).
    { cbn [length]. lia. }
    rewrite Hn. change (Z.of_nat 1) with 1. cbn.
    rewrite Z_to_byte_to_Z. split_and!; try done.
    intros _ _. by eexists.
  - intros E limit s a xs r. subst r.
    unfold TarInputStream_read, stream_ahead.
    destruct (is_closed s); [cbn; lia|].
    destruct (entry_size s <=? bytes_read s).
    { cbn. intros _. split_and!; try done; try lia. }
    destruct (has_peek s) eqn:Hp; cbn [andb].
    + destruct (Z.ltb_spec 0 limit) as [Hl|Hl].
      * destruct (Z.ltb_spec 0 (limit - 1)) as [Hl1|Hl1].
        -- unfold archive_read_data.
           destruct (rh_data a) as [|b rest] eqn:Hd.
           { destruct (rh_damaged a); cbn; [unfold ARCHIVE_FATAL; lia|].
             intros _. rewrite Hd. split_and!; try done; try lia. }
           set (n := Z.to_nat (Z.min (limit - 1)
                                 (Z.of_nat (length (b :: rest))))).
           destruct (Z.ltb_spec (Z.of_nat n) 0); [lia|].
           cbn. intros _. rewrite take_drop.
           assert (Hlen : length (take n (b :: rest)) = n).
           { rewrite length_take. subst n. lia. }
           split_and!; try done; [|subst n; lia].
           rewrite Hlen. lia.
        -- cbn. intros _. split_and!; try done; try lia.
      * destruct (Z.ltb_spec 0 limit) as [Hl'|_]; [lia|].
        cbn. intros _. rewrite Hp. split_and!; try done; try lia.
    + destruct (Z.ltb_spec 0 limit) as [Hl|Hl].
      * unfold archive_read_data.
        destruct (rh_data a) as [|b rest] eqn:Hd.
        { destruct (rh_damaged a); cbn; [unfold ARCHIVE_FATAL; lia|].
          intros _. rewrite Hp, Hd. split_and!; try done; try lia. }
        set (n := Z.to_nat (Z.min limit (Z.of_nat (length (b :: rest))))).
        destruct (Z.ltb_spec (Z.of_nat n) 0); [lia|].
        cbn. intros _. rewrite Hp. cbn. rewrite take_drop.
        assert (Hlen : length (take n (b :: rest)) = n).
        { rewrite length_take. subst n. lia. }
        split_and!; try done; [|subst n; lia].
        rewrite Hlen. lia.
      * cbn. intros _. rewrite Hp. split_and!; try done; try lia.
Qed.

Lemma read_adapter_keeps_order_witness :
  let a := reader_at (regular_file "a.txt" hello) [] in
  let s := TarInputStream_new (m_entry (regular_file "a.txt" hello)) in
  let r := TarInputStream_read sample_env 3 s a [] in
  rr_buffer r ++ stream_ahead (rr_stream r) (rr_coder r) = hello.
Proof.
  pose proof (proj2 read_adapter_keeps_order sample_env 3
                (TarInputStream_new (m_entry (regular_file "a.txt" hello)))
                (reader_at (regular_file "a.txt" hello) []) []) as H.
  cbv zeta in H. exact (proj1 (H ltac:(by vm_compute))).
Defined.

(** ** Adapters after [close] and at destruction *)

Ltac close_cases E st :=
  let en := fresh "en" in let m := fresh "m" in let b := fresh "b" in
  let c := fresh "c" in let h := fresh "h" in let co := fresh "co" in
  let pu := fresh "pu" in let xs := fresh "xs" in
  destruct st as [[en m b c h] co pu xs];
  unfold TarOutputStream_destroy, TarOutputStream_close, TarOutputStream_write,
    archive_write_header, archive_write_data;
  cbn [o_stream o_coder o_pushed o_xsink os_closed os_with buffer entry_name
       os_mode header_written];
  destruct c; cbn [o_stream o_coder o_pushed o_xsink os_closed os_with buffer];
  [|destruct (env_entry_new E); cbn [negb];
    [match goal with
     | |- context [env_write_header E ?w ?e =? ARCHIVE_OK] =>
         destruct (env_write_header E w e =? ARCHIVE_OK)
     end; cbn [negb]; [destruct b|]|]];
  cbn [o_stream o_coder o_pushed o_xsink os_closed os_with buffer].

(** X14.  Once [close] has run on a write adapter, whatever came of it, the adapter
    is closed: [write] raises STREAM-CLOSED-ERROR and changes nothing else, and
    a second [close] and the destructor do nothing.  The destructor of an
    adapter that was not closed makes the calls on the coder that [close]
    makes, so the buffered bytes are written, and what [close] raises there
    is not seen by the caller.  A read adapter that was destroyed answers -1
    with STREAM-CLOSED-ERROR to [read] and [peek] and pulls nothing from the
    coder. *)
Theorem adapters_after_close :
  (forall E st ptr count,
     let st1 := TarOutputStream_close E st in
     os_closed (o_stream st1) = true
     /\ TarOutputStream_close E st1 = st1
     /\ TarOutputStream_destroy E st1 = st1
     /\ TarOutputStream_write ptr count st1
        = {| o_stream := o_stream st1; o_coder := o_coder st1;
             o_pushed := o_pushed st1;
             o_xsink :=
               o_xsink st1
               ++ [Exception "STREAM-CLOSED-ERROR" "stream is closed"] |})
  /\ (forall E st,
        let d := TarOutputStream_destroy E st in
        let c := TarOutputStream_close E st in
        o_stream d = o_stream c /\ o_coder d = o_coder c
        /\ o_pushed d = o_pushed c /\ o_xsink d = o_xsink st)
  /\ (forall E s a xs limit,
        let s' := TarInputStream_destroy s in
        let r := TarInputStream_read E limit s' a xs in
        let p := TarInputStream_peek E s' a xs in
        rr_return r = -1 /\ rr_buffer r = [] /\ rr_coder r = a
        /\ rr_xsink r = xs ++ [Exception "STREAM-CLOSED-ERROR" "stream is closed"]
        /\ pr_return p = -1 /\ pr_coder p = a
        /\ pr_xsink p
           = xs ++ [Exception "STREAM-CLOSED-ERROR" "stream is closed"]).
Proof.
  split_and!.
  - intros E st ptr count st1. subst st1.
    assert (Hc : os_closed (o_stream (TarOutputStream_close E st)) = true).
    { close_cases E st; done. }
    split; [done|].
    unfold TarOutputStream_destroy, TarOutputStream_write.
    unfold TarOutputStream_close at 1. rewrite !Hc. done.
  - intros E st d c. subst d c. close_cases E st; done.
  - intros E s a xs limit s' r p. subst s' r p. done.
Qed.

(** ** Bulk extraction of an archive that passes the checks *)

Lemma extract_loop_all_safe E dest ms st :
  (forall t e, env_disk_header E t e = ARCHIVE_OK) ->
  (forall t b o, env_disk_block E t b o = ARCHIVE_OK) ->
  Forall (fun m => passes_gate (m_entry m) = true) ms ->
  grows st (extract_loop E dest ms st).1 (concat (entry_calls dest <$> ms)) []
  /\ (extract_loop E dest ms st).2 = reader_of [].
Proof.
  intros Hheader Hblock Hall. revert st.
  induction Hall as [|m ms Hm _ IH]; intros st.
  - split; [apply grows_refl|done].
  - rewrite (extract_loop_safe E dest m ms st Hm). cbv zeta.
    rewrite Hheader. cbn [Z.eqb ARCHIVE_OK negb].
    fold (after_entry E dest m ms st).
    destruct (after_entry_trace E dest m ms st) as (j & xs1 & Hg1 & Hall1).
    destruct (Hall1 Hblock) as [Hj ->]. rewrite Hj in Hg1.
    destruct (IH (after_entry E dest m ms st)) as [Hg Ha]. split; [|done].
    cbn [fmap list_fmap concat].
    change (concat (list_fmap _ _ (entry_calls dest) ms))
      with (concat (entry_calls dest <$> ms)).
    apply (grows_trans _ _ _ _ _ [] [] Hg1 Hg).
Qed.

(** X15.  When every entry the reopened reader delivers passes the checks and
    the disk writer accepts what it is given, [extractAll] extracts every
    such entry in order and raises nothing: after the options and the lookup
    it makes, for each entry, the header call with the paths under the
    destination, then, when the declared size is positive, one block call
    for every block the reader delivers for the entry, in order and each
    with the offset the reader gives it, and the call that ends the entry;
    and then it closes the writer.  The flags always hold the one for times;
    those for permissions, ownership and no overwriting follow the options,
    and no other option enters.  An entry whose payload cannot be read to
    its end is extracted with the blocks that were read, without an
    exception. *)
Theorem extractAll_extracts_every_entry :
  forall E destPath opts st,
    closed (self st) = false ->
    is_Some (read_archive (self st)) \/ in_memory (self st) = true ->
    pending (xsink (reopenRead E st)) = false ->
    env_disk_new E = true ->
    (forall t e, env_disk_header E t e = ARCHIVE_OK) ->
    (forall t b o, env_disk_block E t b o = ARCHIVE_OK) ->
    let ms := members_ahead (reopenRead E st) in
    let o := parseExtractOptions opts (extract_defaults destPath) in
    let st' := extractAll E destPath opts st in
    Forall (fun m => passes_gate (m_entry m) = true) ms ->
    w_disk (world st')
    = w_disk (world st)
      ++ DOptions (4 + (if preserve_permissions o then 2 else 0)
                   + (if preserve_ownership o then 1 else 0)
                   + (if overwrite o then 0 else 8))
         :: DStandardLookup
         :: concat (entry_calls (destination o) <$> ms) ++ [DClose]
    /\ xsink st' = []
    /\ w_files (world st') = w_files (world st)
    /\ members_ahead st' = [].
Proof.
  intros E destPath opts st Hclosed Hopen Hpending Hdisk Hheader Hblock
    ms o st' Hall.
  pose proof (reopenRead_not_pending E st Hpending) as Hxs.
  destruct (reopenRead_outside E st) as [(_ & Hwd & Hwf) _].
  assert (Hxs1 : xsink (reopenRead E st) = []).
  { by destruct (xsink (reopenRead E st)). }
  subst st'. unfold extractAll. rewrite (checkOpen_read_ok st Hclosed Hopen).
  cbn [negb]. rewrite Hxs. cbn [pending]. rewrite andb_false_r.
  rewrite Hpending, Hdisk. cbn [negb]. fold o.
  set (st2 := disk_call DStandardLookup _).
  change (members_ahead st2) with ms.
  destruct (extract_loop_all_safe E (destination o) ms st2 Hheader Hblock Hall)
    as [Hg Ha].
  destruct (extract_loop E (destination o) ms st2) as [st3 a].
  cbn [fst snd] in Hg, Ha. subst a.
  destruct Hg as (_ & _ & Hf & _ & Hd & Hx).
  cbn [world disk_call set_reader on_world on_self w_disk w_files xsink self
       members_ahead with_read_archive read_archive reader_of rh_pending].
  rewrite Hd, Hx, Hf. subst st2.
  cbn [world disk_call on_world w_disk w_files xsink].
  rewrite Hwd, Hwf, Hxs1.
  assert (Hflags : extract_flags o
                   = 4 + (if preserve_permissions o then 2 else 0)
                     + (if preserve_ownership o then 1 else 0)
                     + (if overwrite o then 0 else 8)).
  { unfold extract_flags.
    by destruct (preserve_permissions o), (preserve_ownership o),
      (overwrite o). }
  rewrite Hflags. split_and!; try done.
  by rewrite <- !app_assoc.
Qed.

Lemma extractAll_extracts_every_entry_witness :
  let ms := [in_blocks [(take 2 hello, 0); (drop 2 hello, 512)]
               (regular_file "a.txt" hello);
             regular_file "d/b.txt" []] in
  let E := with_archive ms sample_env in
  w_disk (world (extractAll E (Some "out") None
                   (QoreTarFile_from_data E (Some sample_archive)
                      empty_world [])))
  = [DOptions 6; DStandardLookup;
     DHeader (rooted "out" (m_entry (regular_file "a.txt" hello)));
     DBlock (take 2 hello) 0; DBlock (drop 2 hello) 512; DFinishEntry;
     DHeader (rooted "out" (m_entry (regular_file "d/b.txt" [])));
     DFinishEntry; DClose].
Proof.
  intros ms E.
  refine (proj1 (extractAll_extracts_every_entry E (Some "out") None
                   (QoreTarFile_from_data E (Some sample_archive)
                      empty_world [])
                   eq_refl (or_intror eq_refl) eq_refl eq_refl
                   (fun _ _ => eq_refl) (fun _ _ _ => eq_refl) _)).
  by repeat constructor.
Defined.

(** ** Extraction of one entry to a file *)

Lemma extract_to_loop_all E fuel dest a written st :
  (forall b, env_fwrite E dest b = true) ->
  (length (rh_data a) <= fuel)%nat ->
  w_files (world st) !! dest = Some written ->
  exists st' a',
    extract_to_loop E fuel dest a written st = (st', a')
    /\ self st' = self st /\ xsink st' = xsink st
    /\ w_disk (world st') = w_disk (world st)
    /\ w_out (world st') = w_out (world st)
    /\ w_files (world st')
       = <[dest := written ++ rh_data a]> (w_files (world st)).
Proof.
  intros Hfw. revert a written st.
  assert (Hend : forall fuel a written st,
    rh_data a = [] -> w_files (world st) !! dest = Some written ->
    exists st' a',
      extract_to_loop E fuel dest a written st = (st', a')
      /\ self st' = self st /\ xsink st' = xsink st
      /\ w_disk (world st') = w_disk (world st)
      /\ w_out (world st') = w_out (world st)
      /\ w_files (world st')
         = <[dest := written ++ rh_data a]> (w_files (world st))).
  { intros fuel' a written st Hd Hl. exists st, a.
    split_and!; try done.
    - destruct fuel'; cbn [extract_to_loop]; unfold archive_read_data;
        rewrite Hd; by destruct (rh_damaged a).
    - by rewrite Hd, app_nil_r, insert_id. }
  induction fuel as [|fuel IH]; intros a written st Hlen Hl.
  - destruct (rh_data a) as [|b rest] eqn:Hd; [|simpl in Hlen; lia].
    rewrite <- Hd. by apply Hend.
  - destruct (rh_data a) as [|b rest] eqn:Hd;
      [rewrite <- Hd; by apply Hend|].
    cbn [extract_to_loop].
    rewrite (archive_read_data_some a b rest TAR_BUFFER_SIZE Hd) by done.
    set (n := Z.to_nat TAR_BUFFER_SIZE).
    assert (Hn : (1 <= n)%nat) by (subst n; unfold TAR_BUFFER_SIZE; lia).
    assert (Hpos : (0 <? Z.of_nat (length (take n (b :: rest)))) = true).
    { apply Z.ltb_lt. rewrite length_take. cbn [length]. lia. }
    rewrite Hpos, Hfw. cbn [negb].
    match goal with
    | |- context [extract_to_loop E fuel dest ?a1 ?w ?s] =>
        destruct (IH a1 w s) as (st' & a' & Hrun & Hs & Hx & Hdk & Ho & Hf)
    end.
    { cbn [rh_data]. rewrite length_drop. cbn [length] in *. lia. }
    { cbn. by rewrite lookup_insert_eq. }
    exists st', a'. split; [done|].
    rewrite Hs, Hx, Hdk, Ho, Hf. split_and!; try done.
    cbn. by rewrite insert_insert_eq, <- app_assoc, take_drop.
Qed.

(** X16.  [extractTo] scans the members the reopened reader delivers and, at the
    first one whose path [entryNameEquals] takes for [name], writes its
    whole payload to the destination file,
    which holds nothing else afterwards.  The declared size is not looked
    at, no path is checked with [isPathSafe], the disk writer is not used,
    and nothing is raised, also when the payload cannot be read to its end:
    the file then holds what was read.  When no member has the name, a
    TAR-ERROR is raised and no file is touched. *)
Theorem extractTo_writes_first_match :
  forall E name dest st,
    closed (self st) = false ->
    is_Some (read_archive (self st)) \/ in_memory (self st) = true ->
    pending (xsink (reopenRead E st)) = false ->
    let ms := members_ahead (reopenRead E st) in
    let st' := extractTo E name dest st in
    (forall pre m post,
       ms = pre ++ m :: post ->
       Forall (other_name E name) pre ->
       same_name E name m ->
       env_fopen_wb E (c_str dest) = true ->
       (forall b, env_fwrite E (c_str dest) b = true) ->
       w_files (world st') = <[c_str dest := m_data m]> (w_files (world st))
       /\ xsink st' = []
       /\ w_disk (world st') = w_disk (world st))
    /\ (Forall (other_name E name) ms ->
        w_files (world st') = w_files (world st)
        /\ w_disk (world st') = w_disk (world st)
        /\ xsink st'
           = [Exception "TAR-ERROR" ("entry '" +:+ c_str name +:+ "' not found")])
    /\ extractEntry E name dest st = st'.
Proof.
  intros E name dest st Hclosed Hopen Hpending ms st'.
  pose proof (reopenRead_not_pending E st Hpending) as Hxs.
  destruct (reopenRead_outside E st) as [(Hwo & Hwd & Hwf) _].
  assert (Hxs1 : xsink (reopenRead E st) = []).
  { by destruct (xsink (reopenRead E st)). }
  assert (Hrun : st'
    = match find_entry E name ms with
      | Some (m, ms') =>
          let st := set_reader (reader_at m ms') (reopenRead E st) in
          if negb (env_fopen_wb E (c_str dest)) then
            raise "TAR-ERROR"
              ("failed to open destination file '" +:+ c_str dest +:+ "': "
               +:+ env_strerror E) st
          else
            let st := set_file (c_str dest) [] st in
            let (st, a) :=
              extract_to_loop E (S (length (m_data m))) (c_str dest)
                (reader_at m ms') [] st in
            set_reader a st
      | None =>
          raise "TAR-ERROR" ("entry '" +:+ c_str name +:+ "' not found")
            (set_reader (reader_of []) (reopenRead E st))
      end).
  { subst st'. unfold extractTo.
    rewrite (checkOpen_read_ok st Hclosed Hopen). cbn [negb].
    by rewrite Hpending. }
  split_and!; [| |done].
  - intros pre m post Hms Hpre Hm Hfo Hfw.
    rewrite Hrun, Hms, (find_entry_first E name pre m post Hpre Hm).
    cbv zeta. rewrite Hfo. cbn [negb].
    set (st2 := set_file (c_str dest) [] _).
    destruct (extract_to_loop_all E (S (length (m_data m))) (c_str dest)
                (reader_at m post) [] st2 Hfw)
      as (st3 & a & Hloop & Hs & Hx & Hdk & Ho & Hf).
    { cbn. lia. }
    { subst st2. cbn. by rewrite lookup_insert_eq. }
    rewrite Hloop. cbn [set_reader on_self world xsink].
    rewrite Hf, Hx, Hdk. subst st2. cbn. rewrite Hwd, Hwf, Hxs1.
    by rewrite insert_insert_eq.
  - intros Hnone. rewrite Hrun, (find_entry_none E name ms Hnone).
    cbn. by rewrite Hwd, Hwf, Hxs1.
Qed.

Lemma extractTo_writes_first_match_witness :
  w_files (world (extractTo sample_env "b.txt" "out.bin" read_sample))
  = <["out.bin" := hello]> ∅.
Proof.
  exact (proj1 (proj1 (extractTo_writes_first_match sample_env "b.txt"
                         "out.bin" read_sample eq_refl (or_intror eq_refl)
                         eq_refl)
                  [regular_file "a.txt" hello; regular_file "../evil" [Byte.x21]]
                  (regular_file "b.txt" hello) [] eq_refl
                  ltac:(by repeat constructor) eq_refl eq_refl
                  (fun _ => eq_refl))).
Defined.

(** ** Reading an entry through the adapter *)

(** X17.  The adapter [openInputStream] hands out for a name stands at the payload
    of the first entry with that name: when the payload can be read to its
    end and fits the limit, one [read] on the adapter stores what [read] on
    the session returns for the same name, returns its length and raises
    nothing. *)
Theorem stream_read_is_read :
  forall E name st limit pre m post,
    closed (self st) = false ->
    is_Some (read_archive (self st)) \/ in_memory (self st) = true ->
    pending (xsink (reopenRead E st)) = false ->
    members_ahead (reopenRead E st) = pre ++ m :: post ->
    Forall (other_name E name) pre ->
    same_name E name m ->
    m_damaged m = false ->
    0 < limit -> Z.of_nat (length (m_data m)) <= limit ->
    exists s st1 a,
      openInputStream E name st = (Some s, st1)
      /\ read_archive (self st1) = Some a
      /\ entry_size s = size (m_entry m)
      /\ let r := TarInputStream_read E limit s a (xsink st1) in
         (read E name st).1 = Some (rr_buffer r)
         /\ rr_return r = Z.of_nat (length (rr_buffer r))
         /\ rr_xsink r = []
         /\ (0 < size (m_entry m) -> rr_buffer r = m_data m).
Proof.
  intros E name st limit pre m post Hclosed Hopen Hpending Hms Hpre Hm Hg
    Hlim Hfit.
  assert (Hxs1 : xsink (reopenRead E st) = []).
  { by destruct (xsink (reopenRead E st)). }
  unfold openInputStream, read.
  rewrite (checkOpen_read_ok st Hclosed Hopen). cbn [negb].
  rewrite Hpending, Hms, (find_entry_first E name pre m post Hpre Hm).
  assert (Hp1 : pending (xsink (set_reader (reader_at m post) (reopenRead E st)))
                = false).
  { cbn. by rewrite Hxs1. }
  rewrite Hp1. do 3 eexists. split; [reflexivity|]. split; [reflexivity|].
  split; [reflexivity|].
  cbn [xsink set_reader on_self]. rewrite Hxs1.
  unfold TarInputStream_read, TarInputStream_new.
  cbn [is_closed entry_size bytes_read has_peek andb].
  destruct (Z.leb_spec (size (m_entry m)) 0) as [Hs|Hs].
  { cbn. split_and!; try done. lia. }
  destruct (Z.ltb_spec 0 limit) as [_|]; [|lia].
  destruct (read_all_payload m post) as [a Ha]. rewrite Ha, Hg.
  cbn [Z.ltb Z.compare fst].
  destruct (m_data m) as [|b rest] eqn:Hd.
  - rewrite (archive_read_data_end (reader_at m post) limit); [|done..].
    cbn. rewrite ?Hd. split_and!; try done; cbn [length]; lia.
  - rewrite (archive_read_data_some (reader_at m post) b rest limit);
      [|done..].
    assert (Htake : take (Z.to_nat limit) (b :: rest) = b :: rest).
    { apply take_ge. lia. }
    rewrite Htake.
    destruct (Z.ltb_spec (Z.of_nat (length (b :: rest))) 0); [lia|].
    cbn. rewrite ?Hd. split_and!; try done; cbn [length]; lia.
Qed.

Lemma stream_read_is_read_witness :
  exists s st1 a,
    openInputStream sample_env "b.txt" read_sample = (Some s, st1)
    /\ read_archive (self st1) = Some a
    /\ rr_buffer (TarInputStream_read sample_env 10 s a (xsink st1)) = hello.
Proof.
  destruct (stream_read_is_read sample_env "b.txt" read_sample 10
              [regular_file "a.txt" hello; regular_file "../evil" [Byte.x21]]
              (regular_file "b.txt" hello) []
              eq_refl (or_intror eq_refl) eq_refl eq_refl
              ltac:(by repeat constructor) eq_refl eq_refl eq_refl
              ltac:(by vm_compute))
    as (s & st1 & a & H1 & H2 & _ & H4).
  exists s, st1, a. split; [exact H1|]. split; [exact H2|].
  cbv zeta in H4. exact (proj2 (proj2 (proj2 H4)) eq_refl).
Defined.

(** ** Opening for writing *)

Lemma setupCompressionFilter_cases E st :
  setupCompressionFilter E st
  = match add_filter E (compression_method (self st)) with
    | Some r =>
        if r =? ARCHIVE_OK then st
        else raise "TAR-ERROR"
               ("failed to set compression filter: " +:+ get_archive_error E)
               st
    | None =>
        raise "TAR-ERROR"
          ("invalid compression method: "
           +:+ match compression_method (self st) with
               | TAR_CM_OTHER code => pretty code
               | _ => ""
               end) st
    end.
Proof.
  unfold setupCompressionFilter, add_filter.
  destruct (compression_method (self st)); try done;
    destruct (_ =? _); cbn [negb]; try done; by destruct (_ && _).
Qed.

Lemma setupCompressionFilter_options E f st :
  setupCompressionFilter (with_set_options f E) st
  = setupCompressionFilter E st.
Proof.
  unfold setupCompressionFilter. by destruct (compression_method (self st)).
Qed.

Lemma openWrite_options E f st :
  openWrite (with_set_options f E) st = openWrite E st.
Proof.
  unfold openWrite. by rewrite setupCompressionFilter_options.
Qed.

(** X18.  [openWrite] on a session without a pending exception either leaves a
    fresh write coder and raises nothing, or leaves no write coder and raises
    one TAR-ERROR; it succeeds exactly when the coder can be made, accepts the
    format, the compression method is one of the constants and the coder
    accepts its filter, and the coder opens on the backing of the session.
    A compression method that is none of the constants is refused with
    'invalid compression method' and its number.  When it succeeds on a
    file-backed session the file of the session is created, or emptied when
    it was there (with an empty path the coder is opened on the standard
    output and no file is made), and nothing else outside the session
    changes; when it fails before the coder is opened, nothing outside the
    session changes at all; in no case is the output stream, the disk writer
    or the input stream touched.  The answer of the coder to the compression level makes
    no difference: a level the coder refuses is dropped silently. *)
Theorem openWrite_all_or_nothing :
  forall E st,
    xsink st = [] ->
    let st' := openWrite E st in
    let backing :=
      if in_memory (self st) then MemoryBacking []
      else if output_stream (self st) then StreamBacking
      else FileBacking (filepath (self st)) in
    let ready :=
      env_write_new E = true
      /\ env_set_format E (format_to_archive_format (format (self st)))
         = ARCHIVE_OK
      /\ add_filter E (compression_method (self st)) = Some ARCHIVE_OK in
    ((write_archive (self st') = Some [] /\ xsink st' = [])
     \/ (write_archive (self st') = None
         /\ exists desc, xsink st' = [Exception "TAR-ERROR" desc]))
    /\ (write_archive (self st') = Some []
        <-> ready /\ env_write_open E backing = ARCHIVE_OK)
    /\ (forall code,
          compression_method (self st) = TAR_CM_OTHER code ->
          env_write_new E = true ->
          env_set_format E (format_to_archive_format (format (self st)))
          = ARCHIVE_OK ->
          xsink st'
          = [Exception "TAR-ERROR"
               ("invalid compression method: " +:+ pretty code)])
    /\ (write_archive (self st') = Some [] ->
        w_files (world st')
        = if in_memory (self st) || output_stream (self st)
             || String.eqb (filepath (self st)) ""
          then w_files (world st)
          else <[filepath (self st) := []]> (w_files (world st)))
    /\ (~ ready -> world st' = world st)
    /\ w_out (world st') = w_out (world st)
    /\ w_disk (world st') = w_disk (world st)
    /\ w_in (world st') = w_in (world st)
    /\ read_archive (self st') = read_archive (self st)
    /\ closed (self st') = closed (self st)
    /\ memory_buffer (self st') = memory_buffer (self st)
    /\ (forall f, openWrite (with_set_options f E) st = st').
Proof.
  intros E st Hxs st' backing ready. subst st' backing ready.
  assert (HP : forall f, openWrite (with_set_options f E) st = openWrite E st)
    by (intros f; apply openWrite_options).
  revert HP.
  generalize (forall f, openWrite (with_set_options f E) st = openWrite E st).
  intros P HP.
  unfold openWrite.
  rewrite setupCompressionFilter_cases. unfold get_archive_error.
  destruct (env_write_new E); cbn [negb].
  2: { cbn. rewrite Hxs. split_and!; try done.
       - right. split; [done|]. by eexists.
       - split; [done|]. by intros ((? & _) & _). }
  destruct (Z.eqb_spec (env_set_format E
              (format_to_archive_format (format (self st)))) ARCHIVE_OK)
    as [Hf|Hf]; cbn [negb].
  2: { cbn. rewrite Hxs. split_and!; try done.
       - right. split; [done|]. by eexists.
       - split; [done|]. by intros ((_ & ? & _) & _). }
  destruct (add_filter E (compression_method (self st))) as [r|] eqn:Hadd.
  2: { unfold raise, raiseException. cbn. rewrite ?Hxs. cbn. rewrite ?Hxs.
       split_and!; try done.
       - right. split; [done|]. by eexists.
       - split; [done|]. by intros ((_ & _ & ?) & _).
       - by intros code ->. }
  destruct (Z.eqb_spec r ARCHIVE_OK) as [->|Hm].
  2: { unfold raise, raiseException. cbn. rewrite ?Hxs. cbn. rewrite ?Hxs.
       split_and!; try done.
       - right. split; [done|]. by eexists.
       - split; [done|]. intros ((_ & _ & [= ?]) & _). done.
       - intros code Hc. by rewrite Hc in Hadd. }
  rewrite Hxs. cbn [pending].
  destruct (in_memory (self st)), (output_stream (self st)),
    (String.eqb (filepath (self st)) "");
    match goal with
    | |- context [env_write_open E ?b =? ARCHIVE_OK] =>
        destruct (Z.eqb_spec (env_write_open E b) ARCHIVE_OK) as [Ho|Ho]
    end; cbn; rewrite ?Hxs; split_and!; try done;
    try (by left); try (right; split; [done|]; by eexists);
    try (split; [done|]; by intros (_ & ?));
    try (intros code Hc; by rewrite Hc in Hadd);
    try (intros Hn; by destruct Hn).
Qed.

Lemma openWrite_all_or_nothing_witness :
  let st :=
    {| self :=
         {| filepath := "out.tar"; mode := TAR_MODE_WRITE;
            read_archive := None; write_archive := None;
            compression_method := TAR_CM_GZIP; compression_level := 6;
            format := TAR_FORMAT_PAX; in_memory := false; closed := false;
            memory_buffer := []; memory_pos := 0; input_stream := false;
            output_stream := false |};
       world := {| w_out := []; w_disk := [];
                   w_files := {[ "out.tar" := hello ]}; w_in := [] |};
       xsink := [] |} in
  write_archive (self (openWrite sample_env st)) = Some []
  /\ w_files (world (openWrite sample_env st))
     = <["out.tar" := []]> (w_files (world st)).
Proof.
  intros st.
  pose proof (openWrite_all_or_nothing sample_env st eq_refl) as H.
  cbv zeta in H. destruct H as (_ & Hiff & _ & Hfiles & _).
  assert (Hw : write_archive (self (openWrite sample_env st)) = Some []).
  { apply Hiff. by split_and!. }
  split; [exact Hw|exact (Hfiles Hw)].
Defined.

(** ** Append mode *)

Lemma appends_refl st wa : write_archive (self st) = Some wa -> appends st st [].
Proof. intros Hw. exists wa. by rewrite app_nil_r. Qed.

Lemma appends_trans st1 st2 st3 evs1 evs2 :
  appends st1 st2 evs1 -> appends st2 st3 evs2 ->
  appends st1 st3 (evs1 ++ evs2).
Proof.
  intros (wa & Hw1 & Hw2 & Hx & Hr & Hc & Hm)
         (wa' & Hw2' & Hw3 & Hx' & Hr' & Hc' & Hm').
  exists wa. rewrite Hw2 in Hw2'. injection Hw2' as <-.
  rewrite Hw3, Hx', Hr', Hc', Hm', Hx, Hr, Hc, Hm. by rewrite app_assoc.
Qed.

Lemma write_header_call_appends E e st wa :
  write_archive (self st) = Some wa ->
  exists st',
    write_header_call E e st = (env_write_header E wa e, st')
    /\ appends st st' [WHeader e].
Proof.
  intros Hw.
  destruct (write_header_call_spec E e st wa Hw)
    as (st' & Hcall & Hw' & Hx & Hc & Hr & _ & Hm & _).
  exists st'. split; [done|]. by exists wa.
Qed.

Lemma write_data_call_appends E b st wa :
  write_archive (self st) = Some wa ->
  exists st',
    write_data_call E b st = (env_write_data E wa b, st')
    /\ appends st st' [WData b].
Proof.
  intros Hw.
  destruct (write_data_call_spec E b st wa Hw)
    as (st' & Hcall & Hw' & Hx & Hc & Hr & _ & Hm & _).
  exists st'. split; [done|]. by exists wa.
Qed.

Lemma copy_data_loop_all E fuel a st :
  (forall t b, 0 <= env_write_data E t b) ->
  (length (rh_data a) <= fuel)%nat -> rh_damaged a = false ->
  is_Some (write_archive (self st)) ->
  exists st' a' ds,
    copy_data_loop E fuel a st = (true, st', a')
    /\ appends st st' ds /\ only_data ds /\ data_of ds = rh_data a.
Proof.
  intros Hdata. revert a st.
  assert (Hend : forall fuel a st,
    rh_data a = [] -> rh_damaged a = false ->
    is_Some (write_archive (self st)) ->
    exists st' a' ds,
      copy_data_loop E fuel a st = (true, st', a')
      /\ appends st st' ds /\ only_data ds /\ data_of ds = rh_data a).
  { intros fuel' a st Hd Hg [wa Hw]. exists st, a, [].
    split_and!; [|by apply (appends_refl st wa)|by constructor|by rewrite Hd].
    destruct fuel'; cbn [copy_data_loop]; unfold archive_read_data;
      by rewrite Hd, Hg. }
  induction fuel as [|fuel IH]; intros a st Hlen Hg Hsome.
  - destruct (rh_data a) as [|b rest] eqn:Hd; [|simpl in Hlen; lia].
    rewrite <- Hd. by apply Hend.
  - destruct (rh_data a) as [|b rest] eqn:Hd;
      [rewrite <- Hd; by apply Hend|].
    destruct Hsome as [wa Hw].
    cbn [copy_data_loop].
    rewrite (archive_read_data_some a b rest TAR_BUFFER_SIZE Hd) by done.
    set (n := Z.to_nat TAR_BUFFER_SIZE).
    assert (Hn : (1 <= n)%nat) by (subst n; unfold TAR_BUFFER_SIZE; lia).
    assert (Hpos : (0 <? Z.of_nat (length (take n (b :: rest)))) = true).
    { apply Z.ltb_lt. rewrite length_take. cbn [length]. lia. }
    rewrite Hpos.
    destruct (write_data_call_appends E (take n (b :: rest)) st wa Hw)
      as (st1 & Hcall & Happ).
    rewrite Hcall.
    destruct (Z.ltb_spec (env_write_data E wa (take n (b :: rest))) 0)
      as [Hneg|_]; [specialize (Hdata wa (take n (b :: rest))); lia|].
    match goal with
    | |- context [copy_data_loop E fuel ?a1 st1] =>
        destruct (IH a1 st1) as (st' & a' & ds & Hrun & Happ' & Hod & Hdo)
    end.
    { cbn [rh_data]. rewrite length_drop. cbn [length] in *. lia. }
    { done. }
    { destruct Happ as (? & _ & -> & _). by eexists. }
    exists st', a', (WData (take n (b :: rest)) :: ds).
    split; [done|]. split_and!.
    + by apply (appends_trans st st1 st' [_] ds).
    + by constructor.
    + unfold data_of in *. cbn [fmap list_fmap concat].
      change (concat (list_fmap _ _ ?f ds)) with (concat (f <$> ds)).
      rewrite Hdo. cbn [rh_data]. by rewrite take_drop.
Qed.

Lemma trace_members_entry e ds tr :
  only_data ds -> headed tr ->
  trace_members (WHeader e :: ds ++ tr) = (e, data_of ds) :: trace_members tr.
Proof.
  intros Hod Hh. unfold trace_members, headed in *. cbn [foldr trace_step snd].
  assert (Hds : foldr trace_step ([], []) (ds ++ tr)
                = (data_of ds ++ fst (foldr trace_step ([], []) tr),
                   snd (foldr trace_step ([], []) tr))).
  { induction Hod as [|ev ds Hev _ IH]; cbn [app foldr].
    - by destruct (foldr trace_step ([], []) tr).
    - rewrite IH. destruct ev as [?|b]; [done|].
      unfold data_of. cbn. by rewrite app_assoc. }
  rewrite Hds, Hh. cbn. by rewrite app_nil_r.
Qed.

Lemma copy_entries_loop_all E ms st :
  (forall t e, env_write_header E t e = ARCHIVE_OK) ->
  (forall t b, 0 <= env_write_data E t b) ->
  Forall (fun m => m_damaged m = false) ms ->
  is_Some (write_archive (self st)) ->
  exists st' a' tr,
    copy_entries_loop E ms st = (st', a')
    /\ appends st st' tr /\ headed tr
    /\ trace_members tr = copied <$> ms.
Proof.
  intros Hheader Hdata Hall. revert st.
  induction Hall as [|m ms Hm _ IH]; intros st [wa Hw].
  - exists st, (reader_of []), []. split; [done|].
    split; [by apply (appends_refl st wa)|done].
  - cbn [copy_entries_loop].
    destruct (write_header_call_appends E (m_entry m) st wa Hw)
      as (st1 & Hcall & Happ).
    rewrite Hcall, Hheader. cbn [Z.eqb ARCHIVE_OK negb].
    assert (Hsome1 : is_Some (write_archive (self st1))).
    { destruct Happ as (? & _ & -> & _). by eexists. }
    unfold copied at 1. cbn [fmap list_fmap].
    change (list_fmap _ _ copied ms) with (copied <$> ms).
    destruct (0 <? size (m_entry m)).
    + destruct (copy_data_loop_all E (S (length (m_data m)))
                  (reader_at m ms) st1 Hdata)
        as (st2 & a & ds & Hrun & Happ2 & Hod & Hdo); [cbn; lia|done|done|].
      rewrite Hrun.
      assert (Hsome2 : is_Some (write_archive (self st2))).
      { destruct Happ2 as (? & _ & -> & _). by eexists. }
      destruct (IH st2 Hsome2) as (st' & a' & tr & Hloop & Happ3 & Hh & Htm).
      exists st', a', (WHeader (m_entry m) :: ds ++ tr).
      split; [done|]. split_and!.
      * apply (appends_trans st st1 st' [_] (ds ++ tr)); [done|].
        by apply (appends_trans st1 st2 st' ds tr).
      * done.
      * rewrite (trace_members_entry _ ds tr Hod Hh), Htm.
        cbn [rh_data reader_at] in Hdo. by rewrite Hdo.
    + destruct (IH st1 Hsome1) as (st' & a' & tr & Hloop & Happ3 & Hh & Htm).
      exists st', a', (WHeader (m_entry m) :: [] ++ tr).
      split; [done|]. split_and!.
      * by apply (appends_trans st st1 st' [_] tr).
      * done.
      * rewrite (trace_members_entry _ [] tr); [|by constructor|done].
        by rewrite Htm.
Qed.

Lemma openWrite_ok E st :
  xsink st = [] -> env_write_new E = true ->
  env_set_format E (format_to_archive_format (format (self st))) = ARCHIVE_OK ->
  add_filter E (compression_method (self st)) = Some ARCHIVE_OK ->
  env_write_open E
    (if in_memory (self st) then MemoryBacking []
     else if output_stream (self st) then StreamBacking
     else FileBacking (filepath (self st))) = ARCHIVE_OK ->
  openWrite E st
  = on_self (with_write_archive (Some []))
      (if in_memory (self st) || output_stream (self st)
          || String.eqb (filepath (self st)) ""
       then st
       else set_file (filepath (self st)) [] st).
Proof.
  intros Hxs Hn Hf Hm Ho. unfold openWrite.
  rewrite setupCompressionFilter_cases, Hn, Hf, Hm.
  cbn [negb Z.eqb ARCHIVE_OK]. rewrite Hxs. cbn [pending].
  destruct (in_memory (self st)), (output_stream (self st));
    by rewrite Ho.
Qed.

(** X19.  A session opened in append mode on a path that does not exist is the
    session opened in write mode on it.  On a path that names an archive it
    reads the archive, opens the write coder and copies every entry in the
    order of the archive, each header followed by the payload of the entry
    when its declared size is positive; when the calls succeed the read
    coder is released, nothing is raised and the session stays in append
    mode, open for the entries to add. *)
Theorem append_copies_every_entry :
  forall E path cm fmt w,
    (env_stat E (c_str path) = None ->
     QoreTarFile_file E path TAR_MODE_APPEND cm fmt w []
     = QoreTarFile_file E path TAR_MODE_WRITE cm fmt w [])
    /\ (forall sb content ms,
          env_stat E (c_str path) = Some sb ->
          env_fopen_rb E (c_str path) = Some content ->
          0 <= st_size sb <= Z.of_nat (length content) ->
          env_read_new E = true ->
          env_read_open E
            (MemoryBacking (take (Z.to_nat (st_size sb)) content)) = Some ms ->
          env_write_new E = true ->
          env_set_format E (format_to_archive_format fmt) = ARCHIVE_OK ->
          add_filter E (file_session_compression path cm) = Some ARCHIVE_OK ->
          env_write_open E (FileBacking (c_str path)) = ARCHIVE_OK ->
          (forall t e, env_write_header E t e = ARCHIVE_OK) ->
          (forall t b, 0 <= env_write_data E t b) ->
          Forall (fun m => m_damaged m = false) ms ->
          let st' := QoreTarFile_file E path TAR_MODE_APPEND cm fmt w [] in
          exists tr,
            write_archive (self st') = Some tr
            /\ trace_members tr = copied <$> ms
            /\ read_archive (self st') = None
            /\ xsink st' = []
            /\ mode (self st') = TAR_MODE_APPEND
            /\ closed (self st') = false).
Proof.
  intros E path cm fmt w. split.
  - intros Hstat. unfold QoreTarFile_file, openAppend.
    cbn [self filepath]. by rewrite Hstat.
  - intros sb content ms Hstat Hfo Hsize Hrn Hro Hwn Hsf Haf Hwo Hheader
      Hdata Hall st'. subst st'.
    unfold QoreTarFile_file, openAppend. cbn [self filepath].
    rewrite Hstat, Hfo.
    assert (Hlen : Z.of_nat (length (take (Z.to_nat (st_size sb)) content))
                   = st_size sb).
    { rewrite length_take. lia. }
    rewrite Hlen, Z.eqb_refl, Hrn, Hro. cbn [negb].
    set (st0 := on_self (with_read_archive (Some (reader_of ms))) _).
    rewrite (openWrite_ok E st0); [|done..].
    change (in_memory (self st0) || output_stream (self st0)) with false.
    cbn [orb].
    set (st1 := on_self (with_write_archive (Some [])) _).
    assert (Hst1 : xsink st1 = [] /\ read_archive (self st1) = Some (reader_of ms)
                   /\ write_archive (self st1) = Some []).
    { subst st1. by destruct (String.eqb _ _). }
    destruct Hst1 as (Hx1 & Hr1 & Hw1).
    assert (Hcm : closed (self st1) = false /\ mode (self st1) = TAR_MODE_APPEND).
    { subst st1. by destruct (String.eqb _ _). }
    destruct Hcm as [Hc1 Hm1].
    rewrite Hx1. cbn [pending].
    unfold copyEntries. rewrite Hr1, Hw1. cbn [rh_pending reader_of].
    destruct (copy_entries_loop_all E ms st1 Hheader Hdata Hall)
      as (st2 & a & tr & Hloop & Happ & _ & Htm); [by eexists|].
    rewrite Hloop.
    destruct Happ as (wa & Hwa & Hw2 & Hx & _ & Hc & Hmode).
    rewrite Hw1 in Hwa. injection Hwa as <-.
    exists tr. cbn. rewrite Hw2, Hx, Hc, Hmode, Hx1, Hc1, Hm1. done.
Qed.

Lemma append_copies_every_entry_witness :
  let sb := {| st_mode := 33188; st_size := 6; st_uid := 0; st_gid := 0;
               st_mtime := 0; st_atime := 0; st_ctime := 0 |} in
  let E := with_file sb sample_archive sample_env in
  exists tr,
    write_archive
      (self (QoreTarFile_file E "old.tar" TAR_MODE_APPEND None TAR_FORMAT_PAX
               empty_world []))
    = Some tr
    /\ trace_members tr = copied <$> sample_members.
Proof.
  intros sb E.
  destruct (proj2 (append_copies_every_entry E "old.tar" None TAR_FORMAT_PAX
                     empty_world)
              sb sample_archive sample_members eq_refl eq_refl
              ltac:(by vm_compute) eq_refl eq_refl eq_refl eq_refl eq_refl
              eq_refl (fun _ _ => eq_refl) (fun _ b => Nat2Z.is_nonneg _)
              ltac:(by repeat constructor))
    as (tr & H1 & H2 & _).
  exists tr. split; [exact H1|exact H2].
Defined.

(** ** The memory buffer callbacks *)

Lemma memory_drain_all fuel t :
  0 <= memory_pos t ->
  Z.of_nat (length (memory_buffer t)) - memory_pos t < Z.of_nat fuel ->
  (memory_drain fuel t).1
  = drop (Z.to_nat (memory_pos t)) (memory_buffer t)
  /\ memory_buffer (memory_drain fuel t).2 = memory_buffer t
  /\ memory_pos (memory_drain fuel t).2
     = Z.max (memory_pos t) (Z.of_nat (length (memory_buffer t))).
Proof.
  revert t. induction fuel as [|fuel IH]; intros t Hpos Hfuel.
  - cbn [memory_drain fst snd]. split_and!; [|done|lia].
    symmetry. apply drop_ge. lia.
  - cbn [memory_drain]. unfold memory_read_callback.
    destruct (Z.leb_spec (Z.of_nat (length (memory_buffer t))) (memory_pos t))
      as [Hle|Hlt].
    + cbn. split_and!; [|done|lia]. symmetry. apply drop_ge. lia.
    + set (to_read := Z.min (Z.of_nat (length (memory_buffer t)) - memory_pos t)
                        TAR_BUFFER_SIZE).
      assert (Hr : 0 < to_read) by (subst to_read; unfold TAR_BUFFER_SIZE; lia).
      destruct (Z.eqb_spec to_read 0) as [|_]; [lia|].
      set (t1 := with_memory_pos (memory_pos t + to_read) t).
      destruct (IH t1) as (Hd & Hb & Hp).
      { subst t1. cbn. lia. }
      { subst t1. cbn. lia. }
      destruct (memory_drain fuel t1) as [rest t2]. cbn [fst snd] in *.
      rewrite Hd, Hb, Hp. subst t1. cbn [memory_buffer memory_pos
        with_memory_pos].
      split_and!; [|done|subst to_read; lia].
      rewrite Z2Nat.inj_add by lia.
      by rewrite <- drop_drop, take_drop.
Qed.

(** X20.  What the write callback appended to the memory buffer is what the read
    callback hands back: after any calls of [memory_write_callback], each of
    which takes the whole block it is given, calling [memory_read_callback]
    from position zero until it returns 0 delivers the buffer followed by the
    blocks written, in order; a call of the read callback delivers at most
    [TAR_BUFFER_SIZE] bytes, as many as it returns, and moves the position
    by that number without passing the end of the buffer. *)
Theorem memory_callbacks_round_trip :
  forall t blocks,
    memory_pos t = 0 ->
    let t1 := foldl (fun t b => (memory_write_callback b t).2) t blocks in
    memory_buffer t1 = memory_buffer t ++ concat blocks
    /\ memory_pos t1 = 0
    /\ Forall2 (fun b r => r = Z.of_nat (length b)) blocks
         ((fun b => (memory_write_callback b t).1) <$> blocks)
    /\ (memory_drain (S (length (memory_buffer t1))) t1).1
       = memory_buffer t ++ concat blocks
    /\ (forall t2,
          0 <= memory_pos t2 ->
          let '(r, b, t3) := memory_read_callback t2 in
          r = Z.of_nat (length b) /\ 0 <= r <= TAR_BUFFER_SIZE
          /\ memory_buffer t3 = memory_buffer t2
          /\ memory_pos t3 = memory_pos t2 + r
          /\ b = take (Z.to_nat r)
                   (drop (Z.to_nat (memory_pos t2)) (memory_buffer t2))
          /\ (r = 0 <-> Z.of_nat (length (memory_buffer t2)) <= memory_pos t2)).
Proof.
  intros t blocks Hpos t1.
  assert (Hfold : memory_buffer t1 = memory_buffer t ++ concat blocks
                  /\ memory_pos t1 = memory_pos t).
  { subst t1. revert t Hpos. induction blocks as [|b bs IH]; intros t Hpos.
    - cbn. by rewrite app_nil_r.
    - cbn [foldl]. destruct (IH (memory_write_callback b t).2) as [Hb Hp];
        [done|].
      rewrite Hb, Hp. cbn. by rewrite <- app_assoc. }
  destruct Hfold as [Hbuf Hp1]. rewrite Hpos in Hp1.
  split_and!; [done|done| | |].
  - induction blocks as [|b bs IH]; [by constructor|].
    cbn. constructor; [done|].
    apply Forall2_fmap_r, Forall_Forall2_diag, Forall_forall. done.
  - destruct (memory_drain_all (S (length (memory_buffer t1))) t1)
      as (Hd & _); [lia|lia|].
    by rewrite Hd, Hp1, Hbuf.
  - intros t2 Hpos2. unfold memory_read_callback.
    destruct (Z.leb_spec (Z.of_nat (length (memory_buffer t2))) (memory_pos t2))
      as [Hle|Hlt].
    + split_and!; try done; try (unfold TAR_BUFFER_SIZE; lia).
    + set (to_read := Z.min _ _).
      assert (Hr : 0 < to_read <= TAR_BUFFER_SIZE)
        by (subst to_read; unfold TAR_BUFFER_SIZE; lia).
      split_and!; try done; try lia.
      rewrite length_take, length_drop. subst to_read. lia.
Qed.

Lemma memory_callbacks_round_trip_witness :
  let t := self (QoreTarFile_new_memory sample_env None None empty_world []) in
  (memory_drain 11
     (foldl (fun t b => (memory_write_callback b t).2) t [hello; hello])).1
  = hello ++ hello.
Proof.
  intros t.
  exact (proj1 (proj2 (proj2 (proj2
           (memory_callbacks_round_trip t [hello; hello] eq_refl))))).
Defined.

(** ** The entry information of the read adapter *)

(** X21.  The information the read adapter gives on its entry is a part of what
    [createEntryInfo] gives on it: the keys are at most [name], [size],
    [modified], [mode], [type], [is_directory] and [is_symlink], and all of
    them but [type] hold what [createEntryInfo] stores.  The type is told
    from the file type alone and is one of [file], [directory], [symlink]
    and [unknown]: it is the type [createEntryInfo] stores for such an entry
    without a hardlink target, while an entry with a hardlink target, which
    [createEntryInfo] lists as a hardlink, is never listed as one here. *)
Theorem stream_info_is_partial :
  forall e,
    let i := getEntryInfo (TarInputStream_new e) in
    let c := createEntryInfo e in
    (forall k, is_Some (i !! k) ->
       k ∈ ["name"; "size"; "modified"; "mode"; "type"; "is_directory";
            "is_symlink"])
    /\ (forall k,
          k ∈ ["name"; "size"; "modified"; "mode"; "is_directory";
               "is_symlink"] ->
          i !! k = c !! k)
    /\ i !! "type"
       = Some (QString (if filetype e =? AE_IFREG then "file"
                        else if filetype e =? AE_IFDIR then "directory"
                        else if filetype e =? AE_IFLNK then "symlink"
                        else "unknown"))
    /\ (c_nonempty (hardlink e) = false ->
        filetype e = AE_IFREG \/ filetype e = AE_IFDIR
        \/ filetype e = AE_IFLNK ->
        i !! "type" = c !! "type")
    /\ (c_nonempty (hardlink e) = true ->
        c !! "type" = Some (QString "hardlink")
        /\ i !! "type" <> Some (QString "hardlink")).
Proof.
  intros e i c.
  assert (Htype : i !! "type"
    = Some (QString (if filetype e =? AE_IFREG then "file"
                     else if filetype e =? AE_IFDIR then "directory"
                     else if filetype e =? AE_IFLNK then "symlink"
                     else "unknown"))).
  { subst i. unfold getEntryInfo. cbv zeta.
    rewrite !lookup_insert_ne by done. by rewrite lookup_insert_eq. }
  split_and!.
  - intros k [v Hk]. subst i. unfold getEntryInfo in Hk. cbv zeta in Hk.
    repeat match type of Hk with
    | <[?j := _]> _ !! k = Some _ =>
        destruct (decide (j = k)) as [<-|];
        [set_solver|rewrite lookup_insert_ne in Hk by done]
    end.
    destruct (mtime (is_entry (TarInputStream_new e))) as [d|];
      cbn [set_key] in Hk.
    + repeat match type of Hk with
      | <[?j := _]> _ !! k = Some _ =>
          destruct (decide (j = k)) as [<-|];
          [set_solver|rewrite lookup_insert_ne in Hk by done]
      end. done.
    + repeat match type of Hk with
      | <[?j := _]> _ !! k = Some _ =>
          destruct (decide (j = k)) as [<-|];
          [set_solver|rewrite lookup_insert_ne in Hk by done]
      end. done.
  - intros k Hk. subst i c.
    repeat (apply elem_of_cons in Hk as [->|Hk]);
      [..|by apply elem_of_nil in Hk];
      unfold getEntryInfo, TarInputStream_new; cbv zeta;
      cbn [is_entry entry_size];
      destruct (mtime e) as [d|] eqn:Hmt; cbn [set_key];
      repeat first [rewrite lookup_insert_eq
                   | rewrite lookup_insert_ne by done];
      symmetry; lookup_info;
      rewrite ?Hmt; cbn [set_key];
      repeat first [rewrite lookup_insert_eq
                   | rewrite lookup_insert_ne by done
                   | rewrite lookup_set_key_ne by done];
      done.
  - done.
  - intros Hh Hft. rewrite Htype. subst c.
    rewrite createEntryInfo_type, Hh. unfold filetype_str.
    by destruct Hft as [->|[->| ->]].
  - intros Hh. subst c. rewrite createEntryInfo_type, Hh. split; [done|].
    rewrite Htype. by repeat destruct (_ =? _).
Qed.

(** ** Adding a file from disk *)

Lemma copy_file_loop_trace E fuel content st wa :
  write_archive (self st) = Some wa ->
  (length content <= fuel)%nat ->
  exists ds,
    write_archive (self (copy_file_loop E fuel content st).2) = Some (wa ++ ds)
    /\ only_data ds
    /\ ((forall t b, 0 <= env_write_data E t b) ->
        data_of ds = content
        /\ xsink (copy_file_loop E fuel content st).2 = xsink st).
Proof.
  assert (Hend : forall fuel st wa,
    write_archive (self st) = Some wa ->
    exists ds,
      write_archive (self (copy_file_loop E fuel [] st).2) = Some (wa ++ ds)
      /\ only_data ds
      /\ ((forall t b, 0 <= env_write_data E t b) ->
          data_of ds = []
          /\ xsink (copy_file_loop E fuel [] st).2 = xsink st)).
  { intros fuel' st' wa' Hw. exists [].
    destruct fuel'; cbn; rewrite app_nil_r;
      (split_and!; [done|by constructor|done]). }
  revert content st wa. induction fuel as [|fuel IH]; intros content st wa Hw Hlen.
  - destruct content as [|b rest]; [|simpl in Hlen; lia]. by apply Hend.
  - destruct content as [|b rest]; [by apply Hend|].
    cbn [copy_file_loop].
    set (n := Z.to_nat TAR_BUFFER_SIZE).
    assert (Hn : (1 <= n)%nat) by (subst n; unfold TAR_BUFFER_SIZE; lia).
    destruct (write_data_call_spec E (take n (b :: rest)) st wa Hw)
      as (st1 & Hcall & Hw1 & Hx1 & _).
    rewrite Hcall.
    destruct (Z.ltb_spec (env_write_data E wa (take n (b :: rest))) 0)
      as [Hneg|Hok].
    + exists [WData (take n (b :: rest))]. cbn [snd raise self].
      split_and!; [done|by repeat constructor|].
      intros Hdata. specialize (Hdata wa (take n (b :: rest))). lia.
    + destruct (IH (drop n (b :: rest)) st1 _ Hw1) as (ds & Hw2 & Hod & Hall).
      { rewrite length_drop. cbn [length] in *. lia. }
      exists (WData (take n (b :: rest)) :: ds).
      split_and!.
      * by rewrite Hw2, <- app_assoc.
      * by constructor.
      * intros Hdata. destruct (Hall Hdata) as [Hdo Hx]. split.
        -- unfold data_of in *. cbn [fmap list_fmap concat].
           change (concat (list_fmap _ _ ?f ds)) with (concat (f <$> ds)).
           by rewrite Hdo, take_drop.
        -- by rewrite Hx, Hx1.
Qed.

(** X22.  [addFile] on a session open for writing raises a TAR-ERROR and writes
    nothing when the status of the file cannot be read.  Otherwise it makes
    one header call for an entry with the name asked for and the size, file
    type, permissions, owner and times of the status, and the calls after it
    are data calls.  When the header is accepted and the file is a regular
    file of positive size, the data calls carry the content of the file in
    order, whatever the size in the header says, and nothing is raised as
    long as no data call answers below zero; for a file of another kind or
    of size zero there is no data call.  The options are not looked at. *)
Theorem addFile_copies_status_and_content :
  forall E name path opts st wa,
    closed (self st) = false -> write_archive (self st) = Some wa ->
    xsink st = [] ->
    let st' := addFile E name path opts st in
    (env_stat E (c_str path) = None ->
     write_archive (self st') = Some wa
     /\ exists desc, xsink st' = [Exception "TAR-ERROR" desc])
    /\ (forall sb,
          env_stat E (c_str path) = Some sb -> env_entry_new E = true ->
          exists e ds,
            write_archive (self st') = Some (wa ++ WHeader e :: ds)
            /\ pathname e = c_str name /\ size e = st_size sb
            /\ filetype e = Z.land (st_mode sb) 61440
            /\ perm e = Z.land (st_mode sb) 4095
            /\ uid e = st_uid sb /\ gid e = st_gid sb
            /\ mtime e = Some (st_mtime sb)
            /\ only_data ds
            /\ (env_write_header E wa e = ARCHIVE_OK ->
                (forall content,
                   Z.land (st_mode sb) 61440 = AE_IFREG -> 0 < st_size sb ->
                   env_fopen_rb E (c_str path) = Some content ->
                   (forall t b, 0 <= env_write_data E t b) ->
                   data_of ds = content /\ xsink st' = [])
                /\ (Z.land (st_mode sb) 61440 <> AE_IFREG \/ st_size sb <= 0 ->
                    ds = [] /\ xsink st' = [])))
    /\ addFile E name path opts st = addFile E name path None st.
Proof.
  intros E name path opts st wa Hc Hw Hxs st'. subst st'.
  unfold addFile. rewrite (checkOpen_write_ok st wa Hc Hw). cbn [negb].
  split_and!; [| |done].
  - intros ->. cbn. rewrite Hw, Hxs. split; [done|]. by eexists.
  - intros sb -> ->. cbn [negb].
    set (e := archive_entry_copy_stat sb _).
    destruct (write_header_call_spec E e st wa Hw)
      as (st1 & Hcall & Hw1 & Hx1 & _).
    rewrite Hcall. exists e.
    destruct (Z.eqb_spec (env_write_header E wa e) ARCHIVE_OK) as [Hok|Hne];
      cbn [negb].
    2: { exists []. cbn. rewrite Hw1.
         split_and!; try done; try (by constructor). }
    destruct (Z.eqb_spec (Z.land (st_mode sb) 61440) 32768) as [Hreg|Hreg];
      cbn [andb].
    2: { exists []. rewrite Hw1, Hx1, Hxs.
         split_and!; try done; try (by constructor);
           try (intros _; split;
                [intros content Hr; by rewrite Hr in Hreg|done]). }
    destruct (Z.ltb_spec 0 (st_size sb)) as [Hpos|Hpos].
    2: { exists []. rewrite Hw1, Hx1, Hxs.
         split_and!; try done; try (by constructor);
           try (intros _; split; [intros content _ ?; lia|done]). }
    destruct (env_fopen_rb E (c_str path)) as [content|] eqn:Hfo.
    + destruct (copy_file_loop_trace E (length content) content st1 _ Hw1)
        as (ds & Hw2 & Hod & Hall); [done|].
      exists ds. rewrite Hw2.
      split_and!; try done; try (by rewrite <- app_assoc).
      intros _. split.
      * intros content' _ _ [= <-] Hdata.
        destruct (Hall Hdata) as [Hdo Hx]. by rewrite Hx, Hx1, Hxs.
      * intros [Hr|Hs]; [done|lia].
    + exists []. cbn. rewrite Hw1.
      split_and!; try done; try (by constructor).
      intros _. split; [done|]. intros [Hr|Hs]; [done|lia].
Qed.

Lemma addFile_copies_status_and_content_witness :
  let sb := {| st_mode := 33188; st_size := 5; st_uid := 0; st_gid := 0;
               st_mtime := 0; st_atime := 0; st_ctime := 0 |} in
  let E := with_file sb hello sample_env in
  exists e ds,
    write_archive
      (self (addFile E "a.txt" "/tmp/a.txt" None
               (QoreTarFile_new_memory E None None empty_world [])))
    = Some ([] ++ WHeader e :: ds)
    /\ size e = 5 /\ perm e = 420 /\ data_of ds = hello.
Proof.
  intros sb E.
  destruct (proj1 (proj2 (addFile_copies_status_and_content E "a.txt"
                            "/tmp/a.txt" None
                            (QoreTarFile_new_memory E None None empty_world [])
                            [] eq_refl eq_refl eq_refl))
              sb eq_refl eq_refl)
    as (e & ds & H1 & _ & H3 & _ & H5 & _ & _ & _ & _ & H10).
  exists e, ds. split; [exact H1|]. split; [exact H3|]. split; [exact H5|].
  exact (proj1 (proj1 (H10 eq_refl) hello eq_refl eq_refl eq_refl
                  (fun _ b => Nat2Z.is_nonneg _))).
Defined.

(** ** The listing and the lookup by name *)

Lemma entryNameEquals_c_str E p name :
  entryNameEquals E (c_str p) name = entryNameEquals E p name.
Proof. unfold entryNameEquals. by rewrite c_str_idem. Qed.

(** X23.  On a readable session [entries] lists the record of every member the
    reopened reader delivers, in order, and [getEntry] returns the first
    record of that list whose name [entryNameEquals] takes for the name
    asked for (the same bytes where names are compared with [strcmp], the
    same normal form where they are normalised first), or nothing when the
    list has none; [hasEntry] tells whether there is one. *)
Theorem getEntry_is_first_of_entries :
  forall E name st,
    closed (self st) = false ->
    is_Some (read_archive (self st)) \/ in_memory (self st) = true ->
    pending (xsink (reopenRead E st)) = false ->
    let infos :=
      (fun m => createEntryInfo (m_entry m))
        <$> members_ahead (reopenRead E st) in
    fst (entries E st) = Some infos
    /\ fst (getEntry E name st) = List.find (named E name) infos
    /\ fst (hasEntry E name st) = existsb (named E name) infos.
Proof.
  intros E name st Hclosed Hopen Hp infos. subst infos.
  unfold entries, getEntry, hasEntry.
  rewrite (checkOpen_read_ok st Hclosed Hopen). cbn [negb]. rewrite Hp.
  rewrite (entries_loop_all _ _ [] Hp). cbn [fst app].
  split; [done|].
  induction (members_ahead (reopenRead E st)) as [|m ms IH]; [done|].
  cbn [find_entry fmap list_fmap List.find existsb].
  change (list_fmap _ _ ?f ms) with (f <$> ms).
  unfold named at 1 3. rewrite createEntryInfo_name, entryNameEquals_c_str.
  destruct (entryNameEquals E (pathname (m_entry m)) name); [done|].
  cbn [orb]. destruct IH as [IH1 IH2].
  destruct (find_entry E name ms) as [[m' post]|]; cbn [fst] in *;
    by rewrite <- IH1, <- IH2.
Qed.

Lemma getEntry_is_first_of_entries_witness :
  fst (getEntry sample_env "b.txt" read_sample)
  = List.find (named sample_env "b.txt")
      ((fun m => createEntryInfo (m_entry m)) <$> sample_members).
Proof.
  exact (proj1 (proj2 (getEntry_is_first_of_entries sample_env "b.txt"
                         read_sample eq_refl (or_intror eq_refl) eq_refl))).
Defined.

(** ** Bulk extraction when the disk writer refuses data *)

Lemma copy_blocks_codes E fuel name a st :
  exists evs xs,
    grows st (copy_blocks E fuel name a st).1 evs xs
    /\ disk_headers evs = []
    /\ Forall (fun x => ex_code x = "TAR-ERROR") xs.
Proof.
  revert a st. induction fuel as [|fuel IH]; intros a st.
  - simpl. destruct (archive_read_data_block a) as [[[r buf] off] a1].
    destruct (r =? ARCHIVE_OK);
      [|exists [], []; split; [apply grows_refl|done]].
    destruct (negb (_ =? ARCHIVE_OK)); simpl.
    + exists [DBlock buf off], [Exception "TAR-ERROR"
        ("failed to write data for '" +:+ name +:+ "': "
         +:+ get_archive_error E)].
      split; [|split; [done|by repeat constructor]].
      apply (grows_trans _ _ _ [DBlock buf off] [] [] [_]
               (grows_disk_call _ _) (grows_raise _ _ _)).
    + exists [DBlock buf off], []. split; [apply grows_disk_call|done].
  - cbn [copy_blocks].
    destruct (archive_read_data_block a) as [[[r buf] off] a1].
    destruct (r =? ARCHIVE_OK);
      [|exists [], []; split; [apply grows_refl|done]].
    destruct (negb (_ =? ARCHIVE_OK)); simpl.
    + exists [DBlock buf off], [Exception "TAR-ERROR"
        ("failed to write data for '" +:+ name +:+ "': "
         +:+ get_archive_error E)].
      split; [|split; [done|by repeat constructor]].
      apply (grows_trans _ _ _ [DBlock buf off] [] [] [_]
               (grows_disk_call _ _) (grows_raise _ _ _)).
    + destruct (IH a1 (disk_call (DBlock buf off) st))
        as (evs & xs & Hg & Hh & Hc).
      exists (DBlock buf off :: evs), xs. split; [|done].
      apply (grows_trans _ _ _ [DBlock buf off] evs [] xs
               (grows_disk_call _ _) Hg).
Qed.

Lemma copy_blocks_refused E m ms name st :
  (forall t b o, env_disk_block E t b o <> ARCHIVE_OK) ->
  exists evs xs,
    grows st
      (copy_blocks E (S (length (m_blocks m))) name (reader_at m ms) st).1 evs xs
    /\ ex_code <$> xs
       = match m_blocks m with [] => [] | _ :: _ => ["TAR-ERROR"] end.
Proof.
  intros Hblock. destruct m as [e d bs g]. cbn [m_blocks].
  destruct bs as [|[b o] rest].
  - exists [], []. split; [|done].
    cbn [copy_blocks length]. unfold archive_read_data_block, reader_at.
    cbn [rh_data m_data m_damaged rh_damaged rh_blocks m_blocks].
    destruct g; cbn; apply grows_refl.
  - eexists [_], [_]. cbn [length]. cbn [copy_blocks].
    unfold archive_read_data_block, reader_at.
    cbn [rh_data m_data m_damaged rh_damaged rh_offset rh_pending rh_blocks
         m_blocks].
    cbn [Z.eqb ARCHIVE_OK].
    match goal with
    | |- context [env_disk_block E ?t ?b ?o =? ?c] =>
        destruct (Z.eqb_spec (env_disk_block E t b o) c) as [Hok|_];
        [by apply Hblock in Hok|]
    end.
    cbn [negb fst].
    split; [apply (grows_trans _ _ _ [_] [] [] [_]
                     (grows_disk_call _ _) (grows_raise _ _ _))|done].
Qed.

Lemma extract_loop_goes_on E dest ms st :
  (forall t e, env_disk_header E t e = ARCHIVE_OK) ->
  Forall (fun m => passes_gate (m_entry m) = true) ms ->
  exists evs xs,
    grows st (extract_loop E dest ms st).1 evs xs
    /\ disk_headers evs = (fun m => rooted dest (m_entry m)) <$> ms
    /\ Forall (fun x => ex_code x = "TAR-ERROR") xs
    /\ ((forall t b o, env_disk_block E t b o <> ARCHIVE_OK) ->
        ex_code <$> xs = (fun _ => "TAR-ERROR") <$> List.filter has_payload ms).
Proof.
  intros Hheader Hall. revert st.
  induction Hall as [|m ms Hm _ IH]; intros st.
  - exists [], []. split; [apply grows_refl|done].
  - rewrite (extract_loop_safe E dest m ms st Hm). cbv zeta.
    rewrite Hheader. cbn [Z.eqb ARCHIVE_OK negb].
    set (st1 := disk_call (DHeader (rooted dest (m_entry m))) st).
    set (st2 := disk_call DFinishEntry _).
    destruct (IH st2) as (evs & xs & Hg & Hh & Hc & Hn).
    assert (Hstep : exists evs1 xs1,
      grows st st2 evs1 xs1
      /\ disk_headers evs1 = [rooted dest (m_entry m)]
      /\ Forall (fun x => ex_code x = "TAR-ERROR") xs1
      /\ ((forall t b o, env_disk_block E t b o <> ARCHIVE_OK) ->
          ex_code <$> xs1 = if has_payload m then ["TAR-ERROR"] else [])).
    { subst st2. unfold has_payload.
      destruct (0 <? size (m_entry m)); cbn [andb].
      - destruct (copy_blocks_codes E (S (length (m_blocks m)))
                    (c_str (pathname (m_entry m))) (reader_at m ms) st1)
          as (evs1 & xs1 & Hg1 & Hh1 & Hc1).
        exists ([DHeader (rooted dest (m_entry m))] ++ evs1 ++ [DFinishEntry]),
          ([] ++ xs1 ++ []).
        split_and!.
        + eapply grows_trans; [apply grows_disk_call|].
          eapply grows_trans; [apply Hg1|apply grows_disk_call].
        + rewrite !disk_headers_app, Hh1. done.
        + by rewrite app_nil_r.
        + intros Hblock.
          destruct (copy_blocks_refused E m ms (c_str (pathname (m_entry m)))
                      st1 Hblock) as (evs2 & xs2 & Hg2 & Hc2).
          assert (xs1 = xs2) as ->.
          { destruct Hg1 as (_ & _ & _ & _ & _ & Hx1).
            destruct Hg2 as (_ & _ & _ & _ & _ & Hx2).
            rewrite Hx1 in Hx2. by apply app_inv_head in Hx2. }
          rewrite app_nil_r. cbn [app]. rewrite Hc2.
          by destruct (m_blocks m).
      - exists ([DHeader (rooted dest (m_entry m))] ++ [DFinishEntry]),
          ([] ++ []).
        split_and!; try done.
        eapply grows_trans; apply grows_disk_call. }
    destruct Hstep as (evs1 & xs1 & Hg1 & Hh1 & Hc1 & Hn1).
    exists (evs1 ++ evs), (xs1 ++ xs). split_and!.
    + by eapply grows_trans.
    + by rewrite disk_headers_app, Hh1, Hh.
    + by apply Forall_app.
    + intros Hblock. rewrite fmap_app, (Hn1 Hblock), (Hn Hblock).
      cbn [List.filter]. by destruct (has_payload m).
Qed.

(** X24.  [extractAll] does not stop at data it cannot write.  When every entry
    passes the checks and the disk writer accepts the headers, every entry
    gets its header call, in the order of the archive, whatever the writer
    answers to the blocks, and every exception raised is a TAR-ERROR; when
    the writer refuses every block, one exception is raised for each entry
    that has a block to write, and the entries after it are still taken. *)
Theorem extractAll_goes_on_after_refused_data :
  forall E destPath opts st,
    closed (self st) = false ->
    is_Some (read_archive (self st)) \/ in_memory (self st) = true ->
    pending (xsink (reopenRead E st)) = false ->
    env_disk_new E = true ->
    (forall t e, env_disk_header E t e = ARCHIVE_OK) ->
    let ms := members_ahead (reopenRead E st) in
    let dest :=
      destination (parseExtractOptions opts (extract_defaults destPath)) in
    let st' := extractAll E destPath opts st in
    Forall (fun m => passes_gate (m_entry m) = true) ms ->
    disk_headers (w_disk (world st'))
    = disk_headers (w_disk (world st))
      ++ ((fun m => rooted dest (m_entry m)) <$> ms)
    /\ Forall (fun x => ex_code x = "TAR-ERROR") (xsink st')
    /\ ((forall t b o, env_disk_block E t b o <> ARCHIVE_OK) ->
        ex_code <$> xsink st'
        = (fun _ => "TAR-ERROR") <$> List.filter has_payload ms).
Proof.
  intros E destPath opts st Hclosed Hopen Hpending Hdisk Hheader ms dest st'
    Hall.
  set (o := parseExtractOptions opts (extract_defaults destPath)).
  set (st2 := disk_call DStandardLookup
                (disk_call (DOptions (extract_flags o)) (reopenRead E st))).
  destruct (extract_loop_goes_on E dest ms st2 Hheader Hall)
    as (evs & xs & Hg & Hh & Hc & Hn).
  destruct (extractAll_run E destPath opts st Hclosed Hopen Hpending Hdisk
              evs xs Hg) as (Hd & Hx & _).
  subst st'. rewrite Hd, Hx, Hh. done.
Qed.

Lemma extractAll_goes_on_after_refused_data_witness :
  let ms := [regular_file "a.txt" hello; regular_file "d/b.txt" []] in
  let E := with_archive ms sample_env in
  disk_headers
    (w_disk (world (extractAll E (Some "out") None
                      (QoreTarFile_from_data E (Some sample_archive)
                         empty_world []))))
  = [rooted "out" (m_entry (regular_file "a.txt" hello));
     rooted "out" (m_entry (regular_file "d/b.txt" []))].
Proof.
  intros ms E.
  refine (proj1 (extractAll_goes_on_after_refused_data E (Some "out") None
                   (QoreTarFile_from_data E (Some sample_archive)
                      empty_world [])
                   eq_refl (or_intror eq_refl) eq_refl eq_refl
                   (fun _ _ => eq_refl) _)).
  by repeat constructor.
Defined.
